(** * fstream-walk: a shallow embedding of the traversal engine

    The development follows the layout of the repository:
    - [Js]        the fragment of JavaScript values the code inspects;
    - [Errors]    src/errors.js   (error classes, [wrapError], [shouldSuppressError]);
    - [Utils]     src/utils.js and src/utils.ts  ([match]);
    - [Options]   src/options.js  ([DEFAULT_OPTIONS], [sanitizeOptions]);
    - [Core]      src/core.js     ([walk], [applyFilters], [sortEntries]);
    - [Glob]      the glob matcher ([globToRegex], [matchGlob],
                  [createGlobFilter]);
    - [Helpers]   src/helpers.js  ([findFiles], [groupByExtension],
                  [findDuplicateNames]).

    The file system, [path.join], [String.prototype.localeCompare] and
    the clock on which the consumer flips the abort flag are the
    collaborators of the engine; the [RegExp] constructor is the
    collaborator of the glob matcher, [path.basename] and
    [path.extname] are those of the helpers.  They are parameters of
    the model. *)

From Stdlib Require Import QArith Ascii Sorted OrderedTypeEx.
From stdpp Require Import base decidable list strings gmap sets.

Local Open Scope string_scope.
Local Open Scope list_scope.

(* ===================================================================== *)
(** ** JavaScript values *)
(* ===================================================================== *)

Module Js.

(** An IEEE number as far as the program looks at it: the program only
    tests [=== Infinity], [isNaN] and [< 0], and compares a depth
    counter with it. *)
Inductive Number : Type :=
| NFinite (q : Q)
| NPosInf
| NNegInf
| NNaN.

(** [fs.Dirent]: the name and the kind reported by the directory stream. *)
Inductive DirentKind : Type := DtFile | DtDirectory | DtSymlink | DtOther.

Record Dirent : Type := mkDirent { name : string; kind : DirentKind }.

Definition isDirectory (d : Dirent) : bool :=
  match kind d with DtDirectory => true | _ => false end.
Definition isSymbolicLink (d : Dirent) : bool :=
  match kind d with DtSymlink => true | _ => false end.
Definition isFile (d : Dirent) : bool :=
  match kind d with DtFile => true | _ => false end.

(** A function value, by what it does in the two roles in which the
    program calls one: as a filter predicate on a file name and as a
    comparator handed to [Array.prototype.sort]. *)
Record Callable : Type := mkCallable {
  as_predicate : string -> bool;
  as_comparator : Dirent -> Dirent -> Z
}.

(** An [AbortSignal].  Its [aborted] flag is written once, by the
    consumer; the model reads it off a logical clock that advances at
    every suspension point of the generator. *)
Inductive AbortSignal : Type :=
| AbortsAt (t : nat)
| NeverAborts.

Definition aborted (sig : AbortSignal) (now : nat) : bool :=
  match sig with
  | AbortsAt t => bool_decide (t <= now)%nat
  | NeverAborts => false
  end.

Inductive Value : Type :=
| VUndefined
| VNull
| VBoolean (b : bool)
| VNumber (n : Number)
| VString (s : string)
| VRegExp (test : string -> bool)
| VFunction (f : Callable)
| VAbortSignal (sig : AbortSignal)
| VObject.

Definition typeof (v : Value) : string :=
  match v with
  | VUndefined => "undefined"
  | VNull => "object"
  | VBoolean _ => "boolean"
  | VNumber _ => "number"
  | VString _ => "string"
  | VRegExp _ => "object"
  | VFunction _ => "function"
  | VAbortSignal _ => "object"
  | VObject => "object"
  end.

(** ToBoolean *)
Definition truthy (v : Value) : bool :=
  match v with
  | VUndefined | VNull => false
  | VBoolean b => b
  | VNumber (NFinite q) => negb (Qeq_bool q 0)
  | VNumber NNaN => false
  | VNumber _ => true
  | VString s => negb (String.eqb s "")
  | _ => true
  end.

(** [String.prototype.includes] *)
Fixpoint includes (s sub : string) : bool :=
  String.prefix sub s ||
  match s with
  | EmptyString => false
  | String _ s' => includes s' sub
  end.

(** [Array.prototype.sort] with a comparator: a stable insertion sort
    ([b] goes before [a] only when [cmp a b > 0]). *)
Fixpoint sort_insert {A} (cmp : A -> A -> Z) (x : A) (l : list A) : list A :=
  match l with
  | [] => [x]
  | y :: l' => if (0 <? cmp x y)%Z then y :: sort_insert cmp x l' else x :: y :: l'
  end.

Definition array_sort {A} (cmp : A -> A -> Z) (l : list A) : list A :=
  foldr (sort_insert cmp) [] l.

End Js.

Import Js.

(** Outcome of a call that may throw. *)
Inductive Result (E A : Type) : Type :=
| Ok (a : A)
| Err (e : E).
Arguments Ok {E A} a.
Arguments Err {E A} e.

(* ===================================================================== *)
(** ** src/errors.js *)
(* ===================================================================== *)

Module Errors.

Inductive ErrorClass : Type :=
| ClsError              (* a plain [Error], e.g. a system error of node:fs *)
| ClsTypeError
| ClsFStreamWalkError
| ClsPermissionError
| ClsPathNotFoundError
| ClsInvalidPathError
| ClsSymlinkLoopError
| ClsAbortError
| ClsMaxDepthError.

Record JsError : Type := mkError {
  e_class : ErrorClass;
  e_message : string;
  e_code : option string;
  e_path : option string
}.

Definition e_name (e : JsError) : string :=
  match e_class e with
  | ClsError => "Error"
  | ClsTypeError => "TypeError"
  | ClsFStreamWalkError => "FStreamWalkError"
  | ClsPermissionError => "PermissionError"
  | ClsPathNotFoundError => "PathNotFoundError"
  | ClsInvalidPathError => "InvalidPathError"
  | ClsSymlinkLoopError => "SymlinkLoopError"
  | ClsAbortError => "AbortError"
  | ClsMaxDepthError => "MaxDepthError"
  end.

Definition instanceof_FStreamWalkError (e : JsError) : bool :=
  match e_class e with
  | ClsError | ClsTypeError => false
  | _ => true
  end.

Definition instanceof_PermissionError (e : JsError) : bool :=
  match e_class e with ClsPermissionError => true | _ => false end.

Definition FStreamWalkError (message : string) (code path : option string) : JsError :=
  mkError ClsFStreamWalkError message code path.
Definition PermissionError (message path : string) : JsError :=
  mkError ClsPermissionError message (Some "EACCES") (Some path).
Definition PathNotFoundError (message path : string) : JsError :=
  mkError ClsPathNotFoundError message (Some "ENOENT") (Some path).
Definition InvalidPathError (message path : string) : JsError :=
  mkError ClsInvalidPathError message (Some "EINVAL") (Some path).
Definition SymlinkLoopError (message path : string) : JsError :=
  mkError ClsSymlinkLoopError message (Some "ELOOP") (Some path).
Definition AbortError (message : string) : JsError :=
  mkError ClsAbortError message (Some "ABORT_ERR") None.

Definition code_is (e : JsError) (c : string) : bool :=
  match e_code e with
  | Some c' => String.eqb c' c
  | None => false
  end.

(** [wrapError(err, path)] *)
Definition wrapError (err : JsError) (path : string) : JsError :=
  if instanceof_FStreamWalkError err then err
  else if code_is err "EACCES" || code_is err "EPERM" then
    PermissionError ("Permission denied: " +:+ path) path
  else if code_is err "ENOENT" then
    PathNotFoundError ("Path not found: " +:+ path) path
  else if code_is err "ELOOP" then
    SymlinkLoopError ("Too many symbolic links: " +:+ path) path
  else if code_is err "ENOTDIR" then
    InvalidPathError ("Not a directory: " +:+ path) path
  else
    FStreamWalkError
      (if String.eqb (e_message err) "" then "Unknown error" else e_message err)
      (e_code err) (Some path).

(** [shouldSuppressError(err, options)]; [suppressErrors] is the field
    of [options], [None] when the caller left it out. *)
Definition shouldSuppressError (err : JsError) (suppressErrors : option bool) : bool :=
  let suppressErrors := default true suppressErrors in
  if negb suppressErrors then false
  else if instanceof_PermissionError err then true
  else if code_is err "EACCES" || code_is err "EPERM" then true
  else false.

End Errors.

Import Errors.

(* ===================================================================== *)
(** ** src/utils.js, src/utils.ts *)
(* ===================================================================== *)

Module Utils.

(** [match(fileName, pattern)] of src/utils.js. *)
Definition match_ (fileName : string) (pattern : Value) : bool :=
  if negb (truthy pattern) then true
  else match pattern with
       | VRegExp test => test fileName
       | VString s => includes fileName s
       | VFunction f => as_predicate f fileName
       | _ => true
       end.

(** [match(fileName, pattern)] of src/utils.ts. *)
Definition match_ts (fileName : string) (pattern : Value) : Result JsError bool :=
  match pattern with
  | VNull | VUndefined => Ok true
  | VRegExp test => Ok (test fileName)
  | VString s =>
      if String.eqb s "" then
        Err (mkError ClsTypeError
               "Pattern cannot be an empty string (use null for 'match all')"
               None None)
      else Ok (includes fileName s)
  | VFunction f => Ok (as_predicate f fileName)
  | _ =>
      Err (mkError ClsTypeError
             ("Pattern must be a string, RegExp, function, null, or undefined. Got: "
                +:+ typeof pattern)
             None None)
  end.

End Utils.

Import Utils.

(* ===================================================================== *)
(** ** src/options.js *)
(* ===================================================================== *)

Module Options.

(** The object handed to [sanitizeOptions]: a field is [None] when the
    caller's object has no such key, and [Some v] when it has one,
    whatever [v] is. *)
Record WalkerOptionsInput : Type := mkInput {
  in_maxDepth : option Value;
  in_include : option Value;
  in_exclude : option Value;
  in_yieldDirectories : option Value;
  in_followSymlinks : option Value;
  in_suppressErrors : option Value;
  in_signal : option Value;
  in_sort : option Value;
  in_onProgress : option Value;
  in_withStats : option Value
}.

Definition no_options : WalkerOptionsInput :=
  mkInput None None None None None None None None None None.

(** An options object with all ten keys (the local [merged]). *)
Record OptionsObject : Type := mkObject {
  o_maxDepth : Value;
  o_include : Value;
  o_exclude : Value;
  o_yieldDirectories : Value;
  o_followSymlinks : Value;
  o_suppressErrors : Value;
  o_signal : Value;
  o_sort : Value;
  o_onProgress : Value;
  o_withStats : Value
}.

Definition DEFAULT_OPTIONS : OptionsObject := {|
  o_maxDepth := VNumber NPosInf;
  o_include := VNull;
  o_exclude := VNull;
  o_yieldDirectories := VBoolean false;
  o_followSymlinks := VBoolean false;
  o_suppressErrors := VBoolean true;
  o_signal := VNull;
  o_sort := VNull;
  o_onProgress := VNull;
  o_withStats := VBoolean false
|}.

(** [{ ...DEFAULT_OPTIONS, ...opts }] *)
Definition spread (opts : WalkerOptionsInput) : OptionsObject := {|
  o_maxDepth := default (o_maxDepth DEFAULT_OPTIONS) (in_maxDepth opts);
  o_include := default (o_include DEFAULT_OPTIONS) (in_include opts);
  o_exclude := default (o_exclude DEFAULT_OPTIONS) (in_exclude opts);
  o_yieldDirectories :=
    default (o_yieldDirectories DEFAULT_OPTIONS) (in_yieldDirectories opts);
  o_followSymlinks :=
    default (o_followSymlinks DEFAULT_OPTIONS) (in_followSymlinks opts);
  o_suppressErrors :=
    default (o_suppressErrors DEFAULT_OPTIONS) (in_suppressErrors opts);
  o_signal := default (o_signal DEFAULT_OPTIONS) (in_signal opts);
  o_sort := default (o_sort DEFAULT_OPTIONS) (in_sort opts);
  o_onProgress := default (o_onProgress DEFAULT_OPTIONS) (in_onProgress opts);
  o_withStats := default (o_withStats DEFAULT_OPTIONS) (in_withStats opts)
|}.

Definition is_Infinity (v : Value) : bool :=
  match v with VNumber NPosInf => true | _ => false end.
Definition is_null (v : Value) : bool :=
  match v with VNull => true | _ => false end.
Definition is_string (v : Value) (s : string) : bool :=
  match v with VString s' => String.eqb s' s | _ => false end.
Definition typeof_is (v : Value) (t : string) : bool :=
  String.eqb (typeof v) t.
Definition instanceof_AbortSignal (v : Value) : bool :=
  match v with VAbortSignal _ => true | _ => false end.
(** [isNaN(v)] and [v < 0], used on values whose [typeof] is "number". *)
Definition isNaN (v : Value) : bool :=
  match v with VNumber NNaN => true | _ => false end.
Definition lt_zero (v : Value) : bool :=
  match v with
  | VNumber (NFinite q) => negb (Qle_bool 0 q)
  | VNumber NNegInf => true
  | _ => false
  end.

Definition Error (message : string) : JsError :=
  mkError ClsError message None None.

(** [sanitizeOptions(opts)] *)
Definition sanitizeOptions (opts : WalkerOptionsInput) : Result JsError OptionsObject :=
  let merged := spread opts in
  if negb (is_Infinity (o_maxDepth merged)) &&
     (negb (typeof_is (o_maxDepth merged) "number")
      || isNaN (o_maxDepth merged) || lt_zero (o_maxDepth merged))
  then Err (Error "maxDepth must be a non-negative number or Infinity")
  else if negb (is_null (o_sort merged)) &&
          negb (is_string (o_sort merged) "asc") &&
          negb (is_string (o_sort merged) "desc") &&
          negb (typeof_is (o_sort merged) "function")
  then Err (Error "sort must be 'asc', 'desc', a function, or null")
  else if negb (is_null (o_signal merged)) &&
          negb (instanceof_AbortSignal (o_signal merged))
  then Err (Error "signal must be an AbortSignal or null")
  else if negb (typeof_is (o_yieldDirectories merged) "boolean")
  then Err (Error "yieldDirectories must be a boolean")
  else if negb (typeof_is (o_followSymlinks merged) "boolean")
  then Err (Error "followSymlinks must be a boolean")
  else if negb (typeof_is (o_suppressErrors merged) "boolean")
  then Err (Error "suppressErrors must be a boolean")
  else if negb (typeof_is (o_withStats merged) "boolean")
  then Err (Error "withStats must be a boolean")
  else if negb (is_null (o_onProgress merged)) &&
          negb (typeof_is (o_onProgress merged) "function")
  then Err (Error "onProgress must be a function or null")
  else Ok merged.

(** *** The options as the engine reads them (interface [WalkerOptions]) *)

Inductive SortType : Type :=
| SortAsc
| SortDesc
| SortFn (cmp : Callable).

Record WalkerOptions : Type := mkOptions {
  maxDepth : Number;
  include : Value;
  exclude : Value;
  yieldDirectories : bool;
  followSymlinks : bool;
  suppressErrors : bool;
  signal : option AbortSignal;
  sort : option SortType;
  onProgress : option Callable;
  withStats : bool
}.

Definition as_number (v : Value) : option Number :=
  match v with VNumber n => Some n | _ => None end.
Definition as_boolean (v : Value) : option bool :=
  match v with VBoolean b => Some b | _ => None end.
Definition as_signal (v : Value) : option (option AbortSignal) :=
  match v with
  | VNull => Some None
  | VAbortSignal s => Some (Some s)
  | _ => None
  end.
Definition as_sort (v : Value) : option (option SortType) :=
  match v with
  | VNull => Some None
  | VString s =>
      if String.eqb s "asc" then Some (Some SortAsc)
      else if String.eqb s "desc" then Some (Some SortDesc)
      else None
  | VFunction f => Some (Some (SortFn f))
  | _ => None
  end.
Definition as_callback (v : Value) : option (option Callable) :=
  match v with
  | VNull => Some None
  | VFunction f => Some (Some f)
  | _ => None
  end.

(** The options object as the engine reads it.  On an object that
    [sanitizeOptions] lets through every field has the shape its
    reader expects (lemma [sanitized_shapes] below); the fallbacks of
    the readers are never used there. *)
Definition typed (o : OptionsObject) : WalkerOptions := {|
  maxDepth := default NNaN (as_number (o_maxDepth o));
  include := o_include o;
  exclude := o_exclude o;
  yieldDirectories := default false (as_boolean (o_yieldDirectories o));
  followSymlinks := default false (as_boolean (o_followSymlinks o));
  suppressErrors := default false (as_boolean (o_suppressErrors o));
  signal := default None (as_signal (o_signal o));
  sort := default None (as_sort (o_sort o));
  onProgress := default None (as_callback (o_onProgress o));
  withStats := default false (as_boolean (o_withStats o))
|}.

(** *** The validation rules in the words of the specification *)

Definition is_integer (q : Q) : bool := (Qden (Qred q) =? 1)%positive.

(** "depth is a non-negative integer or unbounded" *)
Definition spec_depth_ok (v : Value) : bool :=
  match v with
  | VNumber NPosInf => true
  | VNumber (NFinite q) => Qle_bool 0 q && is_integer q
  | _ => false
  end.

(** "depth is a non-negative number or unbounded" *)
Definition code_depth_ok (v : Value) : bool :=
  match v with
  | VNumber NPosInf => true
  | VNumber (NFinite q) => Qle_bool 0 q
  | _ => false
  end.

(** "sort mode is one of none, asc, desc, function" *)
Definition spec_sort_ok (v : Value) : bool :=
  match v with
  | VNull => true
  | VString s => String.eqb s "asc" || String.eqb s "desc"
  | VFunction _ => true
  | _ => false
  end.

(** "cancellation token absent, or of the right type" *)
Definition spec_signal_ok (v : Value) : bool :=
  match v with VNull | VAbortSignal _ => true | _ => false end.

Definition spec_boolean_ok (v : Value) : bool :=
  match v with VBoolean _ => true | _ => false end.

(** "progress sink absent, or callable" *)
Definition spec_progress_ok (v : Value) : bool :=
  match v with VNull | VFunction _ => true | _ => false end.

Definition rules_ok (depth_ok : Value -> bool) (o : OptionsObject) : bool :=
  depth_ok (o_maxDepth o) && spec_sort_ok (o_sort o) && spec_signal_ok (o_signal o)
  && spec_boolean_ok (o_yieldDirectories o) && spec_boolean_ok (o_followSymlinks o)
  && spec_boolean_ok (o_suppressErrors o) && spec_boolean_ok (o_withStats o)
  && spec_progress_ok (o_onProgress o).

Definition is_Err {E A} (r : Result E A) : bool :=
  match r with Err _ => true | Ok _ => false end.

End Options.

Import Options.

(* ===================================================================== *)
(** ** src/core.js *)
(* ===================================================================== *)

Module Core.

(** [fs.Stats], as far as the engine and its callers look at it. *)
Record Stats : Type := mkStats { st_isDirectory : bool; st_size : Z }.

(** The record the generator yields. *)
Record Entry : Type := mkEntry {
  path : string;
  dirent : Dirent;
  depth : nat;
  stats : option Stats
}.

(** An open [fs.Dir]: the entries its async iterator delivers, in
    order, and the error with which the read after the last of them
    fails, if it does. *)
Record Dir : Type := mkDir { entries : list Dirent; fault : option JsError }.

(** The collaborators: node:fs/promises, [path.join] and
    [String.prototype.localeCompare]. *)
Record Host : Type := mkHost {
  realpath : string -> Result JsError string;
  opendir : string -> Result JsError Dir;
  stat : string -> Result JsError Stats;
  joinPath : string -> string -> string;
  localeCompare : string -> string -> Z
}.

(** What one traversal mutates: the [visited] set shared by all frames,
    and the clock (one tick per suspension point: every [await] and
    every [yield]). *)
Record World : Type := mkWorld { clock : nat; visited : gset string }.

Definition start : World := mkWorld 0 ∅.

(** The places where the engine awaits the file system. *)
Inductive Site : Type :=
| AtRealpath      (* [fs.realpath(dirPath)] *)
| AtOpendir       (* [fs.opendir(dirPath)] *)
| AtRead          (* the next entry of the directory stream *)
| AtLinkStat      (* [fs.stat(entryPath)] that looks through a symlink *)
| AtStats.        (* [fs.stat(entryPath)] for [entry.stats] *)

(** What a traversal lets the outside observe.  [EvYield] records, next
    to the entry, the clock at the yield and the directory whose frame
    yields it; [EvOpen] records the [visited] set at the moment
    [fs.opendir] succeeds; [EvFault] is a call of the file system that
    failed, with the error it raised. *)
Inductive Event : Type :=
| EvOpen (dirPath : string) (seen : gset string)
| EvYield (time : nat) (frame : string) (e : Entry)
| EvProgress (e : Entry)
| EvFault (site : Site) (target : string) (err : JsError).

(** How a piece of the generator's body ends. *)
Inductive Completion (A : Type) : Type :=
| Normal (a : A)
| Throw (e : JsError)
| OutOfFuel.
Arguments Normal {A} a.
Arguments Throw {A} e.
Arguments OutOfFuel {A}.

(** A piece of the body of the async generator. *)
Definition Gen (A : Type) : Type := World -> list Event * World * Completion A.

Definition ret {A} (a : A) : Gen A := fun w => ([], w, Normal a).

Definition bind {A B} (m : Gen A) (f : A -> Gen B) : Gen B :=
  fun w =>
    match m w with
    | (t1, w1, Normal a) =>
        match f a w1 with (t2, w2, c) => (t1 ++ t2, w2, c) end
    | (t1, w1, Throw e) => (t1, w1, Throw e)
    | (t1, w1, OutOfFuel) => (t1, w1, OutOfFuel)
    end.

Definition throw {A} (e : JsError) : Gen A := fun w => ([], w, Throw e).

Definition out_of_fuel {A} : Gen A := fun w => ([], w, OutOfFuel).

(** [try { m } catch (err) { h err }] *)
Definition try_catch {A} (m : Gen A) (h : JsError -> Gen A) : Gen A :=
  fun w =>
    match m w with
    | (t1, w1, Throw e) =>
        match h e w1 with (t2, w2, c) => (t1 ++ t2, w2, c) end
    | r => r
    end.

Definition tick : Gen unit :=
  fun w => ([], mkWorld (S (clock w)) (visited w), Normal tt).

(** [try { m } finally { await dirHandle.close() }], the error of
    [close] being ignored. *)
Definition finally_close {A} (m : Gen A) : Gen A :=
  fun w =>
    match m w with
    | (t, w1, c) => (t, mkWorld (S (clock w1)) (visited w1), c)
    end.

Declare Scope gen_scope.
Delimit Scope gen_scope with gen.
Notation "x <- m ;; k" := (bind m (fun x => k))
  (at level 100, m at next level, right associativity) : gen_scope.
Notation "m ;;; k" := (bind m (fun _ => k))
  (at level 100, right associativity) : gen_scope.
Local Open Scope gen_scope.

(** A rejected promise of the file system. *)
Definition reject {A} (site : Site) (target : string) (e : JsError) : Gen A :=
  fun w => ([EvFault site target e], w, Throw e).

(** [await p] for a promise of the host that settles with [r]. *)
Definition await {A} (site : Site) (target : string) (r : Result JsError A) : Gen A :=
  tick ;;; match r with Ok a => ret a | Err e => reject site target e end.

Definition visited_has (p : string) : Gen bool :=
  fun w => ([], w, Normal (bool_decide (p ∈ visited w))).

Definition visited_add (p : string) : Gen unit :=
  fun w => ([], mkWorld (clock w) ({[p]} ∪ visited w), Normal tt).

Definition opened (dirPath : string) : Gen unit :=
  fun w => ([EvOpen dirPath (visited w)], w, Normal tt).

(** [yield entry]: the consumer runs until it pulls again. *)
Definition yield_ (frame : string) (e : Entry) : Gen unit :=
  fun w => ([EvYield (clock w) frame e], mkWorld (S (clock w)) (visited w), Normal tt).

(** [options.onProgress(entry)] *)
Definition progress (e : Entry) : Gen unit :=
  fun w => ([EvProgress e], mkWorld (S (clock w)) (visited w), Normal tt).

Section Engine.

Variable host : Host.
Variable options : WalkerOptions.

(** [options.signal?.aborted] *)
Definition signal_aborted : Gen bool :=
  fun w =>
    ([], w,
     Normal (match signal options with
             | Some sig => aborted sig (clock w)
             | None => false
             end)).

(** [currentDepth > options.maxDepth] *)
Definition depth_exceeds (currentDepth : nat) : bool :=
  match maxDepth options with
  | NFinite q => negb (Qle_bool (inject_Z (Z.of_nat currentDepth)) q)
  | NPosInf => false
  | NNegInf => true
  | NNaN => false
  end.

(** [applyFilters(name, options)] *)
Definition applyFilters (name : string) : bool :=
  if truthy (exclude options) && match_ name (exclude options) then false
  else if truthy (include options) && negb (match_ name (include options)) then false
  else true.

(** [sortEntries(entries, sortType)] *)
Definition sortEntries (entries : list Dirent) (sortType : SortType) : list Dirent :=
  match sortType with
  | SortFn f => array_sort (as_comparator f) entries
  | SortAsc => array_sort (fun a b => localeCompare host (name a) (name b)) entries
  | SortDesc => array_sort (fun a b => localeCompare host (name b) (name a)) entries
  end.

(** Step 3 of [walk]: the symlink cycle protection.  [true] when the
    frame goes on, [false] when it returns. *)
Definition registerIdentity (dirPath : string) : Gen bool :=
  if followSymlinks options then
    try_catch
      (realPath <- await AtRealpath dirPath (realpath host dirPath) ;;
       seen <- visited_has realPath ;;
       if seen then ret false
       else (visited_add realPath ;;; ret true))
      (fun err =>
         seen <- visited_has dirPath ;;
         if seen then ret false
         else (visited_add dirPath ;;;
               if negb (suppressErrors options) then throw err else ret true))
  else ret true.

(** [dirHandle = await fs.opendir(dirPath)] with its [catch];
    [None] when the frame returns. *)
Definition openDirectory (dirPath : string) : Gen (option Dir) :=
  try_catch
    (dirHandle <- await AtOpendir dirPath (opendir host dirPath) ;;
     opened dirPath ;;;
     ret (Some dirHandle))
    (fun err => if negb (suppressErrors options) then throw err else ret None).

(** The loop that fills [entries] when a sort is requested. *)
Fixpoint collect (dirPath : string) (ds : list Dirent) (flt : option JsError)
    (acc : list Dirent) : Gen (list Dirent) :=
  match ds with
  | [] => tick ;;; match flt with Some e => reject AtRead dirPath e | None => ret acc end
  | d :: ds' =>
      tick ;;;
      ab <- signal_aborted ;;
      if ab then ret acc else collect dirPath ds' flt (acc ++ [d])
  end.

(** [for await (const dirent of entries) { if (aborted) break; body }] *)
Fixpoint forAwait (dirPath : string) (ds : list Dirent) (flt : option JsError)
    (body : Dirent -> Gen unit) : Gen unit :=
  match ds with
  | [] => tick ;;; match flt with Some e => reject AtRead dirPath e | None => ret tt end
  | d :: ds' =>
      tick ;;;
      ab <- signal_aborted ;;
      if ab then ret tt else (body d ;;; forAwait dirPath ds' flt body)
  end.

(** Building the entry, the optional [fs.stat], [yield entry] and
    the progress callback. *)
Definition yieldEntry (dirPath entryPath : string) (d : Dirent) (currentDepth : nat)
  : Gen unit :=
  st <- (if withStats options then
           try_catch
             (s <- await AtStats entryPath (stat host entryPath) ;; ret (Some s))
             (fun e => if negb (suppressErrors options) then throw e else ret None)
         else ret None) ;;
  let entry := mkEntry entryPath d currentDepth st in
  yield_ dirPath entry ;;;
  match onProgress options with
  | Some _ => progress entry
  | None => ret tt
  end.

(** [isDirectory], after the symlink has been looked through. *)
Definition classify (entryPath : string) (d : Dirent) : Gen bool :=
  if isSymbolicLink d && followSymlinks options then
    try_catch
      (s <- await AtLinkStat entryPath (stat host entryPath) ;; ret (st_isDirectory s))
      (fun _ => ret false)
  else ret (isDirectory d).

(** The body of the loop over the entries of one directory; [recurse]
    is [yield* walk(entryPath, options, currentDepth + 1, visited)].
    The caller's predicates run inside [applyFilters]: the clock ticks
    there too. *)
Definition processEntry (recurse : string -> nat -> Gen unit)
    (dirPath : string) (currentDepth : nat) (d : Dirent) : Gen unit :=
  let entryPath := joinPath host dirPath (name d) in
  isDir <- classify entryPath d ;;
  isIncluded <- (tick ;;; ret (applyFilters (name d))) ;;
  if isDir then
    ((if yieldDirectories options && isIncluded
      then yieldEntry dirPath entryPath d currentDepth
      else ret tt) ;;;
     recurse entryPath (S currentDepth))
  else
    if isIncluded then yieldEntry dirPath entryPath d currentDepth else ret tt.

(** The second [try] block of [walk]. *)
Definition scan (recurse : string -> nat -> Gen unit)
    (dirPath : string) (currentDepth : nat) (dirHandle : Dir) : Gen unit :=
  finally_close
    (try_catch
       (match sort options with
        | Some sortType =>
            es <- collect dirPath (entries dirHandle) (fault dirHandle) [] ;;
            forAwait dirPath (sortEntries es sortType) None
              (processEntry recurse dirPath currentDepth)
        | None =>
            forAwait dirPath (entries dirHandle) (fault dirHandle)
              (processEntry recurse dirPath currentDepth)
        end)
       (fun err => if negb (suppressErrors options) then throw err else ret tt)).

(** One activation of [walk]. *)
Definition frame (recurse : string -> nat -> Gen unit)
    (dirPath : string) (currentDepth : nat) : Gen unit :=
  ab <- signal_aborted ;;
  if ab then ret tt
  else if depth_exceeds currentDepth then ret tt
  else
    go <- registerIdentity dirPath ;;
    if negb go then ret tt
    else
      h <- openDirectory dirPath ;;
      match h with
      | None => ret tt
      | Some dirHandle => scan recurse dirPath currentDepth dirHandle
      end.

(** [walk(dirPath, options, currentDepth, visited)]; [fuel] bounds
    the nesting of activations. *)
Fixpoint walk (fuel : nat) (dirPath : string) (currentDepth : nat) : Gen unit :=
  match fuel with
  | O => out_of_fuel
  | S fuel' => frame (walk fuel') dirPath currentDepth
  end.

End Engine.

(** *** Reading a run *)

Definition trace {A} (r : list Event * World * Completion A) : list Event := r.1.1.
Definition final {A} (r : list Event * World * Completion A) : World := r.1.2.
Definition completion {A} (r : list Event * World * Completion A) : Completion A := r.2.

(** The yielded sequence. *)
Definition yielded (t : list Event) : list Entry :=
  omap (fun ev => match ev with EvYield _ _ e => Some e | _ => None end) t.

(** [streamWalker(dirPath, options)] of src/index.js, run to the end. *)
Definition streamWalker (host : Host) (fuel : nat) (dirPath : string)
    (opts : WalkerOptionsInput) : Result JsError (list Event * World * Completion unit) :=
  match sanitizeOptions opts with
  | Err e => Err e
  | Ok finalOptions => Ok (walk host (typed finalOptions) fuel dirPath 0 start)
  end.

End Core.

Import Core.
Local Open Scope gen_scope.

(* ===================================================================== *)
(** ** Reading runs: the vocabulary of the statements *)
(* ===================================================================== *)

Module Spec.

(** [wp m w Q]: the run of [m] from world [w] ends with a trace, a
    world and a completion that satisfy [Q]. *)
Definition wp {A} (m : Gen A) (w : World)
    (Q : list Event -> World -> Completion A -> Prop) : Prop :=
  match m w with (t, w', c) => Q t w' c end.

Definition thrown {A} (c : Completion A) : option JsError :=
  match c with Throw e => Some e | _ => None end.

Definition exhausted {A} (c : Completion A) : bool :=
  match c with OutOfFuel => true | _ => false end.

(** The yielded entries, each with the directory whose frame yields it. *)
Definition yields_of (t : list Event) : list (string * Entry) :=
  omap (fun ev => match ev with EvYield _ f e => Some (f, e) | _ => None end) t.

(** The clock readings at which the entries are yielded. *)
Definition stamps (t : list Event) : list nat :=
  omap (fun ev => match ev with EvYield time _ _ => Some time | _ => None end) t.

(** The directories opened, in order. *)
Definition opens (t : list Event) : list string :=
  omap (fun ev => match ev with EvOpen p _ => Some p | _ => None end) t.

(** *** Faults *)

(** The call of the host that a fault event stands for did fail so. *)
Definition host_fault (host : Host) (site : Site) (p : string) (e : JsError) : Prop :=
  match site with
  | AtRealpath => realpath host p = Err e
  | AtOpendir => opendir host p = Err e
  | AtRead => exists dir, opendir host p = Ok dir /\ fault dir = Some e
  | AtLinkStat | AtStats => stat host p = Err e
  end.

Definition genuine (host : Host) (ev : Event) : Prop :=
  match ev with
  | EvFault site p e => host_fault host site p e
  | _ => True
  end.

(** A fault other than the one of the [stat] that looks through a
    symlink, which [walk] reads as "broken link" under every policy. *)
Definition surfacing (ev : Event) : Prop :=
  match ev with
  | EvFault site _ _ => site <> AtLinkStat
  | _ => False
  end.

Definition quiet (t : list Event) : Prop := Forall (fun ev => ~ surfacing ev) t.

(** Either nothing surfaced, or the run threw the error of the first
    surfacing fault, which is the last thing it did. *)
Definition halts_at_fault (t : list Event) (o : option JsError) : Prop :=
  match o with
  | Some e => exists t0 site p,
       t = t0 ++ [EvFault site p e] /\ site <> AtLinkStat /\ quiet t0
  | None => quiet t
  end.

(** Every registered identity is a fixed point of [realpath]. *)
Definition canonical (host : Host) (w : World) : Prop :=
  forall v, v ∈ visited w -> realpath host v = Ok v.

(** *** Identities *)

(** The identity under which [walk] registers a directory: its real
    path, or the literal path when [realpath] fails. *)
Definition identity (host : Host) (p : string) : string :=
  match realpath host p with
  | Ok realPath => realPath
  | Err _ => p
  end.

(** The paths [walk] can be called on: the root, and a path joined
    from an openable reachable directory and one of its entries. *)
Inductive reachable (host : Host) (root : string) : string -> Prop :=
| reach_root : reachable host root root
| reach_child p dir d :
    reachable host root p ->
    opendir host p = Ok dir ->
    d ∈ entries dir ->
    reachable host root (joinPath host p (name d)).

(** Identities of the directories opened, and (identity of the
    directory, name) of the entries yielded. *)
Definition opened_ids (host : Host) (t : list Event) : list string :=
  identity host <$> opens t.

Definition yield_keys (host : Host) (t : list Event) : list (string * string) :=
  (fun y => (identity host y.1, name (dirent y.2))) <$> yields_of t.

(** *** Pre-order *)

(** What the frame of [p] at depth [d] may yield for one entry. *)
Definition own_entry (host : Host) (p : string) (d : nat) (x : Dirent)
    (own : list (string * Entry)) : Prop :=
  own = [] \/ exists st, own = [(p, mkEntry (joinPath host p (name x)) x d st)].

(** The yields of the loop of a frame over the entries [ds]: for each
    entry in turn, its own entry if any, then all that the walk of it
    yields ([sub]), then the later siblings.  The loop may stop early. *)
Inductive Blocks (host : Host) (sub : string -> nat -> list (string * Entry) -> Prop)
    (p : string) (d : nat) : list Dirent -> list (string * Entry) -> Prop :=
| Blocks_stop ds : Blocks host sub p d ds []
| Blocks_step x ds own below rest :
    own_entry host p d x own ->
    sub (joinPath host p (name x)) (S d) below ->
    Blocks host sub p d ds rest ->
    Blocks host sub p d (x :: ds) (own ++ below ++ rest).

(** The order in which a frame goes through the listing of its
    directory: as delivered, or a sorted initial part of it. *)
Definition processing_order (host : Host) (dir : Dir) (ds : list Dirent) : Prop :=
  ds = entries dir \/
  exists k sortType, ds = sortEntries host (take k (entries dir)) sortType.

(** Pre-order depth-first sequences of the walk of [p] at depth [d]. *)
#[warnings="-register-all"]
Inductive PreOrder (host : Host) : string -> nat -> list (string * Entry) -> Prop :=
| PreOrder_skip p d : PreOrder host p d []
| PreOrder_scan p d dir ds ys :
    opendir host p = Ok dir ->
    processing_order host dir ds ->
    Blocks host (PreOrder host) p d ds ys ->
    PreOrder host p d ys.

(** The same, with the nesting bounded. *)
Fixpoint PreOrderN (host : Host) (n : nat) (p : string) (d : nat)
    (ys : list (string * Entry)) : Prop :=
  match n with
  | O => ys = []
  | S n' =>
      ys = [] \/
      exists dir ds,
        opendir host p = Ok dir /\ processing_order host dir ds /\
        Blocks host (PreOrderN host n') p d ds ys
  end.

(** An entry lies [length names] levels beneath [p]: its path is [p]
    joined with the names in turn, the last of which is its own, and
    its depth counts the levels from [k] at the first. *)
Definition beneath (host : Host) (p : string) (k : nat) (e : Entry) : Prop :=
  exists names,
    names <> [] /\
    path e = foldl (joinPath host) p names /\
    (k + length names = S (depth e))%nat /\
    last names = Some (name (dirent e)).

(** *** What a frame yields for an entry, when nothing goes wrong *)

Definition stats_for (host : Host) (options : WalkerOptions) (entryPath : string)
    : option Stats :=
  if withStats options then
    match stat host entryPath with Ok s => Some s | Err _ => None end
  else None.

Definition entry_of (host : Host) (options : WalkerOptions) (dirPath : string) (k : nat)
    (x : Dirent) : Entry :=
  let entryPath := joinPath host dirPath (name x) in
  mkEntry entryPath x k (stats_for host options entryPath).

(** The entries a frame yields itself when symlinks are not followed. *)
Definition selected (options : WalkerOptions) (x : Dirent) : bool :=
  applyFilters options (name x) && (negb (isDirectory x) || yieldDirectories options).

(** *** Cancellation *)

Definition cancelled (options : WalkerOptions) (now : nat) : bool :=
  match signal options with
  | Some sig => aborted sig now
  | None => false
  end.

(** The yields made when the token was already set, and before. *)
Definition late (options : WalkerOptions) (t : list Event) : list nat :=
  filter (fun time => cancelled options time = true) (stamps t).

Definition timely (options : WalkerOptions) (t : list Event) : list nat :=
  filter (fun time => cancelled options time = false) (stamps t).

(** The run takes the clock from [clock w] to [clock w'], stamps its
    yields in between, and makes at most one of them late. *)
Definition fair (options : WalkerOptions) (w : World) (t : list Event) (w' : World) : Prop :=
  clock w <= clock w' /\
  Forall (fun time => clock w <= time < clock w') (stamps t) /\
  length (late options t) <= 1.

(** A fair run that yields nothing when it starts with the token set. *)
Definition polled (options : WalkerOptions) (w : World) (t : list Event) (w' : World)
    : Prop :=
  fair options w t w' /\ (cancelled options (clock w) = true -> stamps t = []).

(** A run that yields nothing. *)
Definition silent (w : World) (t : list Event) (w' : World) : Prop :=
  clock w <= clock w' /\ stamps t = [].

(** Every run of [m] is related to its start as [J] says. *)
Definition holds (J : World -> list Event -> World -> Prop) {A} (m : Gen A) : Prop :=
  forall w, wp m w (fun t w' _ => J w t w').

(** The same options, with no filter. *)
Definition without_filters (o : WalkerOptions) : WalkerOptions :=
  mkOptions (maxDepth o) VNull VNull (yieldDirectories o) (followSymlinks o)
    (suppressErrors o) (signal o) (sort o) (onProgress o) (withStats o).

(** The filters let the entry through: a question about its name. *)
Definition passes (options : WalkerOptions) (e : Entry) : Prop :=
  applyFilters options (name (dirent e)) = true.

Global Instance passes_dec options e : Decision (passes options e).
Proof. unfold passes. apply _. Defined.

(** Two completions of the same kind, with related values. *)
Definition same_completion {A B} (R : A -> B -> Prop)
    (c : Completion A) (c0 : Completion B) : Prop :=
  match c, c0 with
  | Normal a, Normal b => R a b
  | Throw e, Throw e0 => e = e0
  | OutOfFuel, OutOfFuel => True
  | _, _ => False
  end.

(** The run [r] under [options] shows what the run [r0] without
    filters shows, less the entries the filters hide. *)
Definition hides (options : WalkerOptions) {A B} (R : A -> B -> Prop)
    (r : list Event * World * Completion A) (r0 : list Event * World * Completion B) : Prop :=
  yielded (trace r) = filter (passes options) (yielded (trace r0)) /\
  opens (trace r) = opens (trace r0) /\
  visited (final r) = visited (final r0) /\
  same_completion R (completion r) (completion r0).

Definition simulates (options : WalkerOptions) {A B} (R : A -> B -> Prop)
    (m : Gen A) (m0 : Gen B) : Prop :=
  forall w w0, visited w = visited w0 -> hides options R (m w) (m0 w0).


(** The directory was registered when [fs.opendir] opened it. *)
Definition registered_when_opened (host : Host) (ev : Event) : Prop :=
  match ev with
  | EvOpen p seen => identity host p ∈ seen
  | _ => True
  end.

(** Things whose identity is registered between [w] and [w'], none twice. *)
Definition fresh {A} (f : A -> string) (w w' : World) (l : list A) : Prop :=
  Forall (fun a => (f a ∉ visited w) /\ (f a ∈ visited w')) l /\ NoDup l.

(** A run that opens, yields and registers nothing. *)
Definition inert (w : World) (t : list Event) (w' : World) : Prop :=
  visited w' = visited w /\ opens t = [] /\ yields_of t = [].

(** A run of [walk]: it only adds to [visited]; the directories it
    opens and the directories whose entries it yields are registered
    during the run, each directory opened once and each entry yielded
    once; and a directory is registered when it is opened. *)
Definition walked (host : Host) (w : World) (t : list Event) (w' : World) : Prop :=
  visited w ⊆ visited w' /\
  fresh id w w' (opened_ids host t) /\
  fresh fst w w' (yield_keys host t) /\
  Forall (registered_when_opened host) t.

(** A run of the loop of the frame of [p], registered and with
    distinct names in its listing, over the entries [ds]. *)
Definition looped_over (host : Host) (p : string) (ds : list Dirent)
    (w : World) (t : list Event) (w' : World) : Prop :=
  identity host p ∈ visited w -> NoDup (name <$> ds) ->
  visited w ⊆ visited w' /\
  fresh id w w' (opened_ids host t) /\
  Forall (registered_when_opened host) t /\
  Forall (fun k => (k.1 = identity host p /\ k.2 ∈ name <$> ds) \/
                   ((k.1 ∉ visited w) /\ (k.1 ∈ visited w'))) (yield_keys host t) /\
  NoDup (yield_keys host t).


(** What the frame of [p] does to yield the entry [x]: it yields [x]
    or nothing, and opens and registers nothing. *)
Definition keyed (host : Host) (p : string) (x : Dirent)
    (w : World) (t : list Event) (w' : World) : Prop :=
  visited w' = visited w /\ opens t = [] /\
  (yield_keys host t = [] \/ yield_keys host t = [(identity host p, name x)]).

(** A run of the body of the loop of the frame of [p] for the entry [x]. *)
Definition entered (host : Host) (p : string) (x : Dirent)
    (w : World) (t : list Event) (w' : World) : Prop :=
  visited w ⊆ visited w' /\
  fresh id w w' (opened_ids host t) /\
  Forall (registered_when_opened host) t /\
  exists own below,
    yield_keys host t = own ++ below /\
    (own = [] \/ own = [(identity host p, name x)]) /\
    fresh fst w w' below.


(** *** Termination and completeness of a walk that follows symlinks *)

(** The run returns (it does not run out of fuel), having only added
    to [visited]. *)
Definition returns {A} (w w' : World) (c : Completion A) : Prop :=
  exhausted c = false /\ visited w ⊆ visited w'.

(** The same, with [visited] left as it was. *)
Definition returns_unchanged {A} (w w' : World) (c : Completion A) : Prop :=
  exhausted c = false /\ visited w' = visited w.

(** Whether the frame of [p] takes its entry [x] for a directory when
    symlinks are followed. *)
Definition is_directory_here (host : Host) (p : string) (x : Dirent) : bool :=
  if isSymbolicLink x then
    match stat host (joinPath host p (name x)) with
    | Ok s => st_isDirectory s
    | Err _ => false
    end
  else isDirectory x.

(** The entry [x] of [p] has been dealt with: a directory is
    registered, anything else has been yielded. *)
Definition covered (host : Host) (t : list Event) (w' : World)
    (p : string) (x : Dirent) : Prop :=
  if is_directory_here host p x
  then identity host (joinPath host p (name x)) ∈ visited w'
  else (identity host p, name x) ∈ yield_keys host t.

(** Every entry of every directory opened has been dealt with. *)
Definition complete (host : Host) (t : list Event) (w' : World) : Prop :=
  forall p dir x, p ∈ opens t -> opendir host p = Ok dir -> x ∈ entries dir ->
    covered host t w' p x.

End Spec.

Import Spec.

(* ===================================================================== *)
(** ** Concrete file systems and option objects *)
(* ===================================================================== *)

Module Scenarios.

Definition posix_join (p n : string) : string := p +:+ "/" +:+ n.

Definition ordinal_compare (a b : string) : Z :=
  match String.compare a b with
  | Lt => (-1)%Z
  | Eq => 0%Z
  | Gt => 1%Z
  end.

Definition system_error (code message p : string) : JsError :=
  mkError ClsError message (Some code) (Some p).
Definition ENOENT (p : string) : JsError :=
  system_error "ENOENT" "no such file or directory" p.
Definition EACCES (p : string) : JsError :=
  system_error "EACCES" "permission denied" p.

Definition file (n : string) : Dirent := mkDirent n DtFile.
Definition folder (n : string) : Dirent := mkDirent n DtDirectory.
Definition symlink (n : string) : Dirent := mkDirent n DtSymlink.

(** root/alpha.txt, root/sub/gamma.txt, root/beta.txt, and a
    directory root/locked that cannot be read; nothing else exists. *)
Definition sample : Host := {|
  realpath p := Ok p;
  opendir p :=
    if String.eqb p "root" then
      Ok (mkDir [file "alpha.txt"; folder "sub"; folder "locked"; file "beta.txt"] None)
    else if String.eqb p "root/sub" then Ok (mkDir [file "gamma.txt"] None)
    else if String.eqb p "root/locked" then Err (EACCES p)
    else Err (ENOENT p);
  stat p := Ok (mkStats false 7);
  joinPath := posix_join;
  localeCompare := ordinal_compare
|}.

(** A/file.txt and the symlink A/link -> A. *)
Definition looped : Host := {|
  realpath p := if includes p "file.txt" then Ok "A/file.txt" else Ok "A";
  opendir p :=
    if includes p "file.txt" then Err (system_error "ENOTDIR" "not a directory" p)
    else Ok (mkDir [file "file.txt"; symlink "link"] None);
  stat p := if includes p "file.txt" then Ok (mkStats false 7) else Ok (mkStats true 0);
  joinPath := posix_join;
  localeCompare := ordinal_compare
|}.

(** The options of a caller who passes nothing. *)
Definition defaults : WalkerOptions := typed DEFAULT_OPTIONS.

Definition with_maxDepth (n : Number) (o : WalkerOptions) : WalkerOptions :=
  mkOptions n (include o) (exclude o) (yieldDirectories o) (followSymlinks o)
    (suppressErrors o) (signal o) (sort o) (onProgress o) (withStats o).
Definition with_filters (inc exc : Value) (o : WalkerOptions) : WalkerOptions :=
  mkOptions (maxDepth o) inc exc (yieldDirectories o) (followSymlinks o)
    (suppressErrors o) (signal o) (sort o) (onProgress o) (withStats o).
Definition with_yieldDirectories (b : bool) (o : WalkerOptions) : WalkerOptions :=
  mkOptions (maxDepth o) (include o) (exclude o) b (followSymlinks o)
    (suppressErrors o) (signal o) (sort o) (onProgress o) (withStats o).
Definition with_followSymlinks (b : bool) (o : WalkerOptions) : WalkerOptions :=
  mkOptions (maxDepth o) (include o) (exclude o) (yieldDirectories o) b
    (suppressErrors o) (signal o) (sort o) (onProgress o) (withStats o).
Definition with_suppressErrors (b : bool) (o : WalkerOptions) : WalkerOptions :=
  mkOptions (maxDepth o) (include o) (exclude o) (yieldDirectories o) (followSymlinks o)
    b (signal o) (sort o) (onProgress o) (withStats o).
Definition with_signal (s : option AbortSignal) (o : WalkerOptions) : WalkerOptions :=
  mkOptions (maxDepth o) (include o) (exclude o) (yieldDirectories o) (followSymlinks o)
    (suppressErrors o) s (sort o) (onProgress o) (withStats o).

(** [{ maxDepth: 1.5 }] and [{ include: "" }] *)
Definition fractional_depth : WalkerOptionsInput :=
  mkInput (Some (VNumber (NFinite (3 # 2)))) None None None None None None None None None.
Definition empty_include : WalkerOptionsInput :=
  mkInput None (Some (VString "")) None None None None None None None None.

(** The pairs (key of the caller's object, key of the merged object). *)
Definition fields : list ((WalkerOptionsInput -> option Value) * (OptionsObject -> Value)) :=
  [ (in_maxDepth, o_maxDepth); (in_include, o_include); (in_exclude, o_exclude);
    (in_yieldDirectories, o_yieldDirectories); (in_followSymlinks, o_followSymlinks);
    (in_suppressErrors, o_suppressErrors); (in_signal, o_signal); (in_sort, o_sort);
    (in_onProgress, o_onProgress); (in_withStats, o_withStats) ].

End Scenarios.

Import Scenarios.

(* ===================================================================== *)
(** ** The glob matcher (the part of src/utils.js after [match]) *)
(* ===================================================================== *)

(** The methods of [String.prototype] and [Array.prototype] the glob
    matcher calls.  A string is the sequence of its code units. *)
Module JsString.

(** [s[i] === c] *)
Definition char_is (s : string) (i : nat) (c : ascii) : bool :=
  match String.get i s with
  | Some a => Ascii.eqb a c
  | None => false
  end.

(** [s.indexOf(c, from)], [None] for -1 *)
Fixpoint indexOf (c : ascii) (s : string) (from : nat) : option nat :=
  match s with
  | EmptyString => None
  | String a s' =>
      match from with
      | O => if Ascii.eqb a c then Some O else S <$> indexOf c s' O
      | S from' => S <$> indexOf c s' from'
      end
  end.

(** [s.substring(from, to)], for [from <= to] *)
Fixpoint substring (from to : nat) (s : string) : string :=
  match s with
  | EmptyString => EmptyString
  | String a s' =>
      match from, to with
      | _, O => EmptyString
      | O, S to' => String a (substring O to' s')
      | S from', S to' => substring from' to' s'
      end
  end.

(** [s.slice(1)] *)
Definition slice1 (s : string) : string :=
  match s with
  | EmptyString => EmptyString
  | String _ s' => s'
  end.

(** [s.split(c)] *)
Fixpoint split (c : ascii) (s : string) : list string :=
  match s with
  | EmptyString => [EmptyString]
  | String a s' =>
      if Ascii.eqb a c then EmptyString :: split c s'
      else match split c s' with
           | piece :: pieces => String a piece :: pieces
           | [] => [String a EmptyString]
           end
  end.

(** [parts.join(sep)] *)
Fixpoint join (sep : string) (parts : list string) : string :=
  match parts with
  | [] => EmptyString
  | [part] => part
  | part :: parts' => part +:+ sep +:+ join sep parts'
  end.

(** [parts.pop()] of a non-empty array; [undefined] never arises on
    the result of [split]. *)
Definition pop (parts : list string) : string := default EmptyString (last parts).

(** [s.replace(/c/g, by)] for a single character [c] *)
Fixpoint replaceAll (c by_ : ascii) (s : string) : string :=
  match s with
  | EmptyString => EmptyString
  | String a s' => String (if Ascii.eqb a c then by_ else a) (replaceAll c by_ s')
  end.

(** [s.startsWith(c)] *)
Definition startsWith (s : string) (c : ascii) : bool := char_is s 0 c.

(** [/[set]/.test(s)]: some character of [s] is in [set]. *)
Fixpoint has_any (set : list ascii) (s : string) : bool :=
  match s with
  | EmptyString => false
  | String a s' => existsb (Ascii.eqb a) set || has_any set s'
  end.

(** [s.replace(/[set]/g, '\\$&')]: a backslash before every character
    of [s] that is in [set]. *)
Fixpoint escape (set : list ascii) (s : string) : string :=
  match s with
  | EmptyString => EmptyString
  | String a s' =>
      if existsb (Ascii.eqb a) set then String "\" (String a (escape set s'))
      else String a (escape set s')
  end.

End JsString.

Module Glob.
Import JsString.

(** The characters of the class [[.*+?^${}()|[\]\\]] *)
Definition regex_specials : list ascii :=
  ["."; "*"; "+"; "?"; "^"; "$"; "{"; "}"; "("; ")"; "|"; "["; "]"; "\"]%char.

(** The characters of the [case] labels that share the "escape" arm. *)
Definition escaped_cases : list ascii :=
  ["/"; "."; "+"; "^"; "$"; "("; ")"; "|"; "\"]%char.

(** The [while] loop of [globToRegex]; every turn moves [i] forward, so
    [pattern.length] turns are enough. *)
Fixpoint globToRegex_loop (turns : nat) (pattern : string) (i : nat) (regexStr : string)
    : string :=
  match turns with
  | O => regexStr
  | S turns' =>
      match String.get i pattern with
      | None => regexStr
      | Some char =>
          if Ascii.eqb char "*" then
            if char_is pattern (i + 1) "*" then
              if char_is pattern (i + 2) "/" then
                globToRegex_loop turns' pattern (i + 3) (regexStr +:+ "(?:.*\/)?")
              else
                globToRegex_loop turns' pattern (i + 2) (regexStr +:+ ".*")
            else
              globToRegex_loop turns' pattern (i + 1) (regexStr +:+ "[^/]*")
          else if Ascii.eqb char "?" then
            globToRegex_loop turns' pattern (i + 1) (regexStr +:+ "[^/]")
          else if Ascii.eqb char "[" then
            match indexOf "]" pattern i with
            | None => globToRegex_loop turns' pattern (i + 1) (regexStr +:+ "\[")
            | Some closeIdx =>
                let charClass := substring (i + 1) closeIdx pattern in
                let charClass :=
                  if char_is charClass 0 "!" then "^" +:+ slice1 charClass
                  else charClass in
                globToRegex_loop turns' pattern (closeIdx + 1)
                  (regexStr +:+ "[" +:+ charClass +:+ "]")
            end
          else if Ascii.eqb char "{" then
            match indexOf "}" pattern i with
            | None => globToRegex_loop turns' pattern (i + 1) (regexStr +:+ "\{")
            | Some closeBrace =>
                let options := split "," (substring (i + 1) closeBrace pattern) in
                globToRegex_loop turns' pattern (closeBrace + 1)
                  (regexStr +:+ "(?:" +:+ join "|" (escape regex_specials <$> options)
                     +:+ ")")
            end
          else if existsb (Ascii.eqb char) escaped_cases then
            globToRegex_loop turns' pattern (i + 1) (regexStr +:+ "\" +:+ String char "")
          else
            globToRegex_loop turns' pattern (i + 1) (regexStr +:+ String char "")
      end
  end.

(** The string handed to [new RegExp] by [globToRegex(pattern)]. *)
Definition regexStr (pattern : string) : string :=
  globToRegex_loop (String.length pattern) pattern 0 "^" +:+ "$".

(** A compiled [RegExp]: whether it matches a string, with the flag [i]
    ([true]) and without.  [new RegExp(regex.source, flags)] in
    [matchGlob] is the expression [regex] itself, with the flag. *)
Definition RegExp : Type := bool -> string -> bool.

Section Matcher.

(** [new RegExp(source)] of the engine: the compiled expression, or the
    [SyntaxError] it throws. *)
Variable new_RegExp : string -> Result JsError RegExp.

(** [globToRegex(pattern)] *)
Definition globToRegex (pattern : string) : Result JsError RegExp :=
  new_RegExp (regexStr pattern).

(** The options of [matchGlob], each by its truthiness ([false] when
    the key is absent). *)
Record GlobOptions : Type := mkGlobOptions { dot : bool; nocase : bool; matchBase : bool }.

(** The argument [patterns]: a string or an array of strings. *)
Inductive Patterns : Type :=
| OnePattern (pattern : string)
| ManyPatterns (patterns : list string).

Definition patternArray (patterns : Patterns) : list string :=
  match patterns with
  | OnePattern pattern => [pattern]
  | ManyPatterns patterns => patterns
  end.

(** [filePath.replace(/\\/g, '/')] *)
Definition normalize (s : string) : string := replaceAll "\" "/" s.

Definition basename_of (normalizedPath : string) : string := pop (split "/" normalizedPath).

(** [basename && basename.startsWith('.')], as a condition *)
Definition isDotfile (basename : string) : bool :=
  negb (String.eqb basename "") && startsWith basename ".".

(** What one pattern is tested against. *)
Definition testPath (options : GlobOptions) (normalizedPath basename normalizedPattern : string)
    : string :=
  let hasWildcard := has_any ["*"; "?"; "["; "]"; "{"]%char normalizedPattern in
  if matchBase options then basename
  else if negb (includes normalizedPattern "/") && includes normalizedPath "/" && hasWildcard
       then basename
       else normalizedPath.

(** The [for] loop of [matchGlob]. *)
Fixpoint matchGlob_loop (options : GlobOptions) (normalizedPath basename : string)
    (patterns : list string) : Result JsError bool :=
  match patterns with
  | [] => Ok false
  | pattern :: patterns' =>
      let normalizedPattern := normalize pattern in
      match globToRegex normalizedPattern with
      | Err e => Err e
      | Ok regex =>
          if regex (nocase options)
               (testPath options normalizedPath basename normalizedPattern)
          then Ok true
          else matchGlob_loop options normalizedPath basename patterns'
      end
  end.

(** [matchGlob(filePath, patterns, options)] *)
Definition matchGlob (filePath : string) (patterns : Patterns) (options : GlobOptions)
    : Result JsError bool :=
  let normalizedPath := normalize filePath in
  let basename := basename_of normalizedPath in
  if negb (dot options) && isDotfile basename then Ok false
  else matchGlob_loop options normalizedPath basename (patternArray patterns).

(** [include] and [exclude] of [createGlobFilter]: [None] for [null]
    and [undefined]. *)
Definition given_patterns (patterns : option Patterns) : bool :=
  match patterns with
  | None => false
  | Some (OnePattern pattern) => negb (String.eqb pattern "")
  | Some (ManyPatterns _) => true
  end.

(** [createGlobFilter(include, exclude, options)(filePath)] *)
Definition createGlobFilter (include exclude : option Patterns) (options : GlobOptions)
    (filePath : string) : Result JsError bool :=
  let included :=
    match include with
    | Some patterns =>
        if given_patterns include then matchGlob filePath patterns options else Ok true
    | None => Ok true
    end in
  match exclude with
  | Some patterns =>
      if given_patterns exclude then
        match matchGlob filePath patterns options with
        | Err e => Err e
        | Ok true => Ok false
        | Ok false => included
        end
      else included
  | None => included
  end.

End Matcher.

(** [patterns] *)
Definition patterns_javascript : list string := ["**/*.js"; "**/*.mjs"; "**/*.cjs"].
Definition patterns_dotfiles : string := "**/.*".

End Glob.

(* ===================================================================== *)
(** ** src/helpers.js *)
(* ===================================================================== *)

Module Helpers.

(** [path.basename] and [path.extname] of node:path. *)
Record NodePath : Type := mkNodePath {
  basename : string -> string;
  extname : string -> string
}.

(** [for await (const entry of walker(dirPath, options)) body]: the
    body runs on each entry yielded, in order, with the state [S] of
    the variables it updates; an error thrown by [walker] (the options
    are sanitized in the call), by the body or by the generator ends
    the helper. *)
Fixpoint each {S} (body : S -> Entry -> Result JsError S) (s : S) (es : list Entry)
    : Result JsError S :=
  match es with
  | [] => Ok s
  | e :: es' =>
      match body s e with
      | Err err => Err err
      | Ok s' => each body s' es'
      end
  end.

Definition for_await {S} (walker : Result JsError (list Event * World * Completion unit))
    (body : S -> Entry -> Result JsError S) (init : S) : Completion S :=
  match walker with
  | Err err => Throw err
  | Ok r =>
      match each body init (yielded (trace r)) with
      | Err err => Throw err
      | Ok s =>
          match completion r with
          | Normal _ => Normal s
          | Throw err => Throw err
          | OutOfFuel => OutOfFuel
          end
      end
  end.

Section Helpers.
Variable host : Host.
Variable node_path : NodePath.
Variable fuel : nat.

(** [findFiles(dirPath, options)] *)
Definition findFiles (dirPath : string) (options : WalkerOptionsInput)
    : Completion (list string) :=
  for_await (streamWalker host fuel dirPath options)
    (fun files entry => Ok (files ++ [path entry])) [].

(** The names every object inherits from [Object.prototype]. *)
Definition inherited_names : list string :=
  ["constructor"; "__defineGetter__"; "__defineSetter__"; "hasOwnProperty";
   "__lookupGetter__"; "__lookupSetter__"; "isPrototypeOf"; "propertyIsEnumerable";
   "toString"; "valueOf"; "__proto__"; "toLocaleString"].

Definition inherited (key : string) : bool := bool_decide (key ∈ inherited_names).

(** [if (!obj[key]) obj[key] = []; obj[key].push(item)] on an object
    created by [{}], whose own properties are arrays: under a key that
    the object inherits, [obj[key]] is a function or the prototype,
    which is truthy and has no [push]. *)
Definition push_under (obj : gmap string (list string)) (key item : string)
    : Result JsError (gmap string (list string)) :=
  match obj !! key with
  | Some items => Ok (<[key := items ++ [item]]> obj)
  | None =>
      if inherited key
      then Err (mkError ClsTypeError "obj[key].push is not a function" None None)
      else Ok (<[key := [item]]> obj)
  end.

(** [path.extname(entry.path) || '[no extension]'] *)
Definition extension_key (p : string) : string :=
  if String.eqb (extname node_path p) "" then "[no extension]" else extname node_path p.

(** [groupByExtension(dirPath, options)] *)
Definition groupByExtension (dirPath : string) (options : WalkerOptionsInput)
    : Completion (gmap string (list string)) :=
  for_await (streamWalker host fuel dirPath options)
    (fun groups entry => push_under groups (extension_key (path entry)) (path entry)) ∅.

(** [findDuplicateNames(dirPath, options)] *)
Definition findDuplicateNames (dirPath : string) (options : WalkerOptionsInput)
    : Completion (gmap string (list string)) :=
  match for_await (streamWalker host fuel dirPath options)
          (fun filesByName entry =>
             push_under filesByName (basename node_path (path entry)) (path entry)) ∅
  with
  | Normal filesByName =>
      Normal (filter (fun '(_, paths) => 1 < length paths) filesByName)
  | Throw err => Throw err
  | OutOfFuel => OutOfFuel
  end.

End Helpers.
End Helpers.

(** File systems and a path library for the helpers. *)
Module HelperScenarios.
Import JsString Helpers.

(** root: a.txt, sub/ ; root/sub: a.txt, b.md *)
Definition twins : Host := {|
  realpath p := Ok p;
  opendir p :=
    if String.eqb p "root" then Ok (mkDir [file "a.txt"; folder "sub"] None)
    else if String.eqb p "root/sub" then Ok (mkDir [file "a.txt"; file "b.md"] None)
    else Err (ENOENT p);
  stat p := Ok (mkStats false 1);
  joinPath := posix_join;
  localeCompare := ordinal_compare
|}.

(** root: constructor, notes.txt *)
Definition awkward : Host := {|
  realpath p := Ok p;
  opendir p :=
    if String.eqb p "root" then Ok (mkDir [file "notes.txt"; file "constructor"] None)
    else Err (ENOENT p);
  stat p := Ok (mkStats false 1);
  joinPath := posix_join;
  localeCompare := ordinal_compare
|}.

(** The last segment of a path, and the extension of the names used
    here. *)
Definition last_segment (p : string) : string := pop (split "/" p).

Definition posix : NodePath := {|
  basename := last_segment;
  extname p :=
    if includes (last_segment p) ".txt" then ".txt"
    else if includes (last_segment p) ".md" then ".md"
    else ""
|}.

End HelperScenarios.

(* ===================================================================== *)
(** ** More vocabulary *)
(* ===================================================================== *)

Module Vocabulary.
Import JsString Glob Helpers.

(** The object [sanitizeOptions] returns, handed to it again. *)
Definition given (o : OptionsObject) : WalkerOptionsInput := {|
  in_maxDepth := Some (o_maxDepth o);
  in_include := Some (o_include o);
  in_exclude := Some (o_exclude o);
  in_yieldDirectories := Some (o_yieldDirectories o);
  in_followSymlinks := Some (o_followSymlinks o);
  in_suppressErrors := Some (o_suppressErrors o);
  in_signal := Some (o_signal o);
  in_sort := Some (o_sort o);
  in_onProgress := Some (o_onProgress o);
  in_withStats := Some (o_withStats o)
|}.

(** The entries handed to [options.onProgress], in order. *)
Definition progressed (t : list Event) : list Entry :=
  omap (fun ev => match ev with EvProgress e => Some e | _ => None end) t.

(** [currentDepth] does not exceed [options.maxDepth]. *)
Definition within_limit (options : WalkerOptions) (currentDepth : nat) : Prop :=
  match maxDepth options with
  | NFinite q => (inject_Z (Z.of_nat currentDepth) <= q)%Q
  | NNegInf => False
  | NPosInf | NNaN => True
  end.

(** [q] is the path of an entry that is itself a directory, in the
    listing of a directory that can be opened. *)
Definition real_child (host : Host) (q : string) : Prop :=
  exists parent dir d,
    opendir host parent = Ok dir /\ d ∈ entries dir /\ isDirectory d = true /\
    q = joinPath host parent (name d).

(** Not the failure of a call that resolves a link. *)
Definition no_resolution (ev : Event) : Prop :=
  match ev with
  | EvFault AtRealpath _ _ | EvFault AtLinkStat _ _ => False
  | _ => True
  end.

(** A run that resolves no link: it leaves [visited] alone and opens,
    apart from [p], only directories listed as such. *)
Definition unfollowed (host : Host) (p : string) (w : World) (t : list Event) (w' : World)
    : Prop :=
  visited w' = visited w /\
  Forall (fun q => q = p \/ real_child host q) (opens t) /\
  Forall no_resolution t.

(** The comparator [sortEntries] hands to [Array.prototype.sort]. *)
Definition comparator (host : Host) (sortType : SortType) : Dirent -> Dirent -> Z :=
  match sortType with
  | SortFn f => as_comparator f
  | SortAsc => fun a b => localeCompare host (name a) (name b)
  | SortDesc => fun a b => localeCompare host (name b) (name a)
  end.

(** A consistent comparator: when it puts [a] after [b] it does not
    put [b] after [a], and "not after" is transitive. *)
Definition consistent {A} (cmp : A -> A -> Z) : Prop :=
  (forall a b, (0 < cmp a b)%Z -> (cmp b a <= 0)%Z) /\
  (forall a b c, (cmp a b <= 0)%Z -> (cmp b c <= 0)%Z -> (cmp a c <= 0)%Z).

(** A pattern without wildcards: no [*], no [?], no [[] that a later
    []] closes and no [{] that a later [}] closes. *)
Fixpoint literal (pattern : string) : bool :=
  match pattern with
  | EmptyString => true
  | String c rest =>
      negb (Ascii.eqb c "*") && negb (Ascii.eqb c "?") &&
      (negb (Ascii.eqb c "[") || bool_decide (indexOf "]" rest 0 = None)) &&
      (negb (Ascii.eqb c "{") || bool_decide (indexOf "}" rest 0 = None)) &&
      literal rest
  end.

(** Backslashes replaced by slashes in every pattern. *)
Definition normalize_patterns (patterns : Patterns) : Patterns :=
  match patterns with
  | OnePattern pattern => OnePattern (normalize pattern)
  | ManyPatterns patterns => ManyPatterns (normalize <$> patterns)
  end.

(** The items filed under [key], as the property of an object: absent
    when there is none. *)
Definition filed (key_of : string -> string) (items : list string) (key : string)
    : option (list string) :=
  match filter (fun item => key_of item = key) items with
  | [] => None
  | l => Some l
  end.

(** The tree under [p] is at most [h] directories high: [p] cannot be
    opened, or [h] is not 0 and the tree under each of its entries that
    are directories is at most [h - 1] high. *)
Fixpoint shallow (host : Host) (h : nat) (p : string) : bool :=
  match opendir host p with
  | Err _ => true
  | Ok dir =>
      match h with
      | O => false
      | S h' =>
          forallb (fun d => negb (isDirectory d) || shallow host h' (joinPath host p (name d)))
                  (entries dir)
      end
  end.

(** The listing of [dirPath], read off the file system: for each entry
    of the directory, in the order of the listing (sorted when a sort
    is asked for), the entry itself if it is selected, then the listing
    of the entry if it is a directory.  A directory that cannot be
    opened, or that lies deeper than [maxDepth], has an empty listing;
    so has a directory whose stream fails, when its entries are to be
    sorted. *)
Fixpoint listing (host : Host) (options : WalkerOptions) (fuel : nat)
    (dirPath : string) (k : nat) : list Entry :=
  match fuel with
  | O => []
  | S fuel' =>
      if depth_exceeds options k then []
      else
        match opendir host dirPath with
        | Err _ => []
        | Ok dir =>
            let ds :=
              match sort options, fault dir with
              | Some sortType, None => sortEntries host (entries dir) sortType
              | Some _, Some _ => []
              | None, _ => entries dir
              end in
            ds ≫= fun x =>
              (if selected options x then [entry_of host options dirPath k x] else [])
              ++ (if isDirectory x
                  then listing host options fuel' (joinPath host dirPath (name x)) (S k)
                  else [])
        end
  end.

End Vocabulary.


(* ===================================================================== *)
(** ** Option sanitizer and pattern matcher *)
(* ===================================================================== *)

Module SanitizerFacts.

(** Every field of an object that [sanitizeOptions] lets through has
    the shape its reader in [typed] expects. *)
Lemma sanitized_shapes (opts : WalkerOptionsInput) (o : OptionsObject) :
  sanitizeOptions opts = Ok o ->
  is_Some (as_number (o_maxDepth o)) /\ is_Some (as_boolean (o_yieldDirectories o)) /\
  is_Some (as_boolean (o_followSymlinks o)) /\ is_Some (as_boolean (o_suppressErrors o)) /\
  is_Some (as_signal (o_signal o)) /\ is_Some (as_sort (o_sort o)) /\
  is_Some (as_callback (o_onProgress o)) /\ is_Some (as_boolean (o_withStats o)).
Proof.
  unfold sanitizeOptions. generalize (spread opts). intros m H.
  repeat match type of H with
         | (if ?b then _ else _) = _ => destruct b eqn:?; [discriminate H|]
         end.
  injection H as <-.
  destruct m as [d i e yd fl se sg so pr ws]; simpl in *.
  repeat match goal with
         | H : _ && _ = false |- _ => apply andb_false_iff in H
         | H : negb _ = false |- _ => apply negb_false_iff in H
         | H : _ || _ = false |- _ => apply orb_false_iff in H; destruct H
         end.
  unfold typeof_is in *.
  split_and!.
  - destruct d; simpl in *; try (by eauto); by intuition.
  - destruct yd; simpl in *; by eauto.
  - destruct fl; simpl in *; by eauto.
  - destruct se; simpl in *; by eauto.
  - destruct sg; simpl in *; try (by eauto); by intuition.
  - destruct so as [| | | |s| | | |]; simpl in *; try (by eauto); try (by intuition).
    destruct (String.eqb s "asc"); [by eauto|].
    destruct (String.eqb s "desc"); [by eauto|]. by intuition.
  - destruct pr; simpl in *; try (by eauto); by intuition.
  - destruct ws; simpl in *; by eauto.
Qed.

End SanitizerFacts.

(** C6, as stated: [sanitizeOptions] lets [{ maxDepth: 1.5 }] through,
    although 1.5 is not a non-negative integer: the rules in the words
    of the claim reject the merged object, the code does not. *)
Lemma sanitize_accepts_fractional_depth :
  sanitizeOptions fractional_depth = Ok (spread fractional_depth) /\
  rules_ok spec_depth_ok (spread fractional_depth) = false.
Proof. split; reflexivity. Qed.

(** C6, amended: [sanitizeOptions] fails, with an [Error], exactly when
    the merged object breaks one of the rules, the depth rule being
    "a non-negative number (whole or not) or Infinity"; when it does not
    fail it returns the merged object itself, in which every key the
    caller left out has the value of [DEFAULT_OPTIONS] and every key the
    caller gave has the caller's value, unchanged. *)
Theorem sanitize_validation (opts : WalkerOptionsInput) :
  match sanitizeOptions opts with
  | Ok merged => rules_ok code_depth_ok (spread opts) = true /\ merged = spread opts
  | Err e => rules_ok code_depth_ok (spread opts) = false /\ e_class e = ClsError
  end
  /\ Forall (fun f => f.2 (spread opts) = default (f.2 DEFAULT_OPTIONS) (f.1 opts)) fields
  /\ sanitizeOptions no_options = Ok DEFAULT_OPTIONS.
Proof.
  split; [|split; [repeat constructor|reflexivity]].
  unfold sanitizeOptions, rules_ok.
  destruct (spread opts) as [d i e yd fl se sg so pr ws]; simpl.
  destruct d as [| |b|[q| | |]|s|t|f|sg'|]; simpl; try (split; reflexivity);
    try (destruct (Qle_bool 0 q); simpl; [|split; reflexivity]).
  all: destruct so as [| |b|n|s|t|f|sg'|]; simpl; try (split; reflexivity).
  all: try (unfold typeof_is; simpl;
    destruct (String.eqb s "asc") eqn:E1; simpl;
    [|destruct (String.eqb s "desc") eqn:E2; simpl; [|split; reflexivity]]).
  all: destruct sg as [| |b|n|s'|t|f'|sg'|]; simpl; try (split; reflexivity).
  all: destruct yd as [| |b|n|s'|t|f'|sg''|]; simpl; try (split; reflexivity).
  all: destruct fl as [| |b'|n|s'|t|f'|sg''|]; simpl; try (split; reflexivity).
  all: destruct se as [| |b''|n|s'|t|f'|sg''|]; simpl; try (split; reflexivity).
  all: destruct ws as [| |b'''|n|s'|t|f'|sg''|]; simpl; try (split; reflexivity).
  all: destruct pr as [| |b''''|n|s'|t|f'|sg''|]; simpl; try (split; reflexivity).
Qed.

(** C2: at the empty-string rule, and at a rule that is a number, the
    [match] of src/utils.js answers [true] for every name, where the one
    of src/utils.ts throws a [TypeError]; [sanitizeOptions] lets
    [{ include: "" }] through, and [applyFilters] then includes every
    name, because its guard [options.include && ...] never hands a
    falsy rule to the matcher. *)
Theorem empty_pattern_matches_everything (fileName : string) :
  match_ fileName (VString "") = true /\
  match_ fileName (VNumber (NFinite 123)) = true /\
  e_class <$> (match match_ts fileName (VString "") with Err e => Some e | Ok _ => None end)
    = Some ClsTypeError /\
  sanitizeOptions empty_include = Ok (spread empty_include) /\
  applyFilters (typed (spread empty_include)) fileName = true.
Proof. repeat split. Qed.

(* ===================================================================== *)
(** ** Rules for reasoning about runs *)
(* ===================================================================== *)

Module Logic.

Lemma wp_eq {A} (m : Gen A) w (Q : list Event -> World -> Completion A -> Prop) :
  (forall t w' c, m w = (t, w', c) -> Q t w' c) <-> wp m w Q.
Proof.
  unfold wp. destruct (m w) as [[t w'] c]. split; [auto|].
  intros HQ ? ? ? [= <- <- <-]. exact HQ.
Qed.

(** What [wp] says of the run itself. *)
Lemma wp_run {A} (m : Gen A) w (Q : list Event -> World -> Completion A -> Prop) :
  wp m w Q -> Q (trace (m w)) (final (m w)) (completion (m w)).
Proof. unfold wp. by destruct (m w) as [[t w'] c]. Qed.

Lemma wp_mono {A} (m : Gen A) w (Q Q' : list Event -> World -> Completion A -> Prop) :
  wp m w Q -> (forall t w' c, Q t w' c -> Q' t w' c) -> wp m w Q'.
Proof. unfold wp. destruct (m w) as [[t w'] c]. auto. Qed.

Lemma wp_and {A} (m : Gen A) w (Q Q' : list Event -> World -> Completion A -> Prop) :
  wp m w Q -> wp m w Q' -> wp m w (fun t w' c => Q t w' c /\ Q' t w' c).
Proof. unfold wp. destruct (m w) as [[t w'] c]. auto. Qed.

Lemma wp_ret {A} (a : A) w Q : Q [] w (Normal a) -> wp (ret a) w Q.
Proof. done. Qed.

Lemma wp_throw {A} e w (Q : _ -> _ -> Completion A -> Prop) :
  Q [] w (Throw e) -> wp (throw e) w Q.
Proof. done. Qed.

Lemma wp_out_of_fuel {A} w (Q : _ -> _ -> Completion A -> Prop) :
  Q [] w OutOfFuel -> wp out_of_fuel w Q.
Proof. done. Qed.

Lemma wp_tick w Q : Q [] (mkWorld (S (clock w)) (visited w)) (Normal tt) -> wp tick w Q.
Proof. done. Qed.

Lemma wp_reject {A} site p e w (Q : _ -> _ -> Completion A -> Prop) :
  Q [EvFault site p e] w (Throw e) -> wp (reject site p e) w Q.
Proof. done. Qed.

Lemma wp_visited_has p w Q :
  Q [] w (Normal (bool_decide (p ∈ visited w))) -> wp (visited_has p) w Q.
Proof. done. Qed.

Lemma wp_visited_add p w Q :
  Q [] (mkWorld (clock w) ({[p]} ∪ visited w)) (Normal tt) -> wp (visited_add p) w Q.
Proof. done. Qed.

Lemma wp_opened p w Q : Q [EvOpen p (visited w)] w (Normal tt) -> wp (opened p) w Q.
Proof. done. Qed.

Lemma wp_yield f e w Q :
  Q [EvYield (clock w) f e] (mkWorld (S (clock w)) (visited w)) (Normal tt) ->
  wp (yield_ f e) w Q.
Proof. done. Qed.

Lemma wp_progress e w Q :
  Q [EvProgress e] (mkWorld (S (clock w)) (visited w)) (Normal tt) -> wp (progress e) w Q.
Proof. done. Qed.

Lemma wp_signal_aborted options w Q :
  Q [] w (Normal (cancelled options (clock w))) -> wp (signal_aborted options) w Q.
Proof. done. Qed.

Lemma wp_bind {A B} (m : Gen A) (f : A -> Gen B) w Q :
  wp m w (fun t1 w1 c1 =>
            match c1 with
            | Normal a => wp (f a) w1 (fun t2 w2 c2 => Q (t1 ++ t2) w2 c2)
            | Throw e => Q t1 w1 (Throw e)
            | OutOfFuel => Q t1 w1 OutOfFuel
            end) ->
  wp (bind m f) w Q.
Proof.
  unfold wp, bind.
  destruct (m w) as [[t1 w1] [a|e|]]; simpl; auto.
  destruct (f a w1) as [[t2 w2] c2]; simpl; auto.
Qed.

Lemma wp_try_catch {A} (m : Gen A) (h : JsError -> Gen A) w Q :
  wp m w (fun t1 w1 c1 =>
            match c1 with
            | Throw e => wp (h e) w1 (fun t2 w2 c2 => Q (t1 ++ t2) w2 c2)
            | c => Q t1 w1 c
            end) ->
  wp (try_catch m h) w Q.
Proof.
  unfold wp, try_catch.
  destruct (m w) as [[t1 w1] [a|e|]]; simpl; auto.
  destruct (h e w1) as [[t2 w2] c2]; simpl; auto.
Qed.

Lemma wp_finally_close {A} (m : Gen A) w Q :
  wp m w (fun t w1 c => Q t (mkWorld (S (clock w1)) (visited w1)) c) ->
  wp (finally_close m) w Q.
Proof.
  unfold wp, finally_close.
  destruct (m w) as [[t1 w1] c]; simpl; auto.
Qed.

Lemma wp_await {A} site p (r : Result JsError A) w Q :
  (match r with
   | Ok a => Q [] (mkWorld (S (clock w)) (visited w)) (Normal a)
   | Err e => Q [EvFault site p e] (mkWorld (S (clock w)) (visited w)) (Throw e)
   end) ->
  wp (await site p r) w Q.
Proof. unfold wp, await, bind, tick, reject, ret. destruct r; simpl; auto. Qed.

(** One step of symbolic execution of a piece of the generator. *)
Ltac wp_step :=
  lazymatch goal with
  | |- wp (bind _ _) _ _ => apply wp_bind
  | |- wp (try_catch _ _) _ _ => apply wp_try_catch
  | |- wp (finally_close _) _ _ => apply wp_finally_close
  | |- wp (await _ _ ?r) _ _ => apply wp_await; destruct r eqn:?
  | |- wp (ret _) _ _ => apply wp_ret
  | |- wp (throw _) _ _ => apply wp_throw
  | |- wp out_of_fuel _ _ => apply wp_out_of_fuel
  | |- wp tick _ _ => apply wp_tick
  | |- wp (reject _ _ _) _ _ => apply wp_reject
  | |- wp (visited_has _) _ _ => apply wp_visited_has
  | |- wp (visited_add _) _ _ => apply wp_visited_add
  | |- wp (opened _) _ _ => apply wp_opened
  | |- wp (yield_ _ _) _ _ => apply wp_yield
  | |- wp (progress _) _ _ => apply wp_progress
  | |- wp (signal_aborted _) _ _ => apply wp_signal_aborted
  | |- wp (if ?b then _ else _) _ _ => destruct b eqn:?; try discriminate
  | |- wp (match ?x with _ => _ end) _ _ => destruct x eqn:?; try discriminate
  end; cbv beta match; cbn [negb andb orb clock visited].

(** Use the specification [lem] of a callee: its premises come first,
    then the rest of the caller, one goal per completion. *)
Tactic Notation "wp_use" uconstr(lem) :=
  eapply wp_mono;
  [ eapply lem
  | let t := fresh "t" in
    let w := fresh "w" in
    let c := fresh "c" in
    let H := fresh "H" in
    intros t w c H; destruct c; cbn [thrown exhausted] in H; cbv beta match ].

(** Projections of traces distribute over concatenation. *)
Lemma yields_of_app t1 t2 : yields_of (t1 ++ t2) = yields_of t1 ++ yields_of t2.
Proof. apply omap_app. Qed.
Lemma stamps_app t1 t2 : stamps (t1 ++ t2) = stamps t1 ++ stamps t2.
Proof. apply omap_app. Qed.
Lemma opens_app t1 t2 : opens (t1 ++ t2) = opens t1 ++ opens t2.
Proof. apply omap_app. Qed.
Lemma yielded_app t1 t2 : yielded (t1 ++ t2) = yielded t1 ++ yielded t2.
Proof. apply omap_app. Qed.
Lemma yields_of_nil : yields_of [] = [].
Proof. done. Qed.
Lemma yields_of_yield time f e : yields_of [EvYield time f e] = [(f, e)].
Proof. done. Qed.
Lemma yields_of_open p s : yields_of [EvOpen p s] = [].
Proof. done. Qed.
Lemma yields_of_progress e : yields_of [EvProgress e] = [].
Proof. done. Qed.
Lemma yields_of_fault site p e : yields_of [EvFault site p e] = [].
Proof. done. Qed.
Lemma stamps_nil : stamps [] = [].
Proof. done. Qed.
Lemma stamps_yield time f e : stamps [EvYield time f e] = [time].
Proof. done. Qed.
Lemma stamps_open p s : stamps [EvOpen p s] = [].
Proof. done. Qed.
Lemma stamps_progress e : stamps [EvProgress e] = [].
Proof. done. Qed.
Lemma stamps_fault site p e : stamps [EvFault site p e] = [].
Proof. done. Qed.
Lemma opens_nil : opens [] = [].
Proof. done. Qed.
Lemma opens_yield time f e : opens [EvYield time f e] = [].
Proof. done. Qed.
Lemma opens_open p s : opens [EvOpen p s] = [p].
Proof. done. Qed.
Lemma opens_progress e : opens [EvProgress e] = [].
Proof. done. Qed.
Lemma opens_fault site p e : opens [EvFault site p e] = [].
Proof. done. Qed.

Create Rewrite HintDb traces.
#[export] Hint Rewrite yields_of_app yields_of_nil yields_of_yield yields_of_open
  yields_of_progress yields_of_fault stamps_app stamps_nil stamps_yield stamps_open
  stamps_progress stamps_fault opens_app opens_nil opens_yield opens_open
  opens_progress opens_fault @app_nil_r @app_nil_l : traces.

(** Compute the projections of the trace of a finished path. *)
Ltac norm :=
  lazymatch goal with
  | |- wp _ _ _ => idtac
  | _ => autorewrite with traces
  end.

Lemma yielded_yields_of t : yielded t = snd <$> yields_of t.
Proof.
  induction t as [|[] t IH]; simpl; try done.
  unfold yielded, yields_of in *. simpl. by rewrite IH.
Qed.

End Logic.

Import Logic.

(* ===================================================================== *)
(** ** Faults and the suppression policy *)
(* ===================================================================== *)

Module Faults.

Definition post (host : Host) (t : list Event) (w' : World) (o : option JsError) : Prop :=
  Forall (genuine host) t /\ halts_at_fault t o /\ (o = None -> canonical host w').

(** What holds of every piece of the generator when errors are not
    suppressed. *)
Definition sat (host : Host) {A} (m : Gen A) : Prop :=
  forall w, canonical host w -> wp m w (fun t w' c => post host t w' (thrown c)).

Create HintDb faults.

Section Pass.

Variable host : Host.
Variable options : WalkerOptions.

Lemma post_app t1 w1 t2 w2 o :
  post host t1 w1 None -> post host t2 w2 o -> post host (t1 ++ t2) w2 o.
Proof.
  intros (G1 & H1 & _) (G2 & H2 & C2). split_and!; [by apply Forall_app| |done].
  destruct o as [e|]; simpl in *; [|by apply Forall_app].
  destruct H2 as (t0 & site & p & -> & Hs & Hq).
  exists (t1 ++ t0), site, p. rewrite app_assoc.
  split_and!; [done..|by apply Forall_app].
Qed.

Lemma post_pure w : canonical host w -> post host [] w None.
Proof. intros. split_and!; [constructor|constructor|done]. Qed.

Lemma post_event ev w :
  canonical host w -> genuine host ev -> ~ surfacing ev -> post host [ev] w None.
Proof. intros. split_and!; [by repeat constructor|by repeat constructor|done]. Qed.

Lemma post_fault site p e w :
  host_fault host site p e -> site <> AtLinkStat ->
  post host [EvFault site p e] w (Some e).
Proof.
  intros. split_and!; [by repeat constructor| |done].
  exists [], site, p. split_and!; [done..|constructor].
Qed.

Lemma post_nil_r t w o : post host t w o -> post host (t ++ []) w o.
Proof. by rewrite app_nil_r. Qed.

Lemma post_canonical t w : post host t w None -> canonical host w.
Proof. intros (_ & _ & H). by apply H. Qed.

Lemma canonical_add w r :
  canonical host w -> realpath host r = Ok r ->
  canonical host (mkWorld (clock w) ({[r]} ∪ visited w)).
Proof. intros Hc Hr v [->%elem_of_singleton|Hv]%elem_of_union; auto. Qed.

Lemma canonical_clock w time :
  canonical host w -> canonical host (mkWorld time (visited w)).
Proof. done. Qed.

Lemma not_surfacing_open p s : ~ surfacing (EvOpen p s).
Proof. simpl; auto. Qed.
Lemma not_surfacing_yield t f e : ~ surfacing (EvYield t f e).
Proof. simpl; auto. Qed.
Lemma not_surfacing_progress e : ~ surfacing (EvProgress e).
Proof. simpl; auto. Qed.
Lemma not_surfacing_link p e : ~ surfacing (EvFault AtLinkStat p e).
Proof. simpl; auto. Qed.

Local Hint Resolve post_pure post_event post_fault post_nil_r canonical_add
  not_surfacing_open not_surfacing_yield not_surfacing_progress
  not_surfacing_link : faults.
Local Hint Extern 1 (canonical _ (mkWorld _ (visited _))) => assumption : faults.
Local Hint Extern 3 (canonical _ (mkWorld _ (visited _))) => apply canonical_clock : faults.
Local Hint Extern 1 (genuine _ _) => exact I : faults.
Local Hint Extern 2 (canonical _ ?w) =>
  match goal with H : post _ _ w None |- _ => exact (post_canonical _ _ H) end : faults.
Local Hint Extern 1 (genuine _ (EvFault _ _ _)) => simpl; eassumption : faults.
Local Hint Extern 1 (host_fault _ _ _ _) => simpl; eassumption : faults.
Local Hint Extern 1 (_ <> _) => discriminate : faults.
Local Hint Extern 5 (post _ (_ ++ _) _ _) => eapply post_app : faults.

Ltac leaf := cbn [clock visited thrown]; eauto 12 with faults.

Hypothesis realpath_idem : forall p r, realpath host p = Ok r -> realpath host r = Ok r.
Hypothesis no_suppress : suppressErrors options = false.

Lemma classify_sat entryPath d : sat host (classify host options entryPath d).
Proof. intros w Hc. unfold classify. repeat wp_step; leaf. Qed.

Lemma yieldEntry_sat dirPath entryPath d k :
  sat host (yieldEntry host options dirPath entryPath d k).
Proof.
  intros w Hc. unfold yieldEntry. rewrite no_suppress. simpl.
  repeat wp_step; leaf.
Qed.

Lemma processEntry_sat recurse dirPath k d :
  (forall p k, sat host (recurse p k)) ->
  sat host (processEntry host options recurse dirPath k d).
Proof.
  intros Hrec w Hc. unfold processEntry. wp_step.
  wp_use classify_sat; [leaf| |leaf..].
  repeat wp_step.
  - wp_use yieldEntry_sat; [leaf| |leaf..]. wp_use Hrec; leaf.
  - wp_use Hrec; leaf.
  - wp_use yieldEntry_sat; leaf.
  - leaf.
Qed.

Lemma forAwait_sat dirPath flt body :
  (forall e, flt = Some e -> host_fault host AtRead dirPath e) ->
  (forall d, sat host (body d)) ->
  forall ds, sat host (forAwait options dirPath ds flt body).
Proof.
  intros Hflt Hbody ds. induction ds as [|d ds IH]; intros w Hc; simpl.
  - repeat wp_step; leaf.
  - repeat wp_step; [leaf|].
    wp_use Hbody; [leaf| |leaf..]. wp_use IH; leaf.
Qed.

Lemma collect_sat dirPath flt :
  (forall e, flt = Some e -> host_fault host AtRead dirPath e) ->
  forall ds acc, sat host (collect options dirPath ds flt acc).
Proof.
  intros Hflt ds. induction ds as [|d ds IH]; intros acc w Hc; simpl.
  - repeat wp_step; leaf.
  - repeat wp_step; [leaf|]. wp_use IH; leaf.
Qed.

Lemma frame_sat recurse dirPath k :
  (forall p k, sat host (recurse p k)) ->
  sat host (frame host options recurse dirPath k).
Proof.
  intros Hrec w Hc. unfold frame, registerIdentity, openDirectory, scan.
  rewrite no_suppress. simpl.
  repeat wp_step; try leaf.
  all: try (wp_use collect_sat; [intros e' He'; simpl; eauto|leaf|..]).
  all: try (wp_use forAwait_sat; [intros e' He'; simpl; eauto; try done|..]).
  all: try (intros d'; apply processEntry_sat; done).
  all: repeat wp_step; try leaf.
  apply bool_decide_eq_true in Heqb2. apply Hc in Heqb2. congruence.
Qed.

Lemma walk_sat fuel : forall dirPath k, sat host (walk host options fuel dirPath k).
Proof.
  induction fuel as [|fuel IH]; intros dirPath k; simpl.
  - intros w Hc. wp_step. leaf.
  - by apply frame_sat.
Qed.

End Pass.

(** Under [suppressErrors] no piece of [walk] lets an error out. *)
Lemma walk_never_throws host options fuel dirPath k w :
  suppressErrors options = true ->
  wp (walk host options fuel dirPath k) w (fun _ _ c => thrown c = None).
Proof.
  intros Hs. destruct fuel as [|fuel]; [done|]. simpl.
  unfold frame, registerIdentity, openDirectory, scan. rewrite Hs. simpl.
  repeat wp_step; try done.
  all: apply wp_eq; intros ? ? [] ?; try done; repeat wp_step; try done.
  all: apply wp_eq; intros ? ? [] ?; try done; repeat wp_step; done.
Qed.

Lemma cancelled_at_entry host options fuel dirPath k w :
  cancelled options (clock w) = true ->
  walk host options (S fuel) dirPath k w = ([], w, Normal tt).
Proof.
  intros Hc. simpl. unfold frame, bind, signal_aborted. fold (cancelled options (clock w)).
  by rewrite Hc.
Qed.

End Faults.

(** C1, as stated: with the default options a failure that is not of the
    PermissionDenied kind is swallowed too.  On [sample] the directory
    "ghost" does not exist: [fs.opendir] fails with ENOENT, which
    [wrapError] classifies as [PathNotFoundError] and which
    [shouldSuppressError] would not suppress; [walk] records the fault
    and returns normally. *)
Lemma not_found_is_swallowed :
  suppressErrors defaults = true /\
  opendir sample "ghost" = Err (ENOENT "ghost") /\
  e_class (wrapError (ENOENT "ghost") "ghost") = ClsPathNotFoundError /\
  shouldSuppressError (ENOENT "ghost") (Some true) = false /\
  walk sample defaults 3 "ghost" 0 start
    = ([EvFault AtOpendir "ghost" (ENOENT "ghost")], mkWorld 1 ∅, Normal tt).
Proof. repeat split. Qed.

(** C1, amended: when [suppressErrors] is true [walk] swallows every
    failure of the file system, of whatever kind: no run ends by
    throwing.  The predicate that answers [true] only for permission
    errors ([PermissionError], or the codes EACCES and EPERM) is
    [shouldSuppressError], which [walk] does not consult. *)
Theorem suppression_swallows_every_fault
    (host : Host) (options : WalkerOptions) (fuel : nat)
    (dirPath : string) (currentDepth : nat) (w : World) :
  suppressErrors options = true ->
  thrown (completion (walk host options fuel dirPath currentDepth w)) = None /\
  forall err flag,
    shouldSuppressError err flag =
    default true flag &&
    (instanceof_PermissionError err || code_is err "EACCES" || code_is err "EPERM").
Proof.
  intros Hs. split.
  - pose proof (Faults.walk_never_throws host options fuel dirPath currentDepth w Hs) as H.
    unfold wp in H. by destruct (walk _ _ _ _ _ _) as [[t w'] c].
  - intros err [[]|]; unfold shouldSuppressError; simpl; try done.
    all: destruct (instanceof_PermissionError err); simpl; try done.
    all: by destruct (code_is err "EACCES" || code_is err "EPERM").
Qed.

Lemma suppression_swallows_every_fault_witness :
  suppressErrors defaults = true /\
  thrown (completion (walk sample defaults 4 "root" 0 start)) = None.
Proof.
  split; [reflexivity|].
  exact (proj1 (suppression_swallows_every_fault sample defaults 4 "root" 0 start eq_refl)).
Defined.

(** C8, as stated: with suppression disabled a token that is already
    set makes [walk] return at once, without an error; and the error of
    a failing [fs.opendir] surfaces as the file system raised it, a
    plain system error, not as the typed error [wrapError] would make
    of it. *)
Lemma preset_cancellation_is_silent :
  let options := with_suppressErrors false defaults in
  let cancelled_options := with_signal (Some (AbortsAt 0)) options in
  suppressErrors cancelled_options = false /\
  cancelled cancelled_options (clock start) = true /\
  walk sample cancelled_options 3 "root" 0 start = ([], start, Normal tt) /\
  completion (walk sample options 3 "root/locked" 0 start) = Throw (EACCES "root/locked") /\
  instanceof_FStreamWalkError (EACCES "root/locked") = false /\
  wrapError (EACCES "root/locked") "root/locked" <> EACCES "root/locked".
Proof. repeat split. discriminate. Qed.

(** C8, amended: with suppression disabled, on a file system whose
    [realpath] is idempotent, the first failure of [fs.realpath],
    [fs.opendir], a read of the directory stream or the [fs.stat] for
    [entry.stats] stops the scan: [walk] throws the very error the file
    system raised (every fault in the trace is a failed call of the
    host, and the thrown error is the one of the last event of the
    trace, before which nothing surfaced), so nothing is yielded after
    it.  The failure of the [fs.stat] that looks through a symlink never
    surfaces.  A token that is already set when [walk] is entered ends
    it at once, with no entry and no error. *)
Theorem first_fault_halts
    (host : Host) (options : WalkerOptions) (fuel : nat)
    (dirPath : string) (currentDepth : nat) (w : World) :
  suppressErrors options = false ->
  (forall p r, realpath host p = Ok r -> realpath host r = Ok r) ->
  canonical host w ->
  let r := walk host options fuel dirPath currentDepth w in
  Forall (genuine host) (trace r) /\
  halts_at_fault (trace r) (thrown (completion r)) /\
  (cancelled options (clock w) = true -> trace r = [] /\ thrown (completion r) = None).
Proof.
  intros Hs Hidem Hc r.
  pose proof (Faults.walk_sat host options Hidem Hs fuel dirPath currentDepth w Hc) as H.
  unfold wp in H. subst r.
  split_and!.
  - destruct (walk _ _ _ _ _ _) as [[t w'] c]. apply H.
  - destruct (walk _ _ _ _ _ _) as [[t w'] c]. apply H.
  - intros Hab. destruct fuel as [|fuel]; [done|].
    by rewrite Faults.cancelled_at_entry.
Qed.

Lemma first_fault_halts_witness :
  let options := with_suppressErrors false defaults in
  suppressErrors options = false /\
  (forall p r, realpath sample p = Ok r -> realpath sample r = Ok r) /\
  canonical sample start /\
  halts_at_fault (trace (walk sample options 4 "root" 0 start))
    (Some (EACCES "root/locked")).
Proof.
  assert (Hidem : forall p r, realpath sample p = Ok r -> realpath sample r = Ok r)
    by (intros p r _; reflexivity).
  assert (Hc : canonical sample start) by (intros v _; reflexivity).
  split_and!; [reflexivity|exact Hidem|exact Hc|].
  exact (proj1 (proj2 (first_fault_halts sample (with_suppressErrors false defaults)
                         4 "root" 0 start eq_refl Hidem Hc))).
Defined.

(* ===================================================================== *)
(** ** The order of the yielded sequence *)
(* ===================================================================== *)

Module Order.

Section Pass.
Variable host : Host.
Variable options : WalkerOptions.
Variable sub : string -> nat -> list (string * Entry) -> Prop.
Hypothesis sub_nil : forall p k, sub p k [].


Lemma yieldEntry_own dirPath x k w :
  wp (yieldEntry host options dirPath (joinPath host dirPath (name x)) x k) w
     (fun t _ _ => own_entry host dirPath k x (yields_of t)).
Proof.
  unfold yieldEntry, own_entry. repeat wp_step; norm; eauto.
Qed.

Lemma classify_no_yield entryPath x w :
  wp (classify host options entryPath x) w (fun t _ _ => yields_of t = []).
Proof. unfold classify. repeat wp_step; by norm. Qed.

Lemma processEntry_block recurse dirPath k x w :
  (forall p k w, wp (recurse p k) w (fun t _ _ => sub p k (yields_of t))) ->
  wp (processEntry host options recurse dirPath k x) w
     (fun t _ _ => exists own below,
          yields_of t = own ++ below /\ own_entry host dirPath k x own /\
          sub (joinPath host dirPath (name x)) (S k) below).
Proof.
  intros Hrec. unfold processEntry. wp_step.
  assert (Hnone : own_entry host dirPath k x []) by (by left).
  wp_use classify_no_yield; [|exists [], []; norm; rewrite H; eauto..].
  repeat wp_step.
  - wp_use yieldEntry_own;
      [|exists (yields_of t0), []; norm; rewrite H; eauto..].
    wp_use Hrec; exists (yields_of t0), (yields_of t1); norm; rewrite H; eauto.
  - wp_use Hrec; exists [], (yields_of t0); norm; rewrite H; eauto.
  - wp_use yieldEntry_own; exists (yields_of t0), []; norm; rewrite H; eauto.
  - exists [], []; norm; rewrite H; eauto.
Qed.

Lemma forAwait_blocks recurse dirPath k flt :
  (forall p k w, wp (recurse p k) w (fun t _ _ => sub p k (yields_of t))) ->
  forall ds w,
    wp (forAwait options dirPath ds flt (processEntry host options recurse dirPath k)) w
       (fun t _ _ => Blocks host sub dirPath k ds (yields_of t)).
Proof.
  intros Hrec ds. induction ds as [|x ds IH]; intros w; simpl.
  - repeat wp_step; norm; constructor.
  - repeat wp_step; [norm; constructor|].
    wp_use processEntry_block; [done|..].
    + wp_use IH; norm; destruct H as (own & below & -> & Hown & Hsub);
        rewrite <- app_assoc; by constructor.
    + norm. destruct H as (own & below & -> & Hown & Hsub).
      rewrite <- (app_nil_r below). constructor; [done..|constructor].
    + norm. destruct H as (own & below & -> & Hown & Hsub).
      rewrite <- (app_nil_r below). constructor; [done..|constructor].
Qed.

Lemma collect_prefix dirPath flt ds : forall acc w,
  wp (collect options dirPath ds flt acc) w
     (fun t _ c => yields_of t = [] /\
                   forall es, c = Normal es -> exists j, es = acc ++ take j ds).
Proof.
  induction ds as [|x ds IH]; intros acc w; simpl.
  - repeat wp_step; norm; (split; [done|]); intros es [= <-]; try done.
    exists 0. by rewrite app_nil_r.
  - repeat wp_step.
    + norm. split; [done|]. intros es [= <-]. exists 0. by rewrite app_nil_r.
    + wp_use IH; norm; destruct H as [-> H]; (split; [done|]); intros es [= <-].
      destruct (H a eq_refl) as [j ->]. exists (S j). by rewrite <- app_assoc.
Qed.

Lemma frame_scan recurse dirPath k w :
  (forall p k w, wp (recurse p k) w (fun t _ _ => sub p k (yields_of t))) ->
  wp (frame host options recurse dirPath k) w
     (fun t _ _ => yields_of t = [] \/
        exists dir ds, opendir host dirPath = Ok dir /\
          processing_order host dir ds /\
          Blocks host sub dirPath k ds (yields_of t)).
Proof.
  intros Hrec. unfold frame, registerIdentity, openDirectory, scan.
  repeat wp_step; norm; auto.
  all: try (wp_use collect_prefix; [destruct H as [Ht H]; destruct (H _ eq_refl) as [j ->]|..]).
  all: try (wp_use forAwait_blocks; [done|..]).
  all: repeat wp_step; norm; try (destruct H as [Ht H]); rewrite ?Ht; norm; auto.
  all: right; eexists _, _; (split; [reflexivity|]); (split; [|eassumption]).
  all: try (by left).
  all: right; eauto.
Qed.

End Pass.

Lemma PreOrderN_nil host n p k : PreOrderN host n p k [].
Proof. destruct n; simpl; auto. Qed.

Lemma walk_preorderN host options fuel : forall dirPath k w,
  wp (walk host options fuel dirPath k) w
     (fun t _ _ => PreOrderN host fuel dirPath k (yields_of t)).
Proof.
  induction fuel as [|fuel IH]; intros dirPath k w; simpl.
  - by wp_step.
  - eapply wp_mono; [apply (frame_scan host options (PreOrderN host fuel))|].
    + apply PreOrderN_nil.
    + done.
    + done.
Qed.

Lemma Blocks_mono host (sub sub' : string -> nat -> list (string * Entry) -> Prop) p k ds ys :
  (forall q j zs, sub q j zs -> sub' q j zs) ->
  Blocks host sub p k ds ys -> Blocks host sub' p k ds ys.
Proof. intros Hs. induction 1; constructor; auto. Qed.

Lemma PreOrderN_PreOrder host n : forall p k ys,
  PreOrderN host n p k ys -> PreOrder host p k ys.
Proof.
  induction n as [|n IH]; simpl; intros p k ys H.
  - subst. constructor.
  - destruct H as [->|(dir & ds & Ho & Hp & Hb)]; [constructor|].
    econstructor; [done..|]. eapply Blocks_mono; [|done]. apply IH.
Qed.
End Order.
Module Sorting.
Lemma sort_insert_perm {A} (cmp : A -> A -> Z) x l : sort_insert cmp x l ≡ₚ x :: l.
Proof.
  induction l as [|y l IH]; simpl; [done|].
  destruct (0 <? cmp x y)%Z; [|done].
  rewrite IH. apply Permutation_swap.
Qed.

Lemma array_sort_perm {A} (cmp : A -> A -> Z) l : array_sort cmp l ≡ₚ l.
Proof.
  induction l as [|x l IH]; simpl; [done|].
  unfold array_sort in *. simpl. by rewrite sort_insert_perm, IH.
Qed.

Lemma sortEntries_perm host l sortType : sortEntries host l sortType ≡ₚ l.
Proof. destruct sortType; apply array_sort_perm. Qed.

Lemma processing_order_elem host dir ds x :
  processing_order host dir ds -> x ∈ ds -> x ∈ entries dir.
Proof.
  intros [->|(j & s & ->)]; [done|].
  rewrite sortEntries_perm. apply subseteq_take.
Qed.
End Sorting.

Module Depth.
Import Sorting.

Lemma beneath_child host p k x e :
  beneath host (joinPath host p (name x)) (S k) e -> beneath host p k e.
Proof.
  intros (names & Hne & Hp & Hd & Hl).
  exists (name x :: names). split_and!; [done|done|simpl; lia|].
  destruct names; [done|]. done.
Qed.

Lemma Blocks_beneath host sub p k ds ys :
  (forall q j zs, sub q j zs -> Forall (fun y => beneath host q j y.2) zs) ->
  Blocks host sub p k ds ys -> Forall (fun y => beneath host p k y.2) ys.
Proof.
  intros Hsub. induction 1 as [|x ds own below rest Hown Hbelow _ IH]; [constructor|].
  rewrite !Forall_app. split_and!; [|
    eapply Forall_impl; [by apply Hsub|]; intros y; apply beneath_child|done].
  destruct Hown as [->|[st ->]]; repeat constructor. simpl.
  exists [name x]. split_and!; simpl; [done|done|lia|done].
Qed.

Lemma PreOrderN_beneath host n : forall p k ys,
  PreOrderN host n p k ys -> Forall (fun y => beneath host p k y.2) ys.
Proof.
  induction n as [|n IH]; simpl; intros p k ys H.
  - subst. constructor.
  - destruct H as [->|(dir & ds & _ & _ & Hb)]; [constructor|].
    eapply Blocks_beneath; [|done]. apply IH.
Qed.

(** With no walk below, a frame yields entries of its own directory only. *)
Lemma Blocks_flat host p k ds ys :
  Blocks host (fun _ _ zs => zs = []) p k ds ys ->
  Forall (fun y => y.1 = p /\ depth y.2 = k /\ dirent y.2 ∈ ds /\
                   path y.2 = joinPath host p (name (dirent y.2))) ys.
Proof.
  induction 1 as [|x ds own below rest Hown -> _ IH]; [constructor|].
  rewrite !Forall_app. split_and!; [|constructor|].
  - destruct Hown as [->|[st ->]]; repeat constructor.
  - eapply Forall_impl; [done|]. intros y (?&?&?&?). split_and!; [done..| |done].
    by right.
Qed.
End Depth.


(* ===================================================================== *)
(** ** The depth limit *)
(* ===================================================================== *)

Module Pruning.
Import Sorting.

Section Ext.
Variable host : Host.
Variable options : WalkerOptions.

Lemma bind_ext {A B} (m : Gen A) (f g : A -> Gen B) w :
  (forall a w', f a w' = g a w') -> bind m f w = bind m g w.
Proof. intros H. unfold bind. destruct (m w) as [[t1 w1] [a|e|]]; [|done..]. by rewrite H. Qed.

Lemma try_catch_ext {A} (m m' : Gen A) h w :
  m w = m' w -> try_catch m h w = try_catch m' h w.
Proof. intros H. unfold try_catch. by rewrite H. Qed.

Lemma finally_close_ext {A} (m m' : Gen A) w :
  m w = m' w -> finally_close m w = finally_close m' w.
Proof. intros H. unfold finally_close. by rewrite H. Qed.

Variables recurse recurse' : string -> nat -> Gen unit.
Variable k : nat.
Hypothesis same : forall p w, recurse p (S k) w = recurse' p (S k) w.

Lemma processEntry_ext dirPath x w :
  processEntry host options recurse dirPath k x w
  = processEntry host options recurse' dirPath k x w.
Proof.
  unfold processEntry. apply bind_ext. intros isDir w'.
  apply bind_ext. intros isIncluded w''. destruct isDir; [|done].
  apply bind_ext. intros u w3. apply same.
Qed.

Lemma forAwait_ext dirPath flt ds : forall w,
  forAwait options dirPath ds flt (processEntry host options recurse dirPath k) w
  = forAwait options dirPath ds flt (processEntry host options recurse' dirPath k) w.
Proof.
  induction ds as [|x ds IH]; intros w; simpl; [done|].
  apply bind_ext. intros _ w1. apply bind_ext. intros [] w2; [done|].
  unfold bind. rewrite processEntry_ext.
  destruct (processEntry _ _ _ _ _ _ _) as [[t1 w3] [a|e|]]; [|done..]. by rewrite IH.
Qed.

Lemma frame_ext dirPath w :
  frame host options recurse dirPath k w = frame host options recurse' dirPath k w.
Proof.
  unfold frame. apply bind_ext. intros [] w1; [done|].
  destruct (depth_exceeds options k); [done|].
  apply bind_ext. intros go w2. destruct (negb go); [done|].
  apply bind_ext. intros [dirHandle|] w3; [|done].
  unfold scan. apply finally_close_ext, try_catch_ext.
  destruct (sort options); [|apply forAwait_ext].
  apply bind_ext. intros es w4. apply forAwait_ext.
Qed.
End Ext.

Lemma walk_pruned host options fuel dirPath k w :
  depth_exceeds options k = true ->
  walk host options (S fuel) dirPath k w = ([], w, Normal tt).
Proof.
  intros Hd. simpl. unfold frame, bind, signal_aborted, ret. rewrite Hd.
  by destruct (match signal options with Some _ => _ | None => _ end).
Qed.

Section Exact.
Variable host : Host.
Variable options : WalkerOptions.
Hypothesis no_signal : signal options = None.
Hypothesis no_follow : followSymlinks options = false.
Hypothesis lenient : suppressErrors options = true \/ withStats options = false.

Lemma yieldEntry_exact dirPath x k w :
  wp (yieldEntry host options dirPath (joinPath host dirPath (name x)) x k) w
     (fun t _ c => yields_of t = [(dirPath, entry_of host options dirPath k x)] /\
                   exists u, c = Normal u).
Proof.
  unfold yieldEntry, entry_of, stats_for.
  destruct lenient as [Hs|Hs]; rewrite Hs; simpl.
  - repeat wp_step; norm; eauto.
  - repeat wp_step; norm; eauto.
Qed.

Lemma processEntry_exact dirPath x k w :
  wp (processEntry host options (fun _ _ => ret tt) dirPath k x) w
     (fun t _ c =>
        yields_of t =
          (if selected options x then [(dirPath, entry_of host options dirPath k x)] else [])
        /\ exists u, c = Normal u).
Proof.
  unfold processEntry, classify, selected. rewrite no_follow, andb_false_r.
  destruct (isDirectory x), (yieldDirectories options),
    (applyFilters options (name x)); simpl; repeat wp_step.
  all: try (wp_use yieldEntry_exact; destruct H as [Ht [u [=]]]; repeat wp_step).
  all: norm; rewrite ?Ht; eauto.
Qed.

Lemma forAwait_exact dirPath k flt ds : forall w,
  wp (forAwait options dirPath ds flt
        (processEntry host options (fun _ _ => ret tt) dirPath k)) w
     (fun t _ _ =>
        yields_of t =
          (fun x => (dirPath, entry_of host options dirPath k x))
            <$> filter (fun x => selected options x = true) ds).
Proof.
  induction ds as [|x ds IH]; intros w; simpl.
  - repeat wp_step; by norm.
  - repeat wp_step; [unfold cancelled in *; rewrite no_signal in *; discriminate|].
    wp_use processEntry_exact; destruct H as [Ht [u [=]]].
    wp_use IH; norm; rewrite Ht, H; rewrite filter_cons;
      destruct (selected options x); simpl; by rewrite ?decide_True, ?decide_False by done.
Qed.
End Exact.


Section Total.
Variable host : Host.
Variable options : WalkerOptions.

Lemma yieldEntry_total dirPath entryPath x k w :
  wp (yieldEntry host options dirPath entryPath x k) w
     (fun _ _ c => exhausted c = false).
Proof. unfold yieldEntry. repeat wp_step; done. Qed.

Lemma processEntry_total recurse dirPath k x w :
  (forall p j w', wp (recurse p j) w' (fun _ _ c => exhausted c = false)) ->
  wp (processEntry host options recurse dirPath k x) w
     (fun _ _ c => exhausted c = false).
Proof.
  intros Hrec. unfold processEntry, classify. repeat wp_step; try done.
  all: try (wp_use yieldEntry_total; try done).
  all: try (wp_use Hrec; done).
Qed.

Lemma forAwait_total dirPath flt body :
  (forall x w', wp (body x) w' (fun _ _ c => exhausted c = false)) ->
  forall ds w,
    wp (forAwait options dirPath ds flt body) w (fun _ _ c => exhausted c = false).
Proof.
  intros Hbody ds. induction ds as [|x ds IH]; intros w; simpl.
  - repeat wp_step; done.
  - repeat wp_step; [done|]. wp_use Hbody; try done; wp_use IH; done.
Qed.

Lemma collect_total dirPath flt ds : forall acc w,
  wp (collect options dirPath ds flt acc) w (fun _ _ c => exhausted c = false).
Proof.
  induction ds as [|x ds IH]; intros acc w; simpl.
  - repeat wp_step; done.
  - repeat wp_step; [done|]. apply IH.
Qed.

Lemma frame_total recurse dirPath k w :
  (forall p j w', wp (recurse p j) w' (fun _ _ c => exhausted c = false)) ->
  wp (frame host options recurse dirPath k) w (fun _ _ c => exhausted c = false).
Proof.
  intros Hrec. unfold frame, registerIdentity, openDirectory, scan.
  repeat wp_step; try done.
  all: try (wp_use collect_total; try done; repeat wp_step; try done).
  all: wp_use forAwait_total; try done; repeat wp_step; try done.
  all: intros; by apply processEntry_total.
Qed.
End Total.

Lemma frame_exact host options root w dir :
  signal options = None -> sort options = None -> followSymlinks options = false ->
  suppressErrors options = true \/ withStats options = false ->
  depth_exceeds options 0 = false ->
  opendir host root = Ok dir ->
  wp (frame host options (fun _ _ => ret tt) root 0) w
     (fun t _ _ =>
        yields_of t =
          (fun x => (root, entry_of host options root 0 x))
            <$> filter (fun x => selected options x = true) (entries dir)).
Proof.
  intros Hsig Hsort Hfol Hlen Hdepth Hopen.
  unfold frame, registerIdentity, openDirectory, scan.
  rewrite Hdepth, Hsort, Hfol, Hopen.
  repeat wp_step.
  all: try (unfold cancelled in *; rewrite Hsig in *; discriminate).
  wp_use forAwait_exact; try done; repeat wp_step; norm; done.
Qed.

End Pruning.

(** C5: the yielded sequence of every run of [walk] is in pre-order,
    depth first.  For each entry of the directory in turn, in the order
    in which the frame goes through the listing, the frame yields the
    entry itself, if it yields it at all, then everything the walk of
    that entry yields, and only then goes on to the later siblings; and
    what the walk of the entry yields is again such a sequence. *)
Theorem walk_is_preorder
    (host : Host) (options : WalkerOptions) (fuel : nat)
    (dirPath : string) (currentDepth : nat) (w : World) :
  PreOrder host dirPath currentDepth
    (yields_of (trace (walk host options fuel dirPath currentDepth w))).
Proof.
  apply (Order.PreOrderN_PreOrder host fuel).
  pose proof (Order.walk_preorderN host options fuel dirPath currentDepth w) as H.
  unfold wp in H. by destruct (walk _ _ _ _ _ _) as [[t w'] c].
Qed.

(** C10: every entry yielded by [walk root] at depth 0 lies strictly
    beneath the root: its path is the root joined with one name or
    more, the last being the name of its own dirent, so that the root
    itself, which is no entry of a listing, is never yielded, whatever
    the options; and its depth is the number of names less one: 0 for an
    entry directly under the root, one more for each level below. *)
Theorem yielded_entries_lie_beneath_the_root
    (host : Host) (options : WalkerOptions) (fuel : nat) (root : string) (w : World) :
  Forall (beneath host root 0) (yielded (trace (walk host options fuel root 0 w))).
Proof.
  rewrite yielded_yields_of, Forall_fmap.
  apply (Depth.PreOrderN_beneath host fuel).
  pose proof (Order.walk_preorderN host options fuel root 0 w) as H.
  unfold wp in H. by destruct (walk _ _ _ _ _ _) as [[t w'] c].
Qed.

(** C3: with [maxDepth = 0] the frame of the root runs and every walk
    of depth 1 returns at once: the run is the run of the root's frame
    with nothing below, it ends without running out of fuel, every
    entry it yields is an entry of the root's own listing, yielded by
    the root's frame at depth 0; and when nothing cuts the loop short
    (no token, no sort, symlinks not followed, no [fs.stat] that may
    throw) it yields, in order, exactly the entries of the root's
    listing that pass the filters and are no directories (directories
    too when [yieldDirectories] is set). *)
Theorem maxDepth_zero_yields_the_root_listing
    (host : Host) (options : WalkerOptions) (fuel : nat) (root : string) (w : World) :
  maxDepth options = NFinite 0 ->
  2 <= fuel ->
  let r := walk host options fuel root 0 w in
  r = frame host options (fun _ _ => ret tt) root 0 w /\
  exhausted (completion r) = false /\
  Forall (fun y => y.1 = root /\ depth y.2 = 0 /\
                   path y.2 = joinPath host root (name (dirent y.2)) /\
                   exists dir, opendir host root = Ok dir /\ dirent y.2 ∈ entries dir)
         (yields_of (trace r)) /\
  (forall dir,
     opendir host root = Ok dir ->
     signal options = None -> sort options = None -> followSymlinks options = false ->
     suppressErrors options = true \/ withStats options = false ->
     yielded (trace r) =
       entry_of host options root 0
         <$> filter (fun x => selected options x = true) (entries dir)).
Proof.
  intros Hmax Hfuel r.
  destruct fuel as [|[|fuel]]; [lia..|].
  assert (Hd0 : depth_exceeds options 0 = false) by (unfold depth_exceeds; by rewrite Hmax).
  assert (Hd1 : depth_exceeds options 1 = true) by (unfold depth_exceeds; by rewrite Hmax).
  assert (Hr : r = frame host options (fun _ _ => ret tt) root 0 w).
  { subst r. change (walk host options (S (S fuel)) root 0 w)
      with (frame host options (walk host options (S fuel)) root 0 w).
    apply Pruning.frame_ext. intros p w'. by apply Pruning.walk_pruned. }
  split; [done|]. rewrite Hr. clear Hr r. split_and!.
  - pose proof (Pruning.frame_total host options (fun _ _ => ret tt) root 0 w) as H.
    unfold wp in H. destruct (frame _ _ _ _ _ _) as [[t w'] c]. by apply H.
  - pose proof (Order.frame_scan host options (fun _ _ zs => zs = [])
                  (fun _ _ => eq_refl) (fun _ _ => ret tt) root 0 w
                  (fun _ _ _ => eq_refl)) as H.
    unfold wp in H. destruct (frame _ _ _ _ _ _) as [[t w'] c].
    change (trace (t, w', c)) with t.
    destruct H as [->|(dir & ds & Ho & Hp & Hb)]; [constructor|].
    eapply Forall_impl; [by apply Depth.Blocks_flat|].
    intros y (?&?&?&?). split_and!; [done..|]. exists dir. split; [done|].
    by eapply Sorting.processing_order_elem.
  - intros dir Ho Hsig Hsort Hfol Hlen.
    pose proof (Pruning.frame_exact host options root w dir Hsig Hsort Hfol Hlen Hd0 Ho) as H.
    unfold wp in H. destruct (frame _ _ _ _ _ _) as [[t w'] c].
    change (trace (t, w', c)) with t.
    rewrite yielded_yields_of, H, <- list_fmap_compose. done.
Qed.

Lemma maxDepth_zero_yields_the_root_listing_witness :
  let options := with_maxDepth (NFinite 0) defaults in
  maxDepth options = NFinite 0 /\ 2 <= 3 /\
  path <$> yielded (trace (walk sample options 3 "root" 0 start))
    = ["root/alpha.txt"; "root/beta.txt"].
Proof.
  split_and!; [reflexivity|lia|].
  pose proof (maxDepth_zero_yields_the_root_listing sample
                (with_maxDepth (NFinite 0) defaults) 3 "root" start eq_refl
                ltac:(lia)) as (_ & _ & _ & H).
  rewrite (H _ eq_refl eq_refl eq_refl eq_refl (or_introl eq_refl)). reflexivity.
Defined.

(* ===================================================================== *)
(** ** Cancellation *)
(* ===================================================================== *)

Module Cancellation.

Section Pass.
Variable host : Host.
Variable options : WalkerOptions.

Local Abbreviation fair := (Spec.fair options).
Local Abbreviation polled := (Spec.polled options).
Local Abbreviation sat := Spec.holds.

Lemma cancelled_mono a b :
  cancelled options a = true -> a <= b -> cancelled options b = true.
Proof.
  unfold cancelled. destruct (signal options) as [[t|]|]; simpl; try done.
  rewrite !bool_decide_eq_true. lia.
Qed.

Lemma late_app t1 t2 : late options (t1 ++ t2) = late options t1 ++ late options t2.
Proof. unfold late. by rewrite stamps_app, filter_app. Qed.

Lemma late_nil t : stamps t = [] -> late options t = [].
Proof. unfold late. by intros ->. Qed.

Lemma silent_polled w t w' : silent w t w' -> polled w t w'.
Proof.
  intros [Hc Hs]. split; [|done]. split_and!; [done|rewrite Hs; constructor|].
  rewrite late_nil by done. simpl. lia.
Qed.

Lemma polled_fair w t w' : polled w t w' -> fair w t w'.
Proof. by intros [? _]. Qed.

Lemma silent_app w t1 w1 t2 w2 :
  silent w t1 w1 -> silent w1 t2 w2 -> silent w (t1 ++ t2) w2.
Proof. intros [? H1] [? H2]. split; [lia|]. by rewrite stamps_app, H1, H2. Qed.

Lemma fair_app w t1 w1 t2 w2 :
  fair w t1 w1 -> polled w1 t2 w2 -> fair w (t1 ++ t2) w2.
Proof.
  intros (Hc1 & Hr1 & Hl1) [(Hc2 & Hr2 & Hl2) Hg]. split_and!; [lia| |].
  - rewrite stamps_app, Forall_app. split.
    + eapply Forall_impl; [done|]. simpl. lia.
    + eapply Forall_impl; [done|]. simpl. lia.
  - rewrite late_app, length_app.
    destruct (late options t1) as [|time l] eqn:Hlate; [simpl; lia|].
    assert (Hin : time ∈ late options t1) by (rewrite Hlate; left).
    unfold late in Hin. apply list_elem_of_filter in Hin as [Hcan Hin].
    rewrite Forall_forall in Hr1. specialize (Hr1 _ Hin).
    rewrite (late_nil t2); [simpl in *; lia|].
    apply Hg. eapply cancelled_mono; [done|lia].
Qed.

Lemma fair_app_silent w t1 w1 t2 w2 :
  silent w t1 w1 -> fair w1 t2 w2 -> fair w (t1 ++ t2) w2.
Proof.
  intros [Hc1 Hs1] (Hc2 & Hr2 & Hl2). split_and!; [lia| |].
  - rewrite stamps_app, Hs1. simpl. eapply Forall_impl; [done|]. simpl. lia.
  - by rewrite late_app, late_nil.
Qed.

Lemma polled_app w t1 w1 t2 w2 :
  polled w t1 w1 -> polled w1 t2 w2 -> polled w (t1 ++ t2) w2.
Proof.
  intros [Hf1 Hg1] H2. split; [by eapply fair_app|].
  intros Hcan. rewrite stamps_app, Hg1 by done. simpl.
  apply H2. eapply cancelled_mono; [done|]. apply Hf1.
Qed.

(** *** Rules *)

Lemma sat_bind (J1 J2 J : World -> list Event -> World -> Prop) {A B}
    (m : Gen A) (f : A -> Gen B) :
  (forall w t1 w1 t2 w2, J1 w t1 w1 -> J2 w1 t2 w2 -> J w (t1 ++ t2) w2) ->
  (forall w t w', J1 w t w' -> J w t w') ->
  sat J1 m -> (forall a, sat J2 (f a)) -> sat J (bind m f).
Proof.
  intros Happ Hweak Hm Hf w. apply wp_bind.
  eapply wp_mono; [apply Hm|]. intros t1 w1 [a|e|] H1; cbv beta match; auto.
  eapply wp_mono; [apply Hf|]. intros t2 w2 c2 H2. eauto.
Qed.

Lemma sat_try_catch (J1 J2 J : World -> list Event -> World -> Prop) {A}
    (m : Gen A) (h : JsError -> Gen A) :
  (forall w t1 w1 t2 w2, J1 w t1 w1 -> J2 w1 t2 w2 -> J w (t1 ++ t2) w2) ->
  (forall w t w', J1 w t w' -> J w t w') ->
  sat J1 m -> (forall e, sat J2 (h e)) -> sat J (try_catch m h).
Proof.
  intros Happ Hweak Hm Hh w. apply wp_try_catch.
  eapply wp_mono; [apply Hm|]. intros t1 w1 [a|e|] H1; cbv beta match; auto.
  eapply wp_mono; [apply Hh|]. intros t2 w2 c2 H2. eauto.
Qed.

Lemma silent_bind {A B} (m : Gen A) (f : A -> Gen B) :
  sat silent m -> (forall a, sat silent (f a)) -> sat silent (bind m f).
Proof. apply sat_bind; [apply silent_app|done]. Qed.

Lemma fair_bind {A B} (m : Gen A) (f : A -> Gen B) :
  sat fair m -> (forall a, sat polled (f a)) -> sat fair (bind m f).
Proof. apply sat_bind; [apply fair_app|done]. Qed.

Lemma fair_bind_silent {A B} (m : Gen A) (f : A -> Gen B) :
  sat silent m -> (forall a, sat fair (f a)) -> sat fair (bind m f).
Proof.
  apply sat_bind; [apply fair_app_silent|]. intros. by apply polled_fair, silent_polled.
Qed.

Lemma polled_bind {A B} (m : Gen A) (f : A -> Gen B) :
  sat polled m -> (forall a, sat polled (f a)) -> sat polled (bind m f).
Proof. apply sat_bind; [apply polled_app|done]. Qed.

Lemma silent_try_catch {A} (m : Gen A) h :
  sat silent m -> (forall e, sat silent (h e)) -> sat silent (try_catch m h).
Proof. apply sat_try_catch; [apply silent_app|done]. Qed.

Lemma fair_try_catch {A} (m : Gen A) h :
  sat fair m -> (forall e, sat silent (h e)) -> sat fair (try_catch m h).
Proof.
  apply sat_try_catch; [|done]. intros. eapply fair_app; [done|]. by apply silent_polled.
Qed.

Lemma polled_try_catch {A} (m : Gen A) h :
  sat polled m -> (forall e, sat silent (h e)) -> sat polled (try_catch m h).
Proof.
  apply sat_try_catch; [|done]. intros. eapply polled_app; [done|]. by apply silent_polled.
Qed.

Lemma polled_finally_close {A} (m : Gen A) : sat polled m -> sat polled (finally_close m).
Proof.
  intros Hm w. apply wp_finally_close. eapply wp_mono; [apply Hm|].
  intros t w1 c [(Hc & Hr & Hl) Hg]. split; [|done].
  split_and!; simpl; [lia| |done]. eapply Forall_impl; [done|]. simpl. lia.
Qed.

Lemma sat_weaken (J J' : World -> list Event -> World -> Prop) {A} (m : Gen A) :
  (forall w t w', J w t w' -> J' w t w') -> sat J m -> sat J' m.
Proof. intros HJ Hm w. eapply wp_mono; [apply Hm|]. intros. by apply HJ. Qed.

Lemma silent_is_polled {A} (m : Gen A) : sat silent m -> sat polled m.
Proof. apply sat_weaken, silent_polled. Qed.
Lemma silent_is_fair {A} (m : Gen A) : sat silent m -> sat fair m.
Proof. apply sat_weaken. intros. by apply polled_fair, silent_polled. Qed.
Lemma polled_is_fair {A} (m : Gen A) : sat polled m -> sat fair m.
Proof. apply sat_weaken, polled_fair. Qed.

Lemma silent_ret {A} (a : A) : sat silent (ret a).
Proof. intros w. by wp_step. Qed.
Lemma silent_throw {A} e : sat silent (throw (A:=A) e).
Proof. intros w. by wp_step. Qed.
Lemma silent_out_of_fuel {A} : sat silent (out_of_fuel (A:=A)).
Proof. intros w. by wp_step. Qed.
Lemma silent_tick : sat silent tick.
Proof. intros w. wp_step. split; simpl; [lia|done]. Qed.
Lemma silent_reject {A} site p e : sat silent (reject (A:=A) site p e).
Proof. intros w. by wp_step. Qed.
Lemma silent_await {A} site p (r : Result JsError A) : sat silent (await site p r).
Proof. intros w. wp_step; (split; simpl; [lia|done]). Qed.
Lemma silent_visited_has p : sat silent (visited_has p).
Proof. intros w. by wp_step. Qed.
Lemma silent_visited_add p : sat silent (visited_add p).
Proof. intros w. by wp_step. Qed.
Lemma silent_opened p : sat silent (opened p).
Proof. intros w. by wp_step. Qed.
Lemma silent_progress e : sat silent (progress e).
Proof. intros w. wp_step. split; simpl; [lia|done]. Qed.
Lemma silent_signal_aborted : sat silent (signal_aborted options).
Proof. intros w. by wp_step. Qed.

Lemma fair_yield f e : sat fair (yield_ f e).
Proof.
  intros w. wp_step. split_and!; simpl; [lia|repeat constructor; lia|].
  unfold late. rewrite stamps_yield. rewrite filter_cons. case_decide; simpl; lia.
Qed.

(** The key rule: a piece that reads the token first, and goes on only
    when it is not set, yields nothing once the token is set. *)
Lemma polled_poll (m : Gen unit) :
  sat fair m ->
  sat polled (ab <- signal_aborted options ;; if ab then ret tt else m).
Proof.
  intros Hm w. repeat wp_step.
  - apply silent_polled. by split.
  - eapply wp_mono; [apply Hm|]. intros t w' c Hf. split; [by rewrite app_nil_l|].
    congruence.
Qed.

Create HintDb cancel.
Local Hint Resolve silent_ret silent_throw silent_out_of_fuel silent_tick silent_reject
  silent_await silent_visited_has silent_visited_add silent_opened silent_progress
  silent_signal_aborted silent_bind silent_try_catch : cancel.

Lemma classify_silent entryPath x : sat silent (classify host options entryPath x).
Proof. unfold classify. destruct (_ && _); auto 6 with cancel. Qed.

Lemma yieldEntry_fair dirPath entryPath x k :
  sat fair (yieldEntry host options dirPath entryPath x k).
Proof.
  unfold yieldEntry. apply fair_bind_silent.
  - destruct (withStats options); [|auto with cancel].
    apply silent_try_catch; [auto with cancel|].
    intros e. destruct (negb _); auto with cancel.
  - intros st. apply fair_bind; [apply fair_yield|].
    intros _. apply silent_is_polled. destruct (onProgress options); auto with cancel.
Qed.

Lemma processEntry_fair recurse dirPath k x :
  (forall p j, sat polled (recurse p j)) ->
  sat fair (processEntry host options recurse dirPath k x).
Proof.
  intros Hrec. unfold processEntry. apply fair_bind_silent; [apply classify_silent|].
  intros isDir. apply fair_bind_silent; [auto with cancel|].
  intros isIncluded. destruct isDir.
  - apply fair_bind; [|done]. destruct (_ && _); [apply yieldEntry_fair|].
    apply silent_is_fair; auto with cancel.
  - destruct isIncluded; [apply yieldEntry_fair|].
    apply silent_is_fair; auto with cancel.
Qed.

Lemma forAwait_polled dirPath flt body :
  (forall x, sat fair (body x)) ->
  forall ds, sat polled (forAwait options dirPath ds flt body).
Proof.
  intros Hbody ds. induction ds as [|x ds IH]; simpl.
  - apply silent_is_polled. apply silent_bind; [auto with cancel|].
    intros _. destruct flt; auto with cancel.
  - apply polled_bind; [apply silent_is_polled; auto with cancel|].
    intros _. apply polled_poll. by apply fair_bind.
Qed.

Lemma collect_silent dirPath flt ds : forall acc, sat silent (collect options dirPath ds flt acc).
Proof.
  induction ds as [|x ds IH]; intros acc; simpl.
  - apply silent_bind; [auto with cancel|]. intros _. destruct flt; auto with cancel.
  - apply silent_bind; [auto with cancel|]. intros _.
    apply silent_bind; [auto with cancel|]. intros []; auto with cancel.
Qed.

Lemma frame_polled recurse dirPath k :
  (forall p j, sat polled (recurse p j)) ->
  sat polled (frame host options recurse dirPath k).
Proof.
  intros Hrec. unfold frame. apply polled_poll.
  destruct (depth_exceeds options k); [apply silent_is_fair; auto with cancel|].
  apply fair_bind_silent.
  { unfold registerIdentity. destruct (followSymlinks options); [|auto with cancel].
    apply silent_try_catch.
    - apply silent_bind; [auto with cancel|]. intros rp.
      apply silent_bind; [auto with cancel|]. intros []; auto with cancel.
    - intros e. apply silent_bind; [auto with cancel|]. intros []; [auto with cancel|].
      apply silent_bind; [auto with cancel|]. intros _. destruct (negb _); auto with cancel. }
  intros go. destruct (negb go); [apply silent_is_fair; auto with cancel|].
  apply fair_bind_silent.
  { unfold openDirectory. apply silent_try_catch; [auto 6 with cancel|].
    intros e. destruct (negb _); auto with cancel. }
  intros [dirHandle|]; [|apply silent_is_fair; auto with cancel].
  apply polled_is_fair. unfold scan. apply polled_finally_close, polled_try_catch.
  - assert (Hb : forall x, sat fair (processEntry host options recurse dirPath k x))
      by (intros x; by apply processEntry_fair).
    destruct (sort options).
    + apply polled_bind; [apply silent_is_polled, collect_silent|].
      intros es. by apply forAwait_polled.
    + by apply forAwait_polled.
  - intros e. destruct (negb _); auto with cancel.
Qed.

Lemma walk_polled fuel : forall dirPath k, sat polled (walk host options fuel dirPath k).
Proof.
  induction fuel as [|fuel IH]; intros dirPath k; simpl.
  - apply silent_is_polled. auto with cancel.
  - by apply frame_polled.
Qed.

End Pass.

Lemma stamps_yielded t : length (stamps t) = length (yielded t).
Proof.
  induction t as [|[] t IH]; simpl; try done.
  unfold stamps, yielded in *. simpl. by rewrite IH.
Qed.

Lemma timely_late options t :
  length (stamps t) = length (timely options t) + length (late options t).
Proof.
  unfold timely, late. induction (stamps t) as [|time l IH]; [done|].
  rewrite !filter_cons. destruct (cancelled options time) eqn:E.
  all: repeat case_decide; simpl; try lia; congruence.
Qed.

End Cancellation.


(** C7: in every run of [walk], at most one entry is yielded at a
    clock reading at which the token is already set; so, [N] being the
    number of entries yielded before the cancellation request, fewer
    than [N + 2] entries are yielded in all.  The token is read when a
    frame is entered and before each sibling, and a frame entered with
    the token set yields nothing.  (The flag is a function of the
    clock, which ticks at every await, every yield and every call of a
    function of the caller.) *)
Theorem cancellation_lets_at_most_one_more
    (host : Host) (options : WalkerOptions) (fuel : nat)
    (dirPath : string) (currentDepth : nat) (w : World) :
  let t := trace (walk host options fuel dirPath currentDepth w) in
  length (late options t) <= 1 /\
  length (yielded t) < length (timely options t) + 2 /\
  (cancelled options (clock w) = true -> yielded t = []).
Proof.
  intros t. subst t.
  pose proof (Cancellation.walk_polled host options fuel dirPath currentDepth w) as H.
  unfold wp in H. destruct (walk _ _ _ _ _ _) as [[t w'] c].
  change (trace (t, w', c)) with t.
  destruct H as [(Hc & Hr & Hl) Hg]. split_and!; [done| |].
  - rewrite <- Cancellation.stamps_yielded, (Cancellation.timely_late options). lia.
  - intros Hcan. apply Hg in Hcan. apply length_zero_iff_nil.
    by rewrite <- Cancellation.stamps_yielded, Hcan.
Qed.

(** The one late entry can surface: the token is set while the frame
    awaits the [fs.stat] of [alpha.txt], after the poll of the loop,
    and the entry is yielded all the same; the next poll ends the walk. *)
Example one_late_entry_surfaces :
  let options :=
    mkOptions NPosInf VNull VNull false false true (Some (AbortsAt 4)) None None true in
  let t := trace (walk sample options 4 "root" 0 start) in
  path <$> yielded t = ["root/alpha.txt"] /\ late options t = [4] /\ timely options t = [].
Proof. repeat split. Qed.

(* ===================================================================== *)
(** ** Filters *)
(* ===================================================================== *)

Module Filters.
Section Pass.
Variable host : Host.
Variable options : WalkerOptions.
Local Abbreviation options0 := (without_filters options).
Local Abbreviation sim := (simulates options).

Hypothesis no_signal : signal options = None.
Hypothesis lenient : suppressErrors options = true \/ withStats options = false.

Ltac open_hides := unfold hides, trace, final, completion in *; cbn [fst snd] in *.

Lemma sim_bind {A A0 B B0} (R : A -> A0 -> Prop) (R' : B -> B0 -> Prop)
    (m : Gen A) (m0 : Gen A0) (f : A -> Gen B) (f0 : A0 -> Gen B0) :
  sim R m m0 -> (forall a a0, R a a0 -> sim R' (f a) (f0 a0)) ->
  sim R' (bind m f) (bind m0 f0).
Proof.
  intros Hm Hf w w0 Hv. specialize (Hm w w0 Hv). unfold bind.
  destruct (m w) as [[t1 w1] c1], (m0 w0) as [[t1' w1'] c1'].
  open_hides. destruct Hm as (Hy & Ho & Hv1 & Hc).
  destruct c1 as [a|e|], c1' as [a0|e0|]; simpl in Hc; try done.
  specialize (Hf a a0 Hc w1 w1' Hv1).
  destruct (f a w1) as [[t2 w2] c2], (f0 a0 w1') as [[t2' w2'] c2'].
  open_hides. destruct Hf as (Hy2 & Ho2 & Hv2 & Hc2).
  split_and!; [|by rewrite !opens_app, Ho, Ho2|done..].
  by rewrite !yielded_app, filter_app, Hy, Hy2.
Qed.

Lemma sim_try_catch {A A0} (R : A -> A0 -> Prop)
    (m : Gen A) (m0 : Gen A0) (h : JsError -> Gen A) (h0 : JsError -> Gen A0) :
  sim R m m0 -> (forall e, sim R (h e) (h0 e)) ->
  sim R (try_catch m h) (try_catch m0 h0).
Proof.
  intros Hm Hh w w0 Hv. specialize (Hm w w0 Hv). unfold try_catch.
  destruct (m w) as [[t1 w1] c1], (m0 w0) as [[t1' w1'] c1'].
  open_hides. destruct Hm as (Hy & Ho & Hv1 & Hc).
  destruct c1 as [a|e|], c1' as [a0|e0|]; simpl in Hc; try done.
  subst e0. specialize (Hh e w1 w1' Hv1).
  destruct (h e w1) as [[t2 w2] c2], (h0 e w1') as [[t2' w2'] c2'].
  open_hides. destruct Hh as (Hy2 & Ho2 & Hv2 & Hc2).
  split_and!; [|by rewrite !opens_app, Ho, Ho2|done..].
  by rewrite !yielded_app, filter_app, Hy, Hy2.
Qed.

Lemma sim_finally_close {A A0} (R : A -> A0 -> Prop) (m : Gen A) (m0 : Gen A0) :
  sim R m m0 -> sim R (finally_close m) (finally_close m0).
Proof.
  intros Hm w w0 Hv. specialize (Hm w w0 Hv). unfold finally_close.
  by destruct (m w) as [[t1 w1] c1], (m0 w0) as [[t1' w1'] c1'].
Qed.

Lemma sim_ret {A A0} (R : A -> A0 -> Prop) a a0 : R a a0 -> sim R (ret a) (ret a0).
Proof. intros HR w w0 Hv. by split_and!. Qed.
Lemma sim_throw {A A0} (R : A -> A0 -> Prop) e : sim R (throw e) (throw e).
Proof. intros w w0 Hv. by split_and!. Qed.
Lemma sim_out_of_fuel {A A0} (R : A -> A0 -> Prop) : sim R out_of_fuel out_of_fuel.
Proof. intros w w0 Hv. by split_and!. Qed.
Lemma sim_tick : sim eq tick tick.
Proof. intros w w0 Hv. by split_and!. Qed.
Lemma sim_reject {A A0} (R : A -> A0 -> Prop) site p e :
  sim R (reject site p e) (reject site p e).
Proof. intros w w0 Hv. by split_and!. Qed.
Lemma sim_await {A} site p (r : Result JsError A) : sim eq (await site p r) (await site p r).
Proof.
  unfold await. eapply (sim_bind eq); [apply sim_tick|]. intros _ _ _.
  destruct r; [by apply sim_ret|apply sim_reject].
Qed.
Lemma sim_visited_has p : sim eq (visited_has p) (visited_has p).
Proof. intros w w0 Hv. split_and!; simpl; [done..|]. by rewrite Hv. Qed.
Lemma sim_visited_add p : sim eq (visited_add p) (visited_add p).
Proof. intros w w0 Hv. split_and!; simpl; [done..| |done]. by rewrite Hv. Qed.
Lemma sim_opened p : sim eq (opened p) (opened p).
Proof. intros w w0 Hv. by split_and!. Qed.
Lemma sim_progress e : sim eq (progress e) (progress e).
Proof. intros w w0 Hv. by split_and!. Qed.
Lemma sim_signal_aborted : sim eq (signal_aborted options) (signal_aborted options0).
Proof. intros w w0 Hv. split_and!; simpl; [done..|]. by rewrite no_signal. Qed.

Lemma sim_yield f e : passes options e -> sim eq (yield_ f e) (yield_ f e).
Proof.
  intros Hp w w0 Hv. split_and!; [|done..]. unfold yield_, trace. cbn [fst].
  change (yielded [EvYield (clock w) f e]) with [e].
  change (yielded [EvYield (clock w0) f e]) with [e].
  by rewrite filter_cons, decide_True.
Qed.

Create HintDb filters.
Local Hint Resolve sim_throw sim_out_of_fuel sim_tick sim_reject sim_await sim_visited_has
  sim_visited_add sim_opened sim_progress sim_signal_aborted : filters.
Local Hint Extern 1 (simulates _ _ (ret _) (ret _)) => apply sim_ret; done : filters.

Lemma classify_sim entryPath x :
  sim eq (classify host options entryPath x) (classify host options0 entryPath x).
Proof.
  unfold classify. simpl. destruct (_ && _); [|auto with filters].
  apply sim_try_catch; [|auto with filters].
  eapply (sim_bind eq); [auto with filters|]. intros s ? <-. auto with filters.
Qed.

Lemma stats_sim entryPath :
  sim eq
    (if withStats options then
       try_catch (s <- await AtStats entryPath (stat host entryPath) ;; ret (Some s))
         (fun e => if negb (suppressErrors options) then throw e else ret None)
     else ret None)
    (if withStats options0 then
       try_catch (s <- await AtStats entryPath (stat host entryPath) ;; ret (Some s))
         (fun e => if negb (suppressErrors options0) then throw e else ret None)
     else ret None).
Proof.
  simpl. destruct (withStats options); [|auto with filters].
  apply sim_try_catch.
  - eapply (sim_bind eq); [auto with filters|]. intros s ? <-. auto with filters.
  - intros e. destruct (negb _); auto with filters.
Qed.

Lemma yieldEntry_sim dirPath entryPath x k :
  applyFilters options (name x) = true ->
  sim eq (yieldEntry host options dirPath entryPath x k)
         (yieldEntry host options0 dirPath entryPath x k).
Proof.
  intros Hp. unfold yieldEntry. eapply (sim_bind eq); [apply stats_sim|].
  intros st ? <-. eapply (sim_bind eq); [by apply sim_yield|]. intros _ _ _.
  simpl. destruct (onProgress options); auto with filters.
Qed.

(** An entry the filters hide: the run without filters yields it and
    goes on, the run with the filters just goes on. *)
Lemma yieldEntry_hidden dirPath entryPath x k :
  applyFilters options (name x) = false ->
  sim eq (ret tt) (yieldEntry host options0 dirPath entryPath x k).
Proof.
  intros Hp w w0 Hv.
  assert (Hwp : wp (yieldEntry host options0 dirPath entryPath x k) w0
            (fun t w' c => yielded t = [mkEntry entryPath x k (stats_for host options entryPath)]
                           /\ opens t = [] /\ visited w' = visited w0 /\ c = Normal tt)).
  { unfold yieldEntry, stats_for. simpl.
    destruct lenient as [Hs|Hs]; rewrite Hs; simpl; repeat wp_step; done. }
  unfold wp in Hwp. destruct (yieldEntry _ _ _ _ _ _ _) as [[t w'] c].
  destruct Hwp as (Hy & Ho & Hv' & ->). open_hides. unfold ret.
  split_and!; [|done|simpl; congruence|done].
  cbn [fst]. rewrite Hy, filter_cons, decide_False; [done|]. unfold passes. simpl. congruence.
Qed.

Lemma processEntry_sim recurse recurse0 dirPath k x :
  (forall p j, sim eq (recurse p j) (recurse0 p j)) ->
  sim eq (processEntry host options recurse dirPath k x)
         (processEntry host options0 recurse0 dirPath k x).
Proof.
  intros Hrec. unfold processEntry.
  eapply (sim_bind eq); [apply classify_sim|]. intros isDir ? <-.
  eapply (sim_bind (fun b b0 => b = applyFilters options (name x) /\ b0 = true)).
  { eapply (sim_bind eq); [apply sim_tick|]. intros _ _ _. by apply sim_ret. }
  intros b b0 [-> ->]. simpl.
  destruct isDir.
  - eapply (sim_bind eq); [|intros _ _ _; apply Hrec].
    destruct (yieldDirectories options); simpl; [|auto with filters].
    destruct (applyFilters options (name x)) eqn:Hp.
    + by apply yieldEntry_sim.
    + by apply yieldEntry_hidden.
  - destruct (applyFilters options (name x)) eqn:Hp.
    + by apply yieldEntry_sim.
    + by apply yieldEntry_hidden.
Qed.

Lemma forAwait_sim dirPath flt body body0 :
  (forall x, sim eq (body x) (body0 x)) ->
  forall ds, sim eq (forAwait options dirPath ds flt body)
                    (forAwait options0 dirPath ds flt body0).
Proof.
  intros Hbody ds. induction ds as [|x ds IH]; simpl.
  - eapply (sim_bind eq); [auto with filters|]. intros _ _ _. destruct flt; auto with filters.
  - eapply (sim_bind eq); [auto with filters|]. intros _ _ _.
    eapply (sim_bind eq); [auto with filters|]. intros ab ? <-.
    destruct ab; [auto with filters|].
    eapply (sim_bind eq); [apply Hbody|]. intros _ _ _. apply IH.
Qed.

Lemma collect_sim dirPath flt ds : forall acc,
  sim eq (collect options dirPath ds flt acc) (collect options0 dirPath ds flt acc).
Proof.
  induction ds as [|x ds IH]; intros acc; simpl.
  - eapply (sim_bind eq); [auto with filters|]. intros _ _ _. destruct flt; auto with filters.
  - eapply (sim_bind eq); [auto with filters|]. intros _ _ _.
    eapply (sim_bind eq); [auto with filters|]. intros ab ? <-.
    destruct ab; auto with filters.
Qed.

Lemma frame_sim recurse recurse0 dirPath k :
  (forall p j, sim eq (recurse p j) (recurse0 p j)) ->
  sim eq (frame host options recurse dirPath k) (frame host options0 recurse0 dirPath k).
Proof.
  intros Hrec. unfold frame.
  eapply (sim_bind eq); [auto with filters|]. intros ab ? <-.
  destruct ab; [auto with filters|].
  change (depth_exceeds options0 k) with (depth_exceeds options k).
  destruct (depth_exceeds options k); [auto with filters|].
  eapply (sim_bind eq).
  { unfold registerIdentity. simpl. destruct (followSymlinks options); [|auto with filters].
    apply sim_try_catch.
    - eapply (sim_bind eq); [auto with filters|]. intros rp ? <-.
      eapply (sim_bind eq); [auto with filters|]. intros seen ? <-.
      destruct seen; [auto with filters|].
      eapply (sim_bind eq); [auto with filters|]. intros _ _ _. auto with filters.
    - intros e. eapply (sim_bind eq); [auto with filters|]. intros seen ? <-.
      destruct seen; [auto with filters|].
      eapply (sim_bind eq); [auto with filters|]. intros _ _ _.
      destruct (negb _); auto with filters. }
  intros go ? <-. destruct (negb go); [auto with filters|].
  eapply (sim_bind eq).
  { unfold openDirectory. simpl. apply sim_try_catch.
    - eapply (sim_bind eq); [auto with filters|]. intros d ? <-.
      eapply (sim_bind eq); [auto with filters|]. intros _ _ _. auto with filters.
    - intros e. destruct (negb _); auto with filters. }
  intros h ? <-. destruct h as [dirHandle|]; [|auto with filters].
  unfold scan. simpl. apply sim_finally_close, sim_try_catch.
  - assert (Hb : forall x, sim eq (processEntry host options recurse dirPath k x)
                                  (processEntry host options0 recurse0 dirPath k x))
      by (intros x; by apply processEntry_sim).
    destruct (sort options).
    + eapply (sim_bind eq); [apply collect_sim|]. intros es ? <-. by apply forAwait_sim.
    + by apply forAwait_sim.
  - intros e. destruct (negb _); auto with filters.
Qed.

Lemma walk_sim fuel : forall dirPath k,
  sim eq (walk host options fuel dirPath k) (walk host options0 fuel dirPath k).
Proof.
  induction fuel as [|fuel IH]; intros dirPath k; simpl.
  - auto with filters.
  - by apply frame_sim.
Qed.

End Pass.
End Filters.



(* ===================================================================== *)
(** ** Symlink cycles *)
(* ===================================================================== *)

Module Cycles.
Section Pass.
Variable host : Host.
Variable options : WalkerOptions.
Hypothesis follow : followSymlinks options = true.

Local Abbreviation ident := (identity host).

Lemma opened_ids_app t1 t2 :
  opened_ids host (t1 ++ t2) = opened_ids host t1 ++ opened_ids host t2.
Proof. unfold opened_ids. by rewrite opens_app, fmap_app. Qed.

Lemma yield_keys_app t1 t2 :
  yield_keys host (t1 ++ t2) = yield_keys host t1 ++ yield_keys host t2.
Proof. unfold yield_keys. by rewrite yields_of_app, fmap_app. Qed.

Lemma opened_ids_inert t : opens t = [] -> opened_ids host t = [].
Proof. unfold opened_ids. by intros ->. Qed.

Lemma yield_keys_inert t : yields_of t = [] -> yield_keys host t = [].
Proof. unfold yield_keys. by intros ->. Qed.

Lemma registered_inert t : opens t = [] -> Forall (registered_when_opened host) t.
Proof.
  induction t as [|ev t IH]; intros H; [constructor|].
  destruct ev; try discriminate; (constructor; [done|by apply IH]).
Qed.

Lemma fresh_nil {A} (f : A -> string) w w' : fresh f w w' [].
Proof. split; constructor. Qed.

Lemma fresh_app {A} (f : A -> string) w w1 w2 l1 l2 :
  visited w ⊆ visited w1 -> visited w1 ⊆ visited w2 ->
  fresh f w w1 l1 -> fresh f w1 w2 l2 -> fresh f w w2 (l1 ++ l2).
Proof.
  intros H1 H2 [F1 N1] [F2 N2]. split.
  - apply Forall_app. split; [eapply Forall_impl; [exact F1|]|eapply Forall_impl; [exact F2|]];
      set_solver.
  - apply NoDup_app. split_and!; [done| |done].
    intros a Ha Ha'. rewrite Forall_forall in F1, F2.
    destruct (F1 a Ha), (F2 a Ha'). done.
Qed.

Lemma fresh_weaken {A} (f : A -> string) w0 w w' w1 l :
  fresh f w w' l -> visited w0 ⊆ visited w -> visited w' ⊆ visited w1 ->
  fresh f w0 w1 l.
Proof.
  intros [F N] H1 H2. split; [|done]. eapply Forall_impl; [exact F|]. set_solver.
Qed.

(** *** Inert pieces *)

Lemma inert_app w t1 w1 t2 w2 : inert w t1 w1 -> inert w1 t2 w2 -> inert w (t1 ++ t2) w2.
Proof.
  intros (Hv1 & Ho1 & Hy1) (Hv2 & Ho2 & Hy2). split_and!; [congruence| |].
  - by rewrite opens_app, Ho1, Ho2.
  - by rewrite yields_of_app, Hy1, Hy2.
Qed.

Lemma inert_walked w t w' : inert w t w' -> walked host w t w'.
Proof.
  intros (Hv & Ho & Hy). split_and!.
  - by rewrite Hv.
  - rewrite opened_ids_inert by done. apply fresh_nil.
  - rewrite yield_keys_inert by done. apply fresh_nil.
  - by apply registered_inert.
Qed.

Lemma walked_app w t1 w1 t2 w2 :
  walked host w t1 w1 -> walked host w1 t2 w2 -> walked host w (t1 ++ t2) w2.
Proof.
  intros (Hv1 & Ho1 & Hy1 & Hr1) (Hv2 & Ho2 & Hy2 & Hr2). split_and!.
  - set_solver.
  - rewrite opened_ids_app. by eapply fresh_app.
  - rewrite yield_keys_app. by eapply fresh_app.
  - by apply Forall_app.
Qed.

Local Abbreviation sat := Spec.holds.

Lemma holds_bind (J1 J2 J : World -> list Event -> World -> Prop) {A B}
    (m : Gen A) (f : A -> Gen B) :
  (forall w t1 w1 t2 w2, J1 w t1 w1 -> J2 w1 t2 w2 -> J w (t1 ++ t2) w2) ->
  (forall w t w', J1 w t w' -> J w t w') ->
  sat J1 m -> (forall a, sat J2 (f a)) -> sat J (bind m f).
Proof.
  intros Happ Hweak Hm Hf w. apply wp_bind.
  eapply wp_mono; [apply Hm|]. intros t1 w1 [a|e|] H1; cbv beta match; auto.
  eapply wp_mono; [apply Hf|]. intros t2 w2 c2 H2. eauto.
Qed.

Lemma holds_try_catch (J1 J2 J : World -> list Event -> World -> Prop) {A}
    (m : Gen A) (h : JsError -> Gen A) :
  (forall w t1 w1 t2 w2, J1 w t1 w1 -> J2 w1 t2 w2 -> J w (t1 ++ t2) w2) ->
  (forall w t w', J1 w t w' -> J w t w') ->
  sat J1 m -> (forall e, sat J2 (h e)) -> sat J (try_catch m h).
Proof.
  intros Happ Hweak Hm Hh w. apply wp_try_catch.
  eapply wp_mono; [apply Hm|]. intros t1 w1 [a|e|] H1; cbv beta match; auto.
  eapply wp_mono; [apply Hh|]. intros t2 w2 c2 H2. eauto.
Qed.


Lemma inert_bind {A B} (m : Gen A) (f : A -> Gen B) :
  sat inert m -> (forall a, sat inert (f a)) -> sat inert (bind m f).
Proof. apply holds_bind; [apply inert_app|done]. Qed.
Lemma inert_try_catch {A} (m : Gen A) h :
  sat inert m -> (forall e, sat inert (h e)) -> sat inert (try_catch m h).
Proof. apply holds_try_catch; [apply inert_app|done]. Qed.
Lemma inert_ret {A} (a : A) : sat inert (ret a).
Proof. intros w. by wp_step. Qed.
Lemma inert_throw {A} e : sat inert (throw (A:=A) e).
Proof. intros w. by wp_step. Qed.
Lemma inert_tick : sat inert tick.
Proof. intros w. by wp_step. Qed.
Lemma inert_reject {A} site p e : sat inert (reject (A:=A) site p e).
Proof. intros w. by wp_step. Qed.
Lemma inert_await {A} site p (r : Result JsError A) : sat inert (await site p r).
Proof. intros w. by wp_step. Qed.
Lemma inert_progress e : sat inert (progress e).
Proof. intros w. by wp_step. Qed.
Lemma inert_signal_aborted : sat inert (signal_aborted options).
Proof. intros w. by wp_step. Qed.

Create HintDb cycles.
Local Hint Resolve inert_bind inert_try_catch inert_ret inert_throw inert_tick inert_reject
  inert_await inert_progress inert_signal_aborted : cycles.

Lemma classify_inert entryPath x : sat inert (classify host options entryPath x).
Proof. unfold classify. destruct (_ && _); auto 6 with cycles. Qed.

Lemma collect_inert dirPath flt ds : forall acc w,
  wp (collect options dirPath ds flt acc) w
     (fun t w' c => inert w t w' /\
                    forall es, c = Normal es -> exists j, es = acc ++ take j ds).
Proof.
  induction ds as [|x ds IH]; intros acc w; simpl.
  - repeat wp_step; (split; [done|]); intros es [= <-].
    exists 0. by rewrite app_nil_r.
  - repeat wp_step.
    + split; [done|]. intros es [= <-]. exists 0. by rewrite app_nil_r.
    + wp_use IH; destruct H as [Hi H]; (split; [by apply (inert_app _ _ (mkWorld (S (clock w)) (visited w)))|]);
        intros es [= <-].
      destruct (H a eq_refl) as [j ->]. exists (S j). by rewrite <- app_assoc.
Qed.


Lemma yieldEntry_keyed p x k :
  sat (keyed host p x) (yieldEntry host options p (joinPath host p (name x)) x k).
Proof.
  intros w. unfold yieldEntry, keyed, yield_keys. repeat wp_step; norm; auto.
Qed.

(** Step 3 of [walk], when symlinks are followed. *)
Lemma registerIdentity_spec p w :
  wp (registerIdentity host options p) w
     (fun t w' c =>
        opens t = [] /\ yields_of t = [] /\
        match c with
        | Normal true => (ident p ∉ visited w) /\ visited w' = {[ident p]} ∪ visited w
        | Normal false => visited w' = visited w
        | Throw _ => visited w ⊆ visited w'
        | OutOfFuel => False
        end).
Proof.
  unfold registerIdentity, identity. rewrite follow.
  repeat wp_step; norm; split_and!; try done.
  all: try (apply bool_decide_eq_false in Heqb; done).
  all: set_solver.
Qed.

Lemma openDirectory_spec p w :
  ident p ∈ visited w ->
  wp (openDirectory host options p) w
     (fun t w' c =>
        visited w' = visited w /\ yields_of t = [] /\
        Forall (registered_when_opened host) t /\
        match c with
        | Normal (Some dir) => opendir host p = Ok dir /\ opens t = [p]
        | _ => opens t = []
        end).
Proof.
  intros Hp. unfold openDirectory. repeat wp_step; norm; split_and!; try done.
  all: repeat constructor; done.
Qed.

Lemma inert_entered p x w t w' : inert w t w' -> entered host p x w t w'.
Proof.
  intros (Hv & Ho & Hy). split_and!.
  - by rewrite Hv.
  - rewrite opened_ids_inert by done. apply fresh_nil.
  - by apply registered_inert.
  - exists [], []. rewrite yield_keys_inert by done.
    split_and!; [done|by left|apply fresh_nil].
Qed.

Lemma inert_then_entered p x w t1 w1 t2 w2 :
  inert w t1 w1 -> entered host p x w1 t2 w2 -> entered host p x w (t1 ++ t2) w2.
Proof.
  intros (Hv & Ho & Hy) (Hv2 & Ho2 & Hr2 & own & below & Hk & Hown & Hb).
  split_and!.
  - by rewrite <- Hv.
  - rewrite opened_ids_app, opened_ids_inert by done. simpl.
    eapply fresh_weaken; [done| |done]. by rewrite Hv.
  - apply Forall_app. split; [by apply registered_inert|done].
  - exists own, below. rewrite yield_keys_app, yield_keys_inert by done.
    split_and!; [done..|]. eapply fresh_weaken; [done| |done]. by rewrite Hv.
Qed.

Lemma keyed_entered p x w t w' : keyed host p x w t w' -> entered host p x w t w'.
Proof.
  intros (Hv & Ho & Hk). split_and!.
  - by rewrite Hv.
  - rewrite opened_ids_inert by done. apply fresh_nil.
  - by apply registered_inert.
  - exists (yield_keys host t), []. rewrite app_nil_r.
    split_and!; [done|done|apply fresh_nil].
Qed.

Lemma keyed_then_walked p x w t1 w1 t2 w2 :
  keyed host p x w t1 w1 -> walked host w1 t2 w2 -> entered host p x w (t1 ++ t2) w2.
Proof.
  intros (Hv & Ho & Hk) (Hv2 & Ho2 & Hy2 & Hr2). split_and!.
  - by rewrite <- Hv.
  - rewrite opened_ids_app, opened_ids_inert by done. simpl.
    eapply fresh_weaken; [done| |done]. by rewrite Hv.
  - apply Forall_app. split; [by apply registered_inert|done].
  - exists (yield_keys host t1), (yield_keys host t2). rewrite yield_keys_app.
    split_and!; [done..|]. eapply fresh_weaken; [done| |done]. by rewrite Hv.
Qed.

Lemma processEntry_entered recurse p k x :
  (forall q j, sat (walked host) (recurse q j)) ->
  sat (entered host p x) (processEntry host options recurse p k x).
Proof.
  intros Hrec. unfold processEntry.
  eapply holds_bind; [apply inert_then_entered|apply inert_entered|apply classify_inert|].
  intros isDir.
  eapply holds_bind; [apply inert_then_entered|apply inert_entered|auto with cycles|].
  intros isIncluded. destruct isDir.
  - eapply holds_bind; [apply keyed_then_walked|apply keyed_entered| |intros _; apply Hrec].
    destruct (_ && _); [apply yieldEntry_keyed|].
    intros w. wp_step. split_and!; [done..|by left].
  - destruct isIncluded.
    + intros w. eapply wp_mono; [apply yieldEntry_keyed|]. intros. by apply keyed_entered.
    + intros w. wp_step. by apply inert_entered.
Qed.

Lemma entered_looped p x ds w t w' :
  entered host p x w t w' -> looped_over host p (x :: ds) w t w'.
Proof.
  intros (Hv & Ho & Hr & own & below & Hk & Hown & [Hb Hn]) Hp Hnd.
  split_and!; [done..| |].
  - rewrite Hk. apply Forall_app. split.
    + destruct Hown as [->| ->]; [constructor|].
      apply Forall_singleton. left. simpl. split; [done|]. left.
    + eapply Forall_impl; [done|]. intros; by right.
  - rewrite Hk. apply NoDup_app. split_and!; [| |done].
    + destruct Hown as [->| ->]; [constructor|apply NoDup_singleton].
    + intros key Hkey Hkey'. rewrite Forall_forall in Hb. destruct (Hb key Hkey') as [Hnew _].
      destruct Hown as [->| ->]; [by apply elem_of_nil in Hkey|].
      apply list_elem_of_singleton in Hkey as ->. done.
Qed.

Lemma entered_then_looped p x ds w t1 w1 t2 w2 :
  entered host p x w t1 w1 -> looped_over host p ds w1 t2 w2 ->
  looped_over host p (x :: ds) w (t1 ++ t2) w2.
Proof.
  intros H1 H2 Hp Hnd.
  pose proof (entered_looped p x ds w t1 w1 H1 Hp Hnd) as (Hv1 & Ho1 & Hr1 & Hk1 & Hn1).
  rewrite fmap_cons, NoDup_cons in Hnd. destruct Hnd as [Hx Hnd].
  destruct (H2 ltac:(set_solver) Hnd) as (Hv2 & Ho2 & Hr2 & Hk2 & Hn2).
  destruct H1 as (_ & _ & _ & own & below & Hk & Hown & [Hb Hbn]).
  split_and!.
  - set_solver.
  - rewrite opened_ids_app. by eapply fresh_app.
  - by apply Forall_app.
  - rewrite yield_keys_app. apply Forall_app. split.
    + eapply Forall_impl; [done|]. intros key [?|[? ?]]; [by left|right]. set_solver.
    + eapply Forall_impl; [done|]. intros key [[? ?]|[? ?]]; [left|right].
      * split; [done|]. by right.
      * set_solver.
  - rewrite yield_keys_app. apply NoDup_app. split_and!; [done| |done].
    intros key Hkey Hkey'. rewrite Forall_forall in Hk1, Hk2.
    destruct (Hk1 key Hkey) as [[Hi Hname]|[Hnew Hreg]],
      (Hk2 key Hkey') as [[Hi' Hname']|[Hnew' Hreg']].
    + (* the key of [x] against the key of a later sibling *)
      rewrite Hk in Hkey. apply elem_of_app in Hkey as [Hkey|Hkey].
      * destruct Hown as [->| ->]; [by apply elem_of_nil in Hkey|].
        apply list_elem_of_singleton in Hkey as ->. done.
      * rewrite Forall_forall in Hb. destruct (Hb key Hkey) as [Hnew _].
        rewrite Hi in Hnew. done.
    + rewrite Hi in Hnew'. set_solver.
    + rewrite Hi' in Hnew. done.
    + done.
Qed.

Lemma inert_looped p ds w t w' : inert w t w' -> looped_over host p ds w t w'.
Proof.
  intros (Hv & Ho & Hy) _ _. split_and!.
  - by rewrite Hv.
  - rewrite opened_ids_inert by done. apply fresh_nil.
  - by apply registered_inert.
  - rewrite yield_keys_inert by done. constructor.
  - rewrite yield_keys_inert by done. constructor.
Qed.

Lemma inert_then_looped p ds w t1 w1 t2 w2 :
  inert w t1 w1 -> looped_over host p ds w1 t2 w2 -> looped_over host p ds w (t1 ++ t2) w2.
Proof.
  intros (Hv & Ho & Hy) H2 Hp Hnd. rewrite <- Hv in Hp.
  destruct (H2 Hp Hnd) as (Hv2 & Ho2 & Hr2 & Hk2 & Hn2). split_and!.
  - by rewrite <- Hv.
  - rewrite opened_ids_app, opened_ids_inert by done. simpl.
    eapply fresh_weaken; [done| |done]. by rewrite Hv.
  - apply Forall_app. split; [by apply registered_inert|done].
  - rewrite yield_keys_app, yield_keys_inert by done. simpl.
    eapply Forall_impl; [done|]. intros key [?|[? ?]]; [by left|right]. by rewrite <- Hv.
  - by rewrite yield_keys_app, yield_keys_inert.
Qed.

Lemma forAwait_looped p flt body :
  (forall x, sat (entered host p x) (body x)) ->
  forall ds, sat (looped_over host p ds) (forAwait options p ds flt body).
Proof.
  intros Hbody ds. induction ds as [|x ds IH]; simpl.
  - eapply holds_bind; [apply inert_then_looped|apply inert_looped|auto with cycles|].
    intros _ w. destruct flt; wp_step; by apply inert_looped.
  - eapply holds_bind; [apply inert_then_looped|apply inert_looped|auto with cycles|].
    intros _.
    eapply holds_bind; [apply inert_then_looped|apply inert_looped|auto with cycles|].
    intros []; [intros w; wp_step; by apply inert_looped|].
    eapply holds_bind; [apply entered_then_looped|apply entered_looped|apply Hbody|].
    intros _. apply IH.
Qed.


Hypothesis distinct_names :
  forall p dir, opendir host p = Ok dir -> NoDup (name <$> entries dir).

Lemma processing_order_distinct dir ds :
  NoDup (name <$> entries dir) -> processing_order host dir ds -> NoDup (name <$> ds).
Proof.
  intros Hnd [->|(j & s & ->)]; [done|].
  rewrite Sorting.sortEntries_perm, fmap_take.
  eapply sublist_NoDup; [done|apply sublist_take].
Qed.

(** The frame of [p] once [p] is registered and opened. *)
Lemma frame_assemble p w t0 w1 t1 w2 t2 w3 ds :
  opens t0 = [] -> yields_of t0 = [] ->
  ident p ∉ visited w -> visited w1 = {[ident p]} ∪ visited w ->
  visited w2 = visited w1 -> yields_of t1 = [] -> opens t1 = [p] ->
  Forall (registered_when_opened host) t1 ->
  NoDup (name <$> ds) ->
  looped_over host p ds w2 t2 w3 ->
  walked host w (t0 ++ t1 ++ t2) w3.
Proof.
  intros Ho0 Hy0 Hnew Hv1 Hv2 Hy1 Ho1 Hr1 Hnd Hloop.
  destruct Hloop as (Hv3 & [Hof Hon] & Hr2 & Hk & Hkn); [set_solver|done|].
  split_and!.
  - set_solver.
  - rewrite !opened_ids_app, (opened_ids_inert t0) by done.
    unfold opened_ids at 1. rewrite Ho1. simpl. split.
    + constructor; [set_solver|]. eapply Forall_impl; [exact Hof|]. set_solver.
    + constructor; [|done]. intros Hin. rewrite Forall_forall in Hof.
      destruct (Hof _ Hin). set_solver.
  - rewrite !yield_keys_app, (yield_keys_inert t0), (yield_keys_inert t1) by done.
    simpl. split; [|done]. eapply Forall_impl; [exact Hk|].
    intros key [[-> _]|[? ?]]; set_solver.
  - rewrite !Forall_app. split_and!; [by apply registered_inert|done..].
Qed.


Lemma walked_clock w t w' w'' :
  visited w'' = visited w' -> walked host w t w' -> walked host w t w''.
Proof.
  intros Hv (H1 & [H2 H2'] & [H3 H3'] & H4). unfold walked, fresh. rewrite Hv. done.
Qed.

Lemma quiet_walked w t w' :
  visited w ⊆ visited w' -> opens t = [] -> yields_of t = [] -> walked host w t w'.
Proof.
  intros Hv Ho Hy. split_and!; [done| | |by apply registered_inert].
  - rewrite opened_ids_inert by done. apply fresh_nil.
  - rewrite yield_keys_inert by done. apply fresh_nil.
Qed.

Lemma looped_then_inert p ds w t1 w1 t2 w2 :
  looped_over host p ds w t1 w1 -> inert w1 t2 w2 -> looped_over host p ds w (t1 ++ t2) w2.
Proof.
  intros H1 (Hv & Ho & Hy) Hp Hnd.
  destruct (H1 Hp Hnd) as (Hv1 & Ho1 & Hr1 & Hk1 & Hn1). split_and!.
  - by rewrite Hv.
  - rewrite opened_ids_app, (opened_ids_inert t2), app_nil_r by done.
    eapply fresh_weaken; [done..|]. by rewrite Hv.
  - apply Forall_app. split; [done|by apply registered_inert].
  - rewrite yield_keys_app, (yield_keys_inert t2), app_nil_r by done.
    eapply Forall_impl; [exact Hk1|]. intros key [?|[? ?]]; [by left|right]. by rewrite Hv.
  - by rewrite yield_keys_app, (yield_keys_inert t2), app_nil_r.
Qed.

Lemma looped_clock p ds w t w' w'' :
  visited w'' = visited w' -> looped_over host p ds w t w' -> looped_over host p ds w t w''.
Proof.
  intros Hv H. rewrite <- (app_nil_r t).
  eapply looped_then_inert; [done|]. by split_and!.
Qed.

(** The second [try] block of [walk], for an open directory. *)
Lemma scan_looped recurse p k dir w :
  (forall q j, sat (walked host) (recurse q j)) ->
  wp (scan host options recurse p k dir) w
     (fun t w' _ => exists ds, processing_order host dir ds /\ looped_over host p ds w t w').
Proof.
  intros Hrec.
  assert (Hbody : forall x, sat (entered host p x) (processEntry host options recurse p k x))
    by (intros x; by apply processEntry_entered).
  assert (Hh : forall e : JsError,
             sat inert (if negb (suppressErrors options) then throw e else ret tt))
    by (intros e; destruct (negb _); auto with cycles).
  unfold scan. apply wp_finally_close, wp_try_catch. destruct (sort options) as [s|].
  - wp_step. wp_use collect_inert; destruct H as [Hin H].
    + destruct (H _ eq_refl) as [j ->]. simpl.
      assert (Hpo : processing_order host dir (sortEntries host (take j (entries dir)) s))
        by (right; eauto).
      wp_use forAwait_looped; [done|..]; try (wp_use Hh).
      all: eexists; (split; [exact Hpo|]); eapply looped_clock; [reflexivity|].
      all: repeat first [eapply inert_then_looped; [eassumption|]
                        |eapply looped_then_inert; [|eassumption]]; done.
    + wp_use Hh; exists (entries dir); (split; [by left|]).
      all: eapply looped_clock; [reflexivity|]; apply inert_looped.
      all: by eapply inert_app.
    + exists (entries dir). split; [by left|].
      eapply looped_clock; [reflexivity|]. by apply inert_looped.
  - wp_use forAwait_looped; [done|..]; try (wp_use Hh).
    all: exists (entries dir); (split; [by left|]); eapply looped_clock; [reflexivity|].
    all: repeat first [eapply looped_then_inert; [|eassumption]]; done.
Qed.

Lemma frame_walked recurse p k :
  (forall q j, sat (walked host) (recurse q j)) ->
  sat (walked host) (frame host options recurse p k).
Proof.
  intros Hrec w. unfold frame.
  repeat wp_step; try (by apply inert_walked).
  wp_use registerIdentity_spec; destruct H as (Ho0 & Hy0 & H); [|by apply quiet_walked|done].
  destruct a; cbn [negb]; [|wp_step; apply quiet_walked; norm; by rewrite ?H].
  destruct H as [Hnew Hv1].
  wp_step. wp_use openDirectory_spec; [rewrite Hv1; set_solver|..];
    destruct H as (Hv2 & Hy1 & Hr1 & H).
  2,3: apply quiet_walked; norm; rewrite ?Ho0, ?Hy0, ?Hy1, ?H; [set_solver|done..].
  destruct a as [dir|];
    [|wp_step; apply quiet_walked; norm; rewrite ?Ho0, ?Hy0, ?Hy1, ?H; [set_solver|done..]].
  destruct H as [Hopen Ho1].
  pose proof (distinct_names _ _ Hopen) as Hnd.
  eapply wp_mono; [by apply scan_looped|]. intros t2 w2 _ (ds & Hpo & Hloop).
  rewrite !app_nil_l.
  eapply (frame_assemble p w t w0 t0 w1 t2 w2 ds); try done.
  by eapply processing_order_distinct.
Qed.

Lemma walk_walked fuel : forall p k, sat (walked host) (walk host options fuel p k).
Proof.
  induction fuel as [|fuel IH]; intros p k; simpl.
  - intros w. wp_step. by apply inert_walked.
  - by apply frame_walked.
Qed.

End Pass.
End Cycles.

(** *** The walk returns *)

Module Termination.
Section Pass.
Variable host : Host.
Variable options : WalkerOptions.
Variable root : string.
Variable U : gset string.
Hypothesis follow : followSymlinks options = true.
Hypothesis finite : forall p, reachable host root p -> identity host p ∈ U.

(** The identities that are not registered yet. *)
Definition remaining (w : World) : nat := size (U ∖ visited w).

Lemma remaining_mono w w' : visited w ⊆ visited w' -> remaining w' <= remaining w.
Proof. intros H. unfold remaining. apply subseteq_size. set_solver. Qed.

Lemma remaining_register w w' i :
  i ∈ U -> i ∉ visited w -> visited w' = {[i]} ∪ visited w -> remaining w' < remaining w.
Proof.
  intros HU Hi Hv. unfold remaining. apply subset_size. rewrite Hv. set_solver.
Qed.

Ltac close :=
  unfold returns, returns_unchanged, remaining in *; cbn [visited exhausted] in *;
  repeat match goal with H : _ /\ _ |- _ => destruct H end;
  try discriminate;
  repeat match goal with H : visited _ = _ |- _ => rewrite H in * end;
  try done; try (split; [done|set_solver]).

Lemma classify_returns entryPath x w :
  wp (classify host options entryPath x) w (fun _ w' c => returns_unchanged w w' c).
Proof. unfold classify. repeat wp_step; done. Qed.

Lemma yieldEntry_returns p entryPath x k w :
  wp (yieldEntry host options p entryPath x k) w (fun _ w' c => returns_unchanged w w' c).
Proof. unfold yieldEntry. repeat wp_step; done. Qed.

Lemma openDirectory_returns p w :
  wp (openDirectory host options p) w
     (fun _ w' c => returns_unchanged w w' c /\
                    match c with
                    | Normal (Some dir) => opendir host p = Ok dir
                    | _ => True
                    end).
Proof. unfold openDirectory. repeat wp_step; done. Qed.

Section Frame.
Variable recurse : string -> nat -> Gen unit.
Variable n : nat.
Hypothesis recurse_returns : forall q j w,
  reachable host root q -> remaining w < n ->
  wp (recurse q j) w (fun _ w' c => returns w w' c).

Lemma processEntry_returns p k x w :
  reachable host root (joinPath host p (name x)) -> remaining w < n ->
  wp (processEntry host options recurse p k x) w (fun _ w' c => returns w w' c).
Proof.
  intros Hreach Hn. unfold processEntry.
  wp_step. wp_use classify_returns; [|close..].
  repeat wp_step.
  - wp_use yieldEntry_returns; [|close..].
    wp_use recurse_returns; [done|close|close..].
  - wp_use recurse_returns; [done|close|close..].
  - wp_use yieldEntry_returns; close.
  - close.
Qed.

Lemma forAwait_returns p k flt ds : forall w,
  (forall x, x ∈ ds -> reachable host root (joinPath host p (name x))) ->
  remaining w < n ->
  wp (forAwait options p ds flt (processEntry host options recurse p k)) w
     (fun _ w' c => returns w w' c).
Proof.
  induction ds as [|x ds IH]; intros w Hreach Hn; simpl.
  - repeat wp_step; done.
  - repeat wp_step; [done|].
    wp_use processEntry_returns; [apply Hreach; left|done|..]; [|close..].
    wp_use IH; [intros y Hy; apply Hreach; by right| |..].
    { destruct H as [_ H]. eapply Nat.le_lt_trans; [by apply remaining_mono|done]. }
    all: close.
Qed.

Lemma collect_returns p flt ds : forall acc w,
  wp (collect options p ds flt acc) w
     (fun _ w' c => returns_unchanged w w' c /\
                    forall es, c = Normal es -> exists j, es = acc ++ take j ds).
Proof.
  induction ds as [|x ds IH]; intros acc w; simpl.
  - repeat wp_step; (split; [done|]); intros es [= <-].
    exists 0. by rewrite app_nil_r.
  - repeat wp_step.
    + split; [done|]. intros es [= <-]. exists 0. by rewrite app_nil_r.
    + wp_use IH; destruct H as [[He Hv] H]; (split; [done|]); intros es [= <-].
      destruct (H a eq_refl) as [j ->]. exists (S j). by rewrite <- app_assoc.
Qed.

End Frame.

Lemma frame_returns recurse n p k w :
  (forall q j w, reachable host root q -> remaining w < n ->
                 wp (recurse q j) w (fun _ w' c => returns w w' c)) ->
  reachable host root p -> remaining w < S n ->
  wp (frame host options recurse p k) w (fun _ w' c => returns w w' c).
Proof.
  intros Hrec Hreach Hn. unfold frame.
  repeat wp_step; try done.
  wp_use (Cycles.registerIdentity_spec host options follow);
    destruct H as (_ & _ & H); [|close..].
  destruct a; cbn [negb]; [|wp_step; close].
  destruct H as [Hnew Hv1].
  assert (Hn1 : remaining w0 < n).
  { pose proof (remaining_register w w0 _ (finite p Hreach) Hnew Hv1). lia. }
  assert (Hsub : visited w ⊆ visited w0) by (rewrite Hv1; set_solver).
  wp_step. wp_use (openDirectory_returns p); destruct H as [[Hx2 Hv2] H];
    [|split; [done|]; by rewrite Hv2|done].
  destruct a as [dir|]; [|wp_step; split; [done|]; by rewrite Hv2].
  rename H into Hopen.
  assert (Hkids : forall ds x, processing_order host dir ds -> x ∈ ds ->
                    reachable host root (joinPath host p (name x))).
  { intros ds x Hpo Hx. eapply reach_child; [done..|].
    by eapply Sorting.processing_order_elem. }
  assert (Hn2 : remaining w1 < n) by (unfold remaining in *; by rewrite Hv2).
  unfold scan. repeat wp_step.
  - wp_use (collect_returns p); destruct H as [[Hx3 Hv3] H].
    + destruct (H _ eq_refl) as [j ->]. simpl.
      wp_use (forAwait_returns recurse n Hrec p k).
      { intros x Hx. eapply Hkids; [|done]. right; eauto. }
      { unfold remaining in *. by rewrite Hv3. }
      all: destruct H0 as [He' Hv']; repeat wp_step; (split; [done|]); cbn [visited] in *.
      all: set_solver.
    + repeat wp_step; (split; [done|]); cbn [visited] in *; set_solver.
    + done.
  - wp_use (forAwait_returns recurse n Hrec p k).
    { intros x Hx. eapply Hkids; [|done]. by left. }
    { done. }
    all: destruct H as [He' Hv']; repeat wp_step; (split; [done|]); cbn [visited] in *.
    all: set_solver.
Qed.

(** Enough fuel: one activation more than there are identities left. *)
Lemma walk_returns fuel : forall p k w,
  reachable host root p -> remaining w < fuel ->
  wp (walk host options fuel p k) w (fun _ w' c => returns w w' c).
Proof.
  induction fuel as [|fuel IH]; intros p k w Hreach Hn; [lia|]. simpl.
  apply (frame_returns _ fuel); [intros; by apply IH|done|done].
Qed.

End Pass.
End Termination.

(** *** The walk leaves nothing out *)

Module Completeness.
Section Pass.
Variable host : Host.
Variable options : WalkerOptions.
Hypothesis follow : followSymlinks options = true.
Hypothesis suppress : suppressErrors options = true.
Hypothesis no_signal : signal options = None.
Hypothesis no_limit : maxDepth options = NPosInf.
Hypothesis no_include : truthy (include options) = false.
Hypothesis no_exclude : truthy (exclude options) = false.
Hypothesis readable :
  sort options = None \/ forall p dir, opendir host p = Ok dir -> fault dir = None.

Lemma covered_earlier t t' w w' p x :
  covered host t w p x -> visited w ⊆ visited w' -> covered host (t ++ t') w' p x.
Proof.
  unfold covered. destruct (is_directory_here host p x); intros H Hv; [by apply Hv|].
  rewrite Cycles.yield_keys_app, elem_of_app. auto.
Qed.

Lemma covered_later t t' w p x :
  covered host t' w p x -> covered host (t ++ t') w p x.
Proof.
  unfold covered. destruct (is_directory_here host p x); intros H; [done|].
  rewrite Cycles.yield_keys_app, elem_of_app. auto.
Qed.

Lemma complete_silent t w : opens t = [] -> complete host t w.
Proof. intros Ht p dir x Hp. rewrite Ht in Hp. by apply elem_of_nil in Hp. Qed.

Lemma complete_app t1 w1 t2 w2 :
  complete host t1 w1 -> complete host t2 w2 -> visited w1 ⊆ visited w2 ->
  complete host (t1 ++ t2) w2.
Proof.
  intros H1 H2 Hv p dir x Hp Hdir Hx. rewrite opens_app, elem_of_app in Hp.
  destruct Hp as [Hp|Hp].
  - apply (covered_earlier _ _ w1); [eapply H1|]; done.
  - apply covered_later. by eapply H2.
Qed.

Lemma not_cancelled n : cancelled options n = false.
Proof. unfold cancelled. by rewrite no_signal. Qed.

Lemma filters_pass n : applyFilters options n = true.
Proof. unfold applyFilters. by rewrite no_include, no_exclude. Qed.

Lemma no_depth_limit k : depth_exceeds options k = false.
Proof. unfold depth_exceeds. by rewrite no_limit. Qed.

Lemma classify_spec p x w :
  wp (classify host options (joinPath host p (name x)) x) w
     (fun t w' c => inert w t w' /\ c = Normal (is_directory_here host p x)).
Proof.
  unfold classify, is_directory_here, inert. rewrite follow, andb_true_r.
  repeat wp_step; norm; done.
Qed.

Lemma yieldEntry_spec p x k w :
  wp (yieldEntry host options p (joinPath host p (name x)) x k) w
     (fun t w' c => visited w' = visited w /\ opens t = [] /\
                    yield_keys host t = [(identity host p, name x)] /\
                    c = Normal tt).
Proof.
  unfold yieldEntry, yield_keys. rewrite suppress.
  repeat wp_step; norm; done.
Qed.

Lemma complete_prefix t1 t2 w :
  opens t1 = [] -> complete host t2 w -> complete host (t1 ++ t2) w.
Proof.
  intros H1 H2. apply (complete_app t1 w); [by apply complete_silent|done..].
Qed.

Lemma covered_directory t w p x :
  is_directory_here host p x = true ->
  identity host (joinPath host p (name x)) ∈ visited w -> covered host t w p x.
Proof. unfold covered. by intros ->. Qed.

Lemma covered_file t w p x :
  is_directory_here host p x = false ->
  (identity host p, name x) ∈ yield_keys host t -> covered host t w p x.
Proof. unfold covered. by intros ->. Qed.

Ltac settle :=
  let Hex := fresh in
  intros Hex; try discriminate Hex;
  repeat match goal with
         | H : ?a = ?a -> _ |- _ => specialize (H eq_refl)
         | H : _ /\ _ |- _ => destruct H
         end;
  try discriminate; cbn [visited thrown] in *.

Ltac silent_prefix :=
  repeat (apply complete_prefix; [by norm|]); try done; try (by apply complete_silent; norm).

Lemma complete_opened p dir t1 t2 w :
  opens t1 = [p] -> opendir host p = Ok dir ->
  complete host t2 w -> Forall (covered host t2 w p) (entries dir) ->
  complete host (t1 ++ t2) w.
Proof.
  intros H1 Hdir H2 Hall q dir' x Hq Hdir' Hx. apply covered_later.
  rewrite opens_app, H1 in Hq. apply elem_of_cons in Hq as [->|Hq]; [|by eapply H2].
  rewrite Hdir in Hdir'. injection Hdir' as <-.
  rewrite Forall_forall in Hall. by apply Hall.
Qed.

Lemma collect_all p flt ds : forall acc w,
  wp (collect options p ds flt acc) w
     (fun t w' c => inert w t w' /\ exhausted c = false /\
                    (flt = None -> c = Normal (acc ++ ds))).
Proof.
  unfold inert. induction ds as [|x ds IH]; intros acc w; simpl.
  - repeat wp_step; norm; (split_and!; try done); intros _; by rewrite app_nil_r.
  - repeat wp_step; [by rewrite not_cancelled in *|].
    wp_use IH; norm; destruct H as ((Hv & -> & ->) & He & H); (split_and!; try done).
    all: intros Hf; rewrite (H Hf), <- ?app_assoc; done.
Qed.

Lemma registerIdentity_registers p w :
  wp (registerIdentity host options p) w
     (fun t w' c => opens t = [] /\ visited w ⊆ visited w' /\
                    identity host p ∈ visited w' /\ exists go, c = Normal go).
Proof.
  unfold registerIdentity, identity. rewrite follow, suppress.
  repeat wp_step; norm; split_and!; eauto; try set_solver.
  all: by eapply bool_decide_eq_true_1.
Qed.

Lemma openDirectory_opens p w :
  wp (openDirectory host options p) w
     (fun t w' c => visited w' = visited w /\
                    match c with
                    | Normal (Some dir) => opendir host p = Ok dir /\ opens t = [p]
                    | Normal None => opens t = []
                    | _ => False
                    end).
Proof. unfold openDirectory. rewrite suppress. repeat wp_step; norm; done. Qed.

Lemma complete_visited t w w' :
  visited w' = visited w -> complete host t w -> complete host t w'.
Proof.
  intros Hv H. rewrite <- (app_nil_r t). apply (complete_app t w); [done| |by rewrite Hv].
  by apply complete_silent.
Qed.

(** The trace of a frame: registration, opening, then the scan. *)
Lemma frame_complete p dir ds t1 t2 t3 w w' :
  opens t1 = [] -> opens t2 = [p] -> opendir host p = Ok dir ->
  ds ≡ₚ entries dir ->
  complete host t3 w -> Forall (covered host t3 w p) ds ->
  visited w' = visited w ->
  complete host (t1 ++ t2 ++ t3) w'.
Proof.
  intros H1 H2 Hdir Hperm H3 Hall Hv.
  apply (complete_visited _ w); [done|]. apply complete_prefix; [done|].
  apply (complete_opened p dir); [done..|]. by rewrite <- Hperm.
Qed.

Section Frame.
Variable recurse : string -> nat -> Gen unit.
Hypothesis recurse_thorough : forall q j w,
  wp (recurse q j) w
     (fun t w' c => exhausted c = false ->
        thrown c = None /\ visited w ⊆ visited w' /\ complete host t w' /\
        identity host q ∈ visited w').

Lemma processEntry_thorough p k x w :
  wp (processEntry host options recurse p k x) w
     (fun t w' c => exhausted c = false ->
        thrown c = None /\ visited w ⊆ visited w' /\ complete host t w' /\
        covered host t w' p x).
Proof.
  unfold processEntry. wp_step.
  wp_use classify_spec; destruct H as [(Hv & Ho & Hy) [=]]. subst a.
  repeat wp_step; try (rewrite filters_pass in *; discriminate).
  - wp_use yieldEntry_spec; destruct H as (Hv' & Ho' & Hk' & [=]).
    wp_use recurse_thorough; settle.
    split_and!; [done|set_solver|silent_prefix|by apply covered_directory].
  - wp_use recurse_thorough; settle.
    split_and!; [done|set_solver|silent_prefix|by apply covered_directory].
  - wp_use yieldEntry_spec; destruct H as (Hv' & Ho' & Hk' & [=]); settle.
    split_and!; [done|set_solver|silent_prefix|].
    apply covered_file; [done|]. rewrite !Cycles.yield_keys_app, Hk'. set_solver.
Qed.

Lemma forAwait_thorough p k flt ds : forall w,
  wp (forAwait options p ds flt (processEntry host options recurse p k)) w
     (fun t w' c => exhausted c = false ->
        visited w ⊆ visited w' /\ complete host t w' /\
        Forall (covered host t w' p) ds).
Proof.
  induction ds as [|x ds IH]; intros w; simpl.
  - repeat wp_step; settle; (split_and!; [done|silent_prefix|constructor]).
  - repeat wp_step; [by rewrite not_cancelled in *|].
    wp_use processEntry_thorough; [|settle..].
    wp_use IH; settle; cbn [app].
    all: split_and!; [set_solver|by apply (complete_app _ w0)|].
    all: constructor; [by apply (covered_earlier _ _ w0)|].
    all: eapply Forall_impl; [done|]; intros y Hy; by apply covered_later.
Qed.

End Frame.

Lemma frame_thorough recurse p k w :
  (forall q j w,
     wp (recurse q j) w
        (fun t w' c => exhausted c = false ->
           thrown c = None /\ visited w ⊆ visited w' /\ complete host t w' /\
           identity host q ∈ visited w')) ->
  wp (frame host options recurse p k) w
     (fun t w' c => exhausted c = false ->
        thrown c = None /\ visited w ⊆ visited w' /\ complete host t w' /\
        identity host p ∈ visited w').
Proof.
  intros Hrec. unfold frame.
  repeat wp_step; try (by rewrite not_cancelled in *); try (by rewrite no_depth_limit in *).
  wp_use registerIdentity_registers; destruct H as (Ho & Hv & Hid & [go [=]]). subst a.
  destruct go; cbn [negb]; [|wp_step; settle; split_and!; [done|done|silent_prefix|done]].
  wp_step. wp_use openDirectory_opens; destruct H as [Hv2 H]; try done.
  destruct a as [dir|]; [|wp_step; settle; split_and!; [done|set_solver|silent_prefix|set_solver]].
  destruct H as [Hdir Ho2]. unfold scan. rewrite suppress. cbn [negb app].
  do 2 wp_step. case_eq (sort options); [intros sortType Hsort|intros Hsort].
  - pose proof readable as [?|Hfault]; [congruence|]. wp_step.
    wp_use collect_all; destruct H as ((Hv3 & Ho3 & Hy3) & He & Hc);
      specialize (Hc (Hfault _ _ Hdir)); try discriminate.
    injection Hc as ->. cbn [app].
    wp_use (forAwait_thorough recurse Hrec p k); [|wp_step|]; settle.
    all: rewrite ?app_nil_r; (split_and!; [done|set_solver| |set_solver]).
    all: apply (frame_complete p dir (sortEntries host (entries dir) sortType) _ _ _ w3);
      [done|done|done|apply Sorting.sortEntries_perm|by apply complete_prefix| |done].
    all: eapply Forall_impl; [done|]; intros y Hy; by apply covered_later.
  - wp_use (forAwait_thorough recurse Hrec p k); [|wp_step|]; settle.
    all: rewrite ?app_nil_r; (split_and!; [done|set_solver| |set_solver]).
    all: by apply (frame_complete p dir (entries dir) _ _ _ w2).
Qed.

(** A walk that returns has thrown nothing, has registered its
    directory and has dealt with all that it opened. *)
Lemma walk_thorough fuel : forall p k w,
  wp (walk host options fuel p k) w
     (fun t w' c => exhausted c = false ->
        thrown c = None /\ visited w ⊆ visited w' /\ complete host t w' /\
        identity host p ∈ visited w').
Proof.
  induction fuel as [|fuel IH]; intros p k w; simpl; [by wp_step|].
  by apply frame_thorough.
Qed.


End Pass.
End Completeness.



(* ===================================================================== *)
(** ** Further properties of the code *)
(* ===================================================================== *)

Import JsString Glob Helpers HelperScenarios Vocabulary.

Module ErrorFacts.

Lemma wrapError_instance err p : instanceof_FStreamWalkError (wrapError err p) = true.
Proof.
  unfold wrapError. destruct (instanceof_FStreamWalkError err) eqn:E; [done|].
  repeat case_match; done.
Qed.

End ErrorFacts.

(** X1: [wrapError] is idempotent: what it returns is an error of the
    library, and wrapping it again, under whatever path, gives it back. *)
Theorem wrapError_is_idempotent (err : JsError) (p q : string) :
  instanceof_FStreamWalkError (wrapError err p) = true /\
  wrapError (wrapError err p) q = wrapError err p.
Proof.
  pose proof (ErrorFacts.wrapError_instance err p) as H. split; [done|].
  unfold wrapError at 1. by rewrite H.
Qed.

(** X2: What [wrapError] keeps of a system error: an error of the library
    is returned as it is; any other error is replaced by one of the
    library that carries the path given and the code of the error,
    except that EPERM becomes EACCES and ENOTDIR becomes EINVAL. *)
Theorem wrapError_keeps_path_and_code (err : JsError) (p : string) :
  if instanceof_FStreamWalkError err then wrapError err p = err
  else
    e_path (wrapError err p) = Some p /\
    e_code (wrapError err p) =
      (if code_is err "EPERM" then Some "EACCES"
       else if code_is err "ENOTDIR" then Some "EINVAL"
       else e_code err).
Proof.
  unfold wrapError. destruct (instanceof_FStreamWalkError err); [done|].
  unfold code_is. destruct (e_code err) as [c|]; simpl; [|done].
  destruct (String.eqb c "EACCES") eqn:E1; simpl.
  { by apply String.eqb_eq in E1 as ->. }
  destruct (String.eqb c "EPERM") eqn:E2; simpl; [done|].
  destruct (String.eqb c "ENOENT") eqn:E3; simpl.
  { by apply String.eqb_eq in E3 as ->. }
  destruct (String.eqb c "ELOOP") eqn:E4; simpl.
  { by apply String.eqb_eq in E4 as ->. }
  by destruct (String.eqb c "ENOTDIR") eqn:E5.
Qed.

(** X3: Wrapping an error does not change whether [shouldSuppressError]
    suppresses it. *)
Theorem wrapping_preserves_suppression (err : JsError) (p : string) (flag : option bool) :
  shouldSuppressError (wrapError err p) flag = shouldSuppressError err flag.
Proof.
  unfold shouldSuppressError. destruct (default true flag); simpl; [|done].
  unfold wrapError. destruct (instanceof_FStreamWalkError err) eqn:Hi; [done|].
  assert (Hp : instanceof_PermissionError err = false).
  { unfold instanceof_PermissionError, instanceof_FStreamWalkError in *.
    by destruct (e_class err). }
  rewrite Hp. unfold code_is. destruct (e_code err) as [c|]; simpl; [|done].
  destruct (String.eqb c "EACCES") eqn:E1; simpl; [done|].
  destruct (String.eqb c "EPERM") eqn:E2; simpl; [done|].
  destruct (String.eqb c "ENOENT") eqn:E3; simpl; [done|].
  destruct (String.eqb c "ELOOP") eqn:E4; simpl; [done|].
  destruct (String.eqb c "ENOTDIR") eqn:E5; simpl; [done|].
  by rewrite E1, E2.
Qed.

(** X4: The two matchers agree wherever the one of src/utils.ts answers;
    where it throws (the empty string, and every rule that is not a
    string, a RegExp, a function, null or undefined) the one of
    src/utils.js answers [true]. *)
Theorem matchers_agree (fileName : string) (pattern : Value) :
  match match_ts fileName pattern with
  | Ok b => match_ fileName pattern = b
  | Err e => e_class e = ClsTypeError /\ match_ fileName pattern = true
  end.
Proof.
  unfold match_.
  destruct pattern as [| |b|n|s|t|f|sg|]; simpl; try done.
  - by destruct b.
  - split; [done|]. by case_match.
  - destruct (String.eqb s "") eqn:E; simpl; done.
Qed.

(** X5: Sanitizing is idempotent: the object [sanitizeOptions] returns
    passes [sanitizeOptions] again, unchanged. *)
Theorem sanitizeOptions_is_idempotent (opts : WalkerOptionsInput) :
  match sanitizeOptions opts with
  | Ok merged => sanitizeOptions (given merged) = Ok merged
  | Err _ => True
  end.
Proof.
  destruct (sanitizeOptions opts) as [merged|e] eqn:H; [|done].
  assert (Hm : merged = spread opts).
  { revert H. unfold sanitizeOptions. repeat case_match; congruence. }
  assert (Hs : spread (given merged) = merged) by (by destruct merged).
  revert H. unfold sanitizeOptions. rewrite Hs, <- Hm. done.
Qed.

Module Events.
Section Principle.
Variable host : Host.
Variable options : WalkerOptions.
Variable P : list Event -> Prop.
Hypothesis P_nil : P [].
Hypothesis P_app : forall t1 t2, P t1 -> P t2 -> P (t1 ++ t2).
Hypothesis P_fault : forall site p e, P [EvFault site p e].
Hypothesis P_open : forall p seen, P [EvOpen p seen].
Hypothesis P_yield : forall dirPath d k w,
  depth_exceeds options k = false ->
  applyFilters options (name d) = true ->
  (isDirectory d = true -> yieldDirectories options = true) ->
  P (trace (yieldEntry host options dirPath (joinPath host dirPath (name d)) d k w)).

Ltac ev := repeat first [assumption | apply P_nil | apply P_fault | apply P_open | apply P_app].

Lemma classify_events entryPath d w :
  wp (classify host options entryPath d) w
     (fun t _ c => P t /\ (c = Normal false -> isDirectory d = false)).
Proof.
  unfold classify. repeat wp_step; (split; [ev|]); try done.
  - intros _. apply andb_true_iff in Heqb as [H _]. unfold isSymbolicLink in H.
    unfold isDirectory. by destruct (kind d).
  - intros _. apply andb_true_iff in Heqb as [H _]. unfold isSymbolicLink in H.
    unfold isDirectory. by destruct (kind d).
  - by intros [=].
Qed.

Lemma yieldEntry_events dirPath d k w :
  depth_exceeds options k = false ->
  applyFilters options (name d) = true ->
  (isDirectory d = true -> yieldDirectories options = true) ->
  wp (yieldEntry host options dirPath (joinPath host dirPath (name d)) d k) w
     (fun t _ _ => P t).
Proof.
  intros H1 H2 H3. pose proof (P_yield dirPath d k w H1 H2 H3) as H.
  unfold wp. by destruct (yieldEntry _ _ _ _ _ _ _) as [[t w'] c].
Qed.

Section Frame.
Variable recurse : string -> nat -> Gen unit.
Hypothesis recurse_events : forall p k w, wp (recurse p k) w (fun t _ _ => P t).

Lemma processEntry_events dirPath k d w :
  depth_exceeds options k = false ->
  wp (processEntry host options recurse dirPath k d) w (fun t _ _ => P t).
Proof.
  intros Hk. unfold processEntry. wp_step.
  wp_use classify_events; destruct H as [Ht Hc]; [|ev..].
  repeat wp_step.
  - apply andb_true_iff in Heqb0 as [Hy Hf].
    wp_use yieldEntry_events; [done..| |ev|ev]. wp_use recurse_events; ev.
  - wp_use recurse_events; ev.
  - wp_use yieldEntry_events; [done|done| |ev..].
    intros Hd. by rewrite (Hc eq_refl) in Hd.
  - ev.
Qed.

Lemma forAwait_events dirPath k flt ds : forall w,
  depth_exceeds options k = false ->
  wp (forAwait options dirPath ds flt (processEntry host options recurse dirPath k)) w
     (fun t _ _ => P t).
Proof.
  induction ds as [|x ds IH]; intros w Hk; simpl.
  - repeat wp_step; ev.
  - repeat wp_step; [ev|].
    wp_use processEntry_events; [done| |ev..]. wp_use IH; [done|ev..].
Qed.

Lemma collect_events dirPath flt ds : forall acc w,
  wp (collect options dirPath ds flt acc) w (fun t _ _ => P t).
Proof.
  induction ds as [|x ds IH]; intros acc w; simpl.
  - repeat wp_step; ev.
  - repeat wp_step; [ev|]. wp_use IH; ev.
Qed.

Lemma frame_events dirPath k w :
  wp (frame host options recurse dirPath k) w (fun t _ _ => P t).
Proof.
  unfold frame, registerIdentity, openDirectory, scan.
  repeat wp_step; try (by ev).
  all: try (wp_use collect_events; [|ev..]).
  all: try (wp_use forAwait_events; [done|..]).
  all: repeat wp_step; ev.
Qed.

End Frame.

(** Whatever holds of the empty trace, of every fault, of every
    opening and of everything [yieldEntry] does for an entry that the
    frame may yield, and is kept by concatenation, holds of every run
    of [walk]. *)
Lemma walk_events fuel : forall p k w,
  wp (walk host options fuel p k) w (fun t _ _ => P t).
Proof.
  induction fuel as [|fuel IH]; intros p k w; simpl; [wp_step; ev|].
  by apply frame_events.
Qed.

End Principle.
End Events.

Module Yields.

Lemma progressed_app t1 t2 : progressed (t1 ++ t2) = progressed t1 ++ progressed t2.
Proof. apply omap_app. Qed.

(** What [yieldEntry] yields and hands to the callback.  It yields
    an entry without [stats] although [withStats] is set only when
    errors are suppressed. *)
Lemma yieldEntry_entry host options dirPath entryPath d k w :
  wp (yieldEntry host options dirPath entryPath d k) w
     (fun t _ _ =>
        (yielded t = [] \/
         yielded t = [mkEntry entryPath d k (stats_for host options entryPath)] /\
         (withStats options = true -> stats_for host options entryPath = None ->
          suppressErrors options = true)) /\
        progressed t = match onProgress options with
                       | Some _ => yielded t
                       | None => []
                       end).
Proof.
  unfold yieldEntry, stats_for.
  repeat wp_step; (split; [first [left; reflexivity|right; split; [reflexivity|]]|]).
  all: try (by destruct (onProgress options)).
  all: try done.
  all: intros _ _; by apply negb_false_iff.
Qed.

Lemma yielded_one t (Q : Entry -> Prop) (R : Prop) e :
  yielded t = [] \/ yielded t = [e] /\ R -> (R -> Q e) -> Forall Q (yielded t).
Proof. intros [->|[-> HR]] H; repeat constructor. by apply H. Qed.

End Yields.


(** X7: No entry deeper than [maxDepth] is yielded, whatever the depth at
    which the walk starts. *)
Theorem yielded_entries_respect_maxDepth
    (host : Host) (options : WalkerOptions) (fuel : nat)
    (dirPath : string) (currentDepth : nat) (w : World) :
  Forall (fun e => within_limit options (depth e))
         (yielded (trace (walk host options fuel dirPath currentDepth w))).
Proof.
  apply (wp_run _ _ (fun t _ _ => Forall _ (yielded t))).
  apply Events.walk_events; try done.
  - intros t1 t2 H1 H2. rewrite yielded_app. by apply Forall_app.
  - intros p d k w0 Hk _ _.
    pose proof (wp_run _ _ _ (Yields.yieldEntry_entry host options p
                                (joinPath host p (name d)) d k w0)) as [H _].
    eapply Yields.yielded_one; [done|]. intros _. simpl.
    unfold within_limit, depth_exceeds in *. destruct (maxDepth options); try done.
    apply negb_false_iff in Hk. by apply Qle_bool_iff.
Qed.


(** X9: The [stats] of a yielded entry are what [fs.stat] says of its path
    when [withStats] is set, and absent otherwise; an entry whose
    [fs.stat] fails is yielded without [stats] (which happens only
    under [suppressErrors]). *)
Theorem yielded_stats_come_from_stat
    (host : Host) (options : WalkerOptions) (fuel : nat)
    (dirPath : string) (currentDepth : nat) (w : World) :
  Forall (fun e =>
            stats e = (if withStats options then
                         match stat host (path e) with Ok s => Some s | Err _ => None end
                       else None) /\
            (withStats options = true -> stats e = None -> suppressErrors options = true))
         (yielded (trace (walk host options fuel dirPath currentDepth w))).
Proof.
  apply (wp_run _ _ (fun t _ _ => Forall _ (yielded t))).
  apply Events.walk_events; try done.
  - intros t1 t2 H1 H2. rewrite yielded_app. by apply Forall_app.
  - intros p d k w0 _ _ _.
    pose proof (wp_run _ _ _ (Yields.yieldEntry_entry host options p
                                (joinPath host p (name d)) d k w0)) as [H _].
    eapply Yields.yielded_one; [done|]. intros Hs. simpl. split; [done|]. done.
Qed.

(** X10: Without [yieldDirectories] no directory is yielded. *)
Theorem directories_are_yielded_on_request_only
    (host : Host) (options : WalkerOptions) (fuel : nat)
    (dirPath : string) (currentDepth : nat) (w : World) :
  Forall (fun e => isDirectory (dirent e) = true -> yieldDirectories options = true)
         (yielded (trace (walk host options fuel dirPath currentDepth w))).
Proof.
  apply (wp_run _ _ (fun t _ _ => Forall _ (yielded t))).
  apply Events.walk_events; try done.
  - intros t1 t2 H1 H2. rewrite yielded_app. by apply Forall_app.
  - intros p d k w0 _ _ Hd.
    pose proof (wp_run _ _ _ (Yields.yieldEntry_entry host options p
                                (joinPath host p (name d)) d k w0)) as [H _].
    eapply Yields.yielded_one; [done|]. by intros _.
Qed.

Module Unfollowed.
Section Pass.
Variable host : Host.
Variable options : WalkerOptions.
Hypothesis no_follow : followSymlinks options = false.

Lemma unfollowed_nil p w w' : visited w' = visited w -> unfollowed host p w [] w'.
Proof. intros H. split_and!; [done|constructor..]. Qed.

Lemma unfollowed_app p w t1 w1 t2 w2 :
  unfollowed host p w t1 w1 -> unfollowed host p w1 t2 w2 ->
  unfollowed host p w (t1 ++ t2) w2.
Proof.
  intros (Hv1 & Ho1 & Hf1) (Hv2 & Ho2 & Hf2). split_and!.
  - congruence.
  - rewrite opens_app. by apply Forall_app.
  - by apply Forall_app.
Qed.

(** What the frame of [p] does apart from opening [p] and recursing. *)
Definition aside (w : World) (t : list Event) (w' : World) : Prop :=
  visited w' = visited w /\ opens t = [] /\ Forall no_resolution t.

Lemma aside_unfollowed p w t w' : aside w t w' -> unfollowed host p w t w'.
Proof. intros (Hv & Ho & Hf). split_and!; [done| |done]. rewrite Ho. constructor. Qed.

Lemma classify_aside entryPath d w :
  wp (classify host options entryPath d) w
     (fun t w' c => aside w t w' /\ c = Normal (isDirectory d)).
Proof.
  unfold classify, aside. rewrite no_follow, andb_false_r.
  wp_step. split_and!; [done..|constructor|done].
Qed.

Lemma yieldEntry_aside dirPath entryPath d k w :
  wp (yieldEntry host options dirPath entryPath d k) w (fun t w' _ => aside w t w').
Proof.
  unfold yieldEntry, aside.
  repeat wp_step; (split_and!; [done|reflexivity|repeat constructor]).
Qed.

Lemma collect_aside dirPath flt ds : forall acc w,
  wp (collect options dirPath ds flt acc) w
     (fun t w' c => aside w t w' /\
                    forall es, c = Normal es -> exists j, es = acc ++ take j ds).
Proof.
  unfold aside. induction ds as [|x ds IH]; intros acc w; simpl.
  - repeat wp_step; (split; [split_and!; [done|reflexivity|repeat constructor]|]);
      intros es [= <-]; exists 0; by rewrite app_nil_r.
  - repeat wp_step.
    + split; [split_and!; [done|reflexivity|repeat constructor]|].
      intros es [= <-]. exists 0. by rewrite app_nil_r.
    + wp_use IH; destruct H as [(Hv & Ho & Hf) H]; (split; [by split_and!|]);
        intros es [= <-].
      destruct (H a eq_refl) as [j ->]. exists (S j). by rewrite <- app_assoc.
Qed.

Ltac close :=
  unfold unfollowed, aside in *;
  repeat match goal with H : _ /\ _ |- _ => destruct H end;
  cbn [visited] in *;
  split_and!;
  [congruence
  |norm; repeat (apply Forall_app; split);
   first [done
         |by constructor
         |apply Forall_singleton; by left
         |match goal with
          | H : opens ?t = [] |- Forall _ (opens ?t) => rewrite H; constructor
          end]
  |repeat (apply Forall_app; split); first [done|by repeat constructor]].

Section Frame.
Variable recurse : string -> nat -> Gen unit.
Hypothesis recurse_unfollowed : forall p k w,
  wp (recurse p k) w (fun t w' _ => unfollowed host p w t w').

Lemma processEntry_unfollowed dirPath dir k d w :
  opendir host dirPath = Ok dir -> d ∈ entries dir ->
  wp (processEntry host options recurse dirPath k d) w
     (fun t w' _ => unfollowed host dirPath w t w').
Proof.
  intros Hdir Hd. unfold processEntry. wp_step.
  assert (Hsub : forall w0 t0 w1,
             isDirectory d = true ->
             unfollowed host (joinPath host dirPath (name d)) w0 t0 w1 ->
             unfollowed host dirPath w0 t0 w1).
  { intros w0 t0 w1 Hk (Hv & Ho & Hf). split_and!; [done| |done].
    eapply Forall_impl; [done|]. intros q [->|Hq]; right; [|done].
    by exists dirPath, dir, d. }
  wp_use classify_aside; destruct H as [Ha Hc]; [|close..].
  injection Hc as ->.
  repeat wp_step.
  - wp_use yieldEntry_aside; [|close..].
    wp_use recurse_unfollowed; (apply Hsub in H0; [|done]); close.
  - wp_use recurse_unfollowed; (apply Hsub in H; [|done]); close.
  - wp_use yieldEntry_aside; close.
  - close.
Qed.

Lemma forAwait_unfollowed dirPath dir k flt ds : forall w,
  opendir host dirPath = Ok dir -> ds ⊆ entries dir ->
  wp (forAwait options dirPath ds flt (processEntry host options recurse dirPath k)) w
     (fun t w' _ => unfollowed host dirPath w t w').
Proof.
  induction ds as [|x ds IH]; intros w Hdir Hds; simpl.
  - repeat wp_step; close.
  - repeat wp_step; [close|].
    wp_use (processEntry_unfollowed dirPath dir); [done|set_solver| |close..].
    wp_use IH; [done|set_solver|close..].
Qed.

End Frame.

Lemma frame_unfollowed recurse dirPath k w :
  (forall p k w, wp (recurse p k) w (fun t w' _ => unfollowed host p w t w')) ->
  wp (frame host options recurse dirPath k) w
     (fun t w' _ => unfollowed host dirPath w t w').
Proof.
  intros Hrec. unfold frame, registerIdentity, openDirectory, scan. rewrite no_follow.
  repeat wp_step; try close.
  - wp_use collect_aside; destruct H as [Ha H]; [|repeat wp_step; close..].
    destruct (H _ eq_refl) as [j ->].
    wp_use (forAwait_unfollowed recurse Hrec dirPath); [eassumption| |..].
    { intros x Hx. eapply Sorting.processing_order_elem; [|done]. right; eauto. }
    all: repeat wp_step; close.
  - wp_use (forAwait_unfollowed recurse Hrec dirPath); [eassumption|done|..].
    all: repeat wp_step; close.
Qed.

Lemma walk_unfollowed fuel : forall p k w,
  wp (walk host options fuel p k) w (fun t w' _ => unfollowed host p w t w').
Proof.
  induction fuel as [|fuel IH]; intros p k w; simpl; [wp_step; close|].
  by apply frame_unfollowed.
Qed.

End Pass.
End Unfollowed.

(** X11: Unless [followSymlinks] is set, [walk] resolves no link: it never
    fails in [fs.realpath] or in the [fs.stat] that looks through a
    symlink, it leaves the [visited] set as it was, and the only
    directories it opens, apart from the one it is called on, are
    entries that the listing of their directory reports as directories.
    A symlink to a directory is not entered. *)
Theorem symlinks_are_not_followed_unasked
    (host : Host) (options : WalkerOptions) (fuel : nat)
    (dirPath : string) (currentDepth : nat) (w : World) :
  followSymlinks options = false ->
  let r := walk host options fuel dirPath currentDepth w in
  visited (final r) = visited w /\
  Forall (fun q => q = dirPath \/ real_child host q) (opens (trace r)) /\
  Forall no_resolution (trace r).
Proof.
  intros Hno r.
  exact (wp_run _ _ _ (Unfollowed.walk_unfollowed host options Hno fuel dirPath currentDepth w)).
Qed.

Lemma symlinks_are_not_followed_unasked_witness :
  let r := walk looped defaults 3 "A" 0 start in
  followSymlinks defaults = false /\
  name <$> (dirent <$> yielded (trace r)) = ["file.txt"; "link"] /\
  opens (trace r) = ["A"] /\
  visited (final r) = ∅.
Proof.
  split_and!; [reflexivity..|].
  apply (proj1 (symlinks_are_not_followed_unasked looped defaults 3 "A" 0 start eq_refl)).
Defined.

Module SortFacts.
Section Sort.
Context {A : Type} (cmp : A -> A -> Z).
Hypothesis cmp_consistent : consistent cmp.

Local Abbreviation R := (fun a b => (cmp a b <= 0)%Z).

Lemma sort_insert_elem x y l : y ∈ sort_insert cmp x l -> y = x \/ y ∈ l.
Proof.
  induction l as [|z l IH]; simpl.
  - intros ->%list_elem_of_singleton. by left.
  - destruct (0 <? cmp x z)%Z.
    + intros [->|H]%elem_of_cons; [right; left|]. destruct (IH H); [by left|right; by right].
    + intros [->|H]%elem_of_cons; [by left|by right].
Qed.

Lemma sort_insert_sorted x l :
  StronglySorted R l -> StronglySorted R (sort_insert cmp x l).
Proof.
  destruct cmp_consistent as [Hanti Htrans].
  induction 1 as [|y l Hl IH Hy]; simpl; [repeat constructor|].
  destruct (0 <? cmp x y)%Z eqn:E.
  - apply Z.ltb_lt in E. constructor; [done|].
    apply Forall_forall. intros z Hz. apply sort_insert_elem in Hz as [->|Hz].
    + by apply Hanti.
    + rewrite Forall_forall in Hy. by apply Hy.
  - apply Z.ltb_ge in E. constructor; [by constructor|].
    constructor; [done|]. eapply Forall_impl; [done|]. intros z Hz. by eapply Htrans.
Qed.

Lemma array_sort_sorted l : StronglySorted R (array_sort cmp l).
Proof.
  induction l as [|x l IH]; simpl; [constructor|]. by apply sort_insert_sorted.
Qed.

Lemma array_sort_fixed l : StronglySorted R l -> array_sort cmp l = l.
Proof.
  induction 1 as [|x l Hl IH Hx]; [done|].
  unfold array_sort in *. simpl. rewrite IH. destruct l as [|y l]; [done|]. simpl.
  apply Forall_cons in Hx as [Hx _]. by apply Z.ltb_ge in Hx as ->.
Qed.

End Sort.

Lemma ordinal_compare_consistent : consistent ordinal_compare.
Proof.
  unfold consistent, ordinal_compare. split.
  - intros a b. rewrite (String.compare_antisym b a).
    by destruct (String.compare a b).
  - intros a b c.
    destruct (String.compare a b) eqn:E1; [|..|done];
      destruct (String.compare b c) eqn:E2; try done; intros _ _.
    + apply String.compare_eq_iff in E1 as ->. by rewrite E2.
    + apply String.compare_eq_iff in E1 as ->. by rewrite E2.
    + apply String.compare_eq_iff in E2 as <-. by rewrite E1.
    + apply String_as_OT.cmp_lt in E1, E2.
      pose proof (String_as_OT.lt_trans _ _ _ E1 E2) as H.
      apply String_as_OT.cmp_lt in H. unfold String_as_OT.cmp in H. by rewrite H.
Qed.

End SortFacts.



Module Returns.
Section Pass.
Variable host : Host.
Variable options : WalkerOptions.

(** Under a depth limit: the walk at depth [k] nests at most [j + 1]
    activations when depth [k + j] is beyond the limit. *)
Lemma walk_limited j : forall fuel p k w,
  depth_exceeds options (k + j) = true -> j < fuel ->
  exhausted (completion (walk host options fuel p k w)) = false.
Proof.
  induction j as [|j IH]; intros [|fuel] p k w Hd Hj; try lia.
  - rewrite Nat.add_0_r in Hd. by rewrite Pruning.walk_pruned.
  - change (walk host options (S fuel) p k w)
      with (frame host options (walk host options fuel) p k w).
    rewrite (Pruning.frame_ext host options (walk host options fuel)
               (fun q i => if decide (i = S k) then walk host options fuel q i else ret tt) k).
    2:{ intros q w'. by rewrite decide_True. }
    apply (wp_run _ _ (fun _ _ c => exhausted c = false)).
    apply Pruning.frame_total. intros q i w'. case_decide as Hi; [subst i|done].
    apply wp_eq. intros t w'' c Hr.
    pose proof (IH fuel q (S k) w') as H. rewrite Hr in H. apply H; [|lia].
    by replace (S k + j) with (k + S j) by lia.
Qed.

Hypothesis no_follow : followSymlinks options = false.

Section Frame.
Variable recurse : string -> nat -> Gen unit.

Lemma processEntry_ends dirPath k x w :
  (isDirectory x = true ->
   forall w', wp (recurse (joinPath host dirPath (name x)) (S k)) w'
                 (fun _ _ c => exhausted c = false)) ->
  wp (processEntry host options recurse dirPath k x) w (fun _ _ c => exhausted c = false).
Proof.
  intros Hrec. unfold processEntry, classify. rewrite no_follow, andb_false_r.
  repeat wp_step; try done.
  all: try (wp_use Pruning.yieldEntry_total; try done).
  all: by apply Hrec.
Qed.

Lemma forAwait_ends dirPath k flt ds : forall w,
  (forall x, x ∈ ds -> isDirectory x = true ->
   forall w', wp (recurse (joinPath host dirPath (name x)) (S k)) w'
                 (fun _ _ c => exhausted c = false)) ->
  wp (forAwait options dirPath ds flt (processEntry host options recurse dirPath k)) w
     (fun _ _ c => exhausted c = false).
Proof.
  induction ds as [|x ds IH]; intros w Hrec; simpl.
  - repeat wp_step; done.
  - repeat wp_step; [done|].
    wp_use processEntry_ends; [intros Hx; apply Hrec; [left|done]| |done..].
    wp_use IH; [|done..]. intros y Hy. apply Hrec. by right.
Qed.

Lemma frame_ends dirPath k w :
  (forall dir x, opendir host dirPath = Ok dir -> x ∈ entries dir -> isDirectory x = true ->
   forall w', wp (recurse (joinPath host dirPath (name x)) (S k)) w'
                 (fun _ _ c => exhausted c = false)) ->
  wp (frame host options recurse dirPath k) w (fun _ _ c => exhausted c = false).
Proof.
  intros Hrec. unfold frame, registerIdentity, openDirectory, scan. rewrite no_follow.
  repeat wp_step; try done.
  - eapply wp_mono; [apply wp_and; [apply Pruning.collect_total|apply Order.collect_prefix]|].
    intros t w' [es|e|] [Hex [_ H]]; cbv beta match; [|repeat wp_step; done..].
    destruct (H _ eq_refl) as [j ->].
    wp_use forAwait_ends; [|repeat wp_step; done..].
    intros x Hx. eapply Hrec; [done|].
    eapply Sorting.processing_order_elem; [|done]. right; eauto.
  - wp_use forAwait_ends; [|repeat wp_step; done..].
    intros x Hx. by eapply Hrec.
Qed.

End Frame.

Lemma walk_ends fuel : forall h p k w,
  shallow host h p = true -> h < fuel ->
  wp (walk host options fuel p k) w (fun _ _ c => exhausted c = false).
Proof.
  induction fuel as [|fuel IH]; intros h p k w Hh Hf; [lia|]. simpl.
  apply frame_ends. intros dir x Hdir Hx Hd w'.
  destruct h as [|h]; simpl in Hh; rewrite Hdir in Hh; [done|].
  rewrite forallb_forall in Hh. apply (IH h); [|lia].
  specialize (Hh x). rewrite Hd in Hh. apply Hh. by apply list_elem_of_In.
Qed.

End Pass.
End Returns.

(** X13: With a finite [maxDepth] the walk returns on every file system,
    whatever cycles its links make and whether or not they are
    followed: when depth [k + j] is beyond the limit, the walk at depth
    [k] never nests more than [j + 1] activations. *)
Theorem maxDepth_bounds_the_nesting
    (host : Host) (options : WalkerOptions) (fuel : nat)
    (dirPath : string) (currentDepth j : nat) (w : World) :
  depth_exceeds options (currentDepth + j) = true ->
  j < fuel ->
  exhausted (completion (walk host options fuel dirPath currentDepth w)) = false.
Proof. apply Returns.walk_limited. Qed.

Lemma maxDepth_bounds_the_nesting_witness :
  let options := with_followSymlinks true (with_maxDepth (NFinite 2) defaults) in
  depth_exceeds options (0 + 3) = true /\ 3 < 4 /\
  exhausted (completion (walk looped options 4 "A" 0 start)) = false.
Proof.
  split_and!; [reflexivity|lia|].
  apply (maxDepth_bounds_the_nesting looped
           (with_followSymlinks true (with_maxDepth (NFinite 2) defaults)) 4 "A" 0 3 start
           eq_refl). lia.
Defined.

(** X14: When symlinks are not followed, the walk of a tree at most [h]
    directories high returns: it never nests more than [h + 1]
    activations. *)
Theorem walk_returns_on_finite_trees
    (host : Host) (options : WalkerOptions) (fuel h : nat)
    (dirPath : string) (currentDepth : nat) (w : World) :
  followSymlinks options = false ->
  shallow host h dirPath = true ->
  h < fuel ->
  exhausted (completion (walk host options fuel dirPath currentDepth w)) = false.
Proof.
  intros Hno Hh Hf.
  exact (wp_run _ _ _ (Returns.walk_ends host options Hno fuel h dirPath currentDepth w
                         Hh Hf)).
Qed.

Lemma walk_returns_on_finite_trees_witness :
  followSymlinks defaults = false /\ shallow sample 2 "root" = true /\ 2 < 3 /\
  exhausted (completion (walk sample defaults 3 "root" 0 start)) = false.
Proof.
  split_and!; [reflexivity|reflexivity|lia|].
  apply (walk_returns_on_finite_trees sample defaults 3 2 "root" 0 start
           eq_refl eq_refl). lia.
Defined.

Module Listing.

Lemma yielded_nil : yielded [] = [].
Proof. done. Qed.
Lemma yielded_yield time f e : yielded [EvYield time f e] = [e].
Proof. done. Qed.
Lemma yielded_open p seen : yielded [EvOpen p seen] = [].
Proof. done. Qed.
Lemma yielded_progress e : yielded [EvProgress e] = [].
Proof. done. Qed.
Lemma yielded_fault site p e : yielded [EvFault site p e] = [].
Proof. done. Qed.

Ltac ynorm :=
  rewrite ?yielded_app, ?yielded_nil, ?yielded_yield, ?yielded_open, ?yielded_progress,
    ?yielded_fault, ?app_nil_r, ?app_nil_l.

Section Pass.
Variable host : Host.
Variable options : WalkerOptions.
Hypothesis no_signal : signal options = None.
Hypothesis no_follow : followSymlinks options = false.
Hypothesis suppress : suppressErrors options = true.

Lemma never_cancelled n : cancelled options n = false.
Proof. unfold cancelled. by rewrite no_signal. Qed.

Lemma yieldEntry_listed dirPath x k w :
  wp (yieldEntry host options dirPath (joinPath host dirPath (name x)) x k) w
     (fun t _ c => yielded t = [entry_of host options dirPath k x] /\ c = Normal tt).
Proof.
  unfold yieldEntry, entry_of, stats_for. rewrite suppress.
  repeat wp_step; ynorm; done.
Qed.

Lemma collect_listed dirPath flt ds : forall acc w,
  wp (collect options dirPath ds flt acc) w
     (fun t _ c => yielded t = [] /\
                   c = match flt with Some e => Throw e | None => Normal (acc ++ ds) end).
Proof.
  induction ds as [|x ds IH]; intros acc w; simpl.
  - repeat wp_step; ynorm; by rewrite ?app_nil_r.
  - repeat wp_step; [by rewrite never_cancelled in *|].
    wp_use IH; ynorm; destruct H as [-> H]; (split; [done|]); rewrite H;
      destruct flt; by rewrite <- ?app_assoc.
Qed.

Section Frame.
Variable recurse : string -> nat -> Gen unit.
Variable sub : string -> nat -> list Entry.
Hypothesis recurse_listed : forall p j w,
  wp (recurse p j) w
     (fun t _ c => exhausted c = false -> yielded t = sub p j /\ c = Normal tt).

Definition block (dirPath : string) (k : nat) (x : Dirent) : list Entry :=
  (if selected options x then [entry_of host options dirPath k x] else [])
  ++ (if isDirectory x then sub (joinPath host dirPath (name x)) (S k) else []).

Lemma processEntry_listed dirPath k x w :
  wp (processEntry host options recurse dirPath k x) w
     (fun t _ c => exhausted c = false -> yielded t = block dirPath k x /\ c = Normal tt).
Proof.
  unfold processEntry, classify, block, selected. rewrite no_follow, andb_false_r.
  destruct (isDirectory x), (yieldDirectories options),
    (applyFilters options (name x)); simpl; repeat wp_step.
  all: try (wp_use yieldEntry_listed; destruct H as [Ht [=]]).
  all: try (wp_use recurse_listed; intros Hx; try discriminate;
            destruct (H Hx) as [Hs ->] || destruct (H0 Hx) as [Hs ->]).
  all: ynorm; rewrite ?Ht, ?Hs; try intros _.
  all: split; [done|]; try done; by destruct a.
Qed.

Lemma forAwait_listed dirPath k flt ds : forall w,
  wp (forAwait options dirPath ds flt (processEntry host options recurse dirPath k)) w
     (fun t _ c => exhausted c = false -> yielded t = ds ≫= block dirPath k).
Proof.
  induction ds as [|x ds IH]; intros w; simpl.
  - repeat wp_step; ynorm; done.
  - repeat wp_step; [by rewrite never_cancelled in *|].
    wp_use processEntry_listed.
    + wp_use IH; intros Hx; try discriminate; destruct (H eq_refl) as [Ht _];
        ynorm; by rewrite Ht, (H0 Hx).
    + intros Hx. by destruct (H Hx).
    + done.
Qed.

End Frame.

Lemma frame_listed recurse sub dirPath k w :
  (forall p j w,
     wp (recurse p j) w
        (fun t _ c => exhausted c = false -> yielded t = sub p j /\ c = Normal tt)) ->
  wp (frame host options recurse dirPath k) w
     (fun t _ c =>
        exhausted c = false ->
        yielded t =
          (if depth_exceeds options k then []
           else match opendir host dirPath with
                | Err _ => []
                | Ok dir =>
                    match sort options, fault dir with
                    | Some sortType, None => sortEntries host (entries dir) sortType
                    | Some _, Some _ => []
                    | None, _ => entries dir
                    end ≫= block sub dirPath k
                end) /\
        c = Normal tt).
Proof.
  intros Hrec. unfold frame, registerIdentity, openDirectory, scan.
  rewrite no_follow, suppress. cbn [negb].
  repeat wp_step; try (by rewrite never_cancelled in *); try (intros _; by ynorm).
  - wp_use collect_listed; destruct H as [Ht Hc];
      (lazymatch goal with
       | Hd : opendir _ _ = Ok ?dir |- _ => destruct (fault dir) as [e'|] eqn:Hf
       end);
      try discriminate.
    + injection Hc as ->.
      wp_use (forAwait_listed recurse sub Hrec); repeat wp_step; intros Hx; try discriminate.
      all: ynorm; rewrite Ht, (H Hx); (split; [done|]).
      all: by repeat match goal with u : () |- _ => destruct u end.
    + repeat wp_step. intros _. ynorm. by rewrite Ht.
  - wp_use (forAwait_listed recurse sub Hrec); repeat wp_step; intros Hx; try discriminate.
    all: ynorm; rewrite (H eq_refl);
      (split; [|by repeat match goal with u : () |- _ => destruct u end]).
    all: lazymatch goal with
         | Hd : opendir _ _ = Ok ?dir |- _ => by destruct (fault dir)
         end.
Qed.

Lemma walk_listed fuel : forall p k w,
  wp (walk host options fuel p k) w
     (fun t _ c => exhausted c = false ->
                   yielded t = listing host options fuel p k /\ c = Normal tt).
Proof.
  induction fuel as [|fuel IH]; intros p k w; simpl; [by wp_step|].
  eapply wp_mono; [apply (frame_listed _ (listing host options fuel)), IH|].
  intros t w' c H Hx. destruct (H Hx) as [-> ->]. split; [|done].
  destruct (depth_exceeds options k); [done|].
  destruct (opendir host p) as [dir|]; [|done].
  by destruct (sort options), (fault dir).
Qed.

End Pass.
End Listing.



Module GlobFacts.

Lemma append_nil_r s : s +:+ "" = s.
Proof.
  induction s as [|a s IH]; [done|].
  change (String a (s +:+ "") = String a s). by rewrite IH.
Qed.

Lemma append_assoc s1 s2 s3 : (s1 +:+ s2) +:+ s3 = s1 +:+ s2 +:+ s3.
Proof.
  induction s1 as [|a s1 IH]; [done|].
  change (String a ((s1 +:+ s2) +:+ s3) = String a (s1 +:+ s2 +:+ s3)). by rewrite IH.
Qed.

(** The loop reads the pattern from [i] on only. *)
Lemma loop_shift c s turns : forall i acc,
  globToRegex_loop turns (String c s) (S i) acc = globToRegex_loop turns s i acc.
Proof.
  induction turns as [|turns IH]; intros i acc; [done|].
  cbn [globToRegex_loop]. unfold char_is.
  cbn [String.get indexOf Nat.add]. rewrite !IH.
  destruct (String.get i s) as [char|]; [|done].
  destruct (indexOf "]" s i) as [closeIdx|], (indexOf "}" s i) as [closeBrace|];
    cbn [fmap option_fmap option_map Nat.add substring]; rewrite ?IH; done.
Qed.

Lemma literal_loop s : forall turns acc,
  literal s = true -> String.length s <= turns ->
  globToRegex_loop turns s 0 acc
  = acc +:+ escape (escaped_cases ++ ["["; "{"]%char) s.
Proof.
  induction s as [|c s IH]; intros turns acc Hl Hn.
  - destruct turns; cbn [globToRegex_loop String.get escape]; by rewrite append_nil_r.
  - destruct turns as [|turns]; [simpl in Hn; lia|].
    simpl in Hn. cbn [literal] in Hl.
    repeat (apply andb_true_iff in Hl as [Hl ?]).
    apply negb_true_iff in Hl.
    repeat match goal with H : negb _ = true |- _ => apply negb_true_iff in H end.
    cbn [globToRegex_loop String.get]. rewrite Hl, H2.
    cbn [indexOf].
    destruct (Ascii.eqb c "[") eqn:E1.
    { apply Ascii.eqb_eq in E1 as ->. cbn [Ascii.eqb negb orb] in *.
      apply bool_decide_eq_true in H1. cbn. rewrite H1. cbn [fmap option_fmap option_map].
      rewrite loop_shift, IH; [|done|lia]. by rewrite append_assoc. }
    destruct (Ascii.eqb c "{") eqn:E2.
    { apply Ascii.eqb_eq in E2 as ->. cbn [Ascii.eqb negb orb] in *.
      apply bool_decide_eq_true in H0. cbn. rewrite H0. cbn [fmap option_fmap option_map].
      rewrite loop_shift, IH; [|done|lia]. by rewrite append_assoc. }
    cbn [escape]. rewrite existsb_app. cbn [existsb app] in *. rewrite E1, E2, !orb_false_r.
    destruct (existsb (Ascii.eqb c) escaped_cases) eqn:E3; cbn [orb Nat.add].
    + rewrite loop_shift, IH; [|done|lia]. by rewrite !append_assoc.
    + rewrite loop_shift, IH; [|done|lia]. by rewrite !append_assoc.
Qed.

Lemma get_length s : forall i a, String.get i s = Some a -> i < String.length s.
Proof.
  induction s as [|c s IH]; intros [|i] a; simpl; try done; [lia|].
  intros H. apply IH in H. lia.
Qed.

Lemma indexOf_from c s : forall from j, indexOf c s from = Some j -> from <= j.
Proof.
  induction s as [|a s IH]; intros [|from] j; simpl; try done; [lia|].
  destruct (indexOf c s from) as [j'|] eqn:E; [|done]. intros [= <-].
  apply IH in E. lia.
Qed.

(** [pattern.length] turns reach the end of the pattern: more turns
    change nothing. *)
Lemma loop_enough pattern : forall turns turns' i acc,
  String.length pattern - i <= turns -> turns <= turns' ->
  globToRegex_loop turns' pattern i acc = globToRegex_loop turns pattern i acc.
Proof.
  induction turns as [|turns IH]; intros turns' i acc Hn Hle.
  - destruct turns' as [|turns']; [done|]. cbn [globToRegex_loop].
    destruct (String.get i pattern) as [a|] eqn:E; [|done].
    apply get_length in E. lia.
  - destruct turns' as [|turns']; [lia|]. cbn [globToRegex_loop].
    destruct (String.get i pattern) as [a|] eqn:E; [|done].
    apply get_length in E.
    destruct (indexOf "]" pattern i) as [closeIdx|] eqn:E1;
      [apply indexOf_from in E1|];
      (destruct (indexOf "}" pattern i) as [closeBrace|] eqn:E2;
        [apply indexOf_from in E2|]).
    all: repeat case_match; try done; apply IH; lia.
Qed.

End GlobFacts.

(** X16: The loop of [globToRegex] ends within [pattern.length] turns,
    whatever the pattern: with more turns it returns the same string. *)
Theorem globToRegex_ends_within_length_turns (pattern : string) (more : nat) :
  globToRegex_loop (String.length pattern + more) pattern 0 "^"
  = globToRegex_loop (String.length pattern) pattern 0 "^".
Proof. apply GlobFacts.loop_enough; lia. Qed.

(** X17: A pattern without wildcards is compiled to the anchored expression
    that spells it, with a backslash before each of [/ . + ^ $ ( ) | \]
    and before an unclosed [[] or [{]. *)
Theorem globToRegex_spells_literals (pattern : string) :
  literal pattern = true ->
  regexStr pattern = "^" +:+ escape (escaped_cases ++ ["["; "{"]%char) pattern +:+ "$".
Proof.
  intros H. unfold regexStr. rewrite GlobFacts.literal_loop; [|done..].
  by rewrite GlobFacts.append_assoc.
Qed.

Lemma globToRegex_spells_literals_witness :
  literal "src/a.b[c" = true /\ regexStr "src/a.b[c" = "^src\/a\.b\[c$".
Proof.
  split; [reflexivity|].
  rewrite (globToRegex_spells_literals "src/a.b[c" eq_refl). reflexivity.
Defined.

Module MatchFacts.
Section Facts.
Variable new_RegExp : string -> Result JsError RegExp.

Lemma normalize_idempotent s : normalize (normalize s) = normalize s.
Proof.
  unfold normalize. induction s as [|a s IH]; [done|]. cbn [replaceAll]. rewrite IH.
  f_equal. destruct (Ascii.eqb a "\") eqn:E; [done|]. by rewrite E.
Qed.

Lemma loop_app options normalizedPath basename ps qs :
  matchGlob_loop new_RegExp options normalizedPath basename (ps ++ qs) =
  match matchGlob_loop new_RegExp options normalizedPath basename ps with
  | Ok false => matchGlob_loop new_RegExp options normalizedPath basename qs
  | r => r
  end.
Proof.
  induction ps as [|p ps IH]; [done|]. cbn [app matchGlob_loop].
  destruct (globToRegex new_RegExp (normalize p)) as [regex|e]; [|done].
  by destruct (regex _ _).
Qed.

Lemma loop_normalize options normalizedPath basename ps :
  matchGlob_loop new_RegExp options normalizedPath basename (normalize <$> ps) =
  matchGlob_loop new_RegExp options normalizedPath basename ps.
Proof.
  induction ps as [|p ps IH]; [done|]. cbn [fmap list_fmap matchGlob_loop].
  rewrite normalize_idempotent. fold (fmap (M:=list) normalize ps). by rewrite IH.
Qed.

End Facts.
End MatchFacts.

(** X18: Unless [dot] is set, a path whose last segment begins with a dot
    matches no pattern, and no pattern is even compiled for it.  So the
    filter of [createGlobFilter] cannot exclude such a path: it lets it
    through exactly when there are no include patterns. *)
Theorem dotfiles_match_nothing
    (new_RegExp : string -> Result JsError RegExp)
    (filePath : string) (options : GlobOptions) :
  dot options = false ->
  isDotfile (basename_of (normalize filePath)) = true ->
  (forall patterns, matchGlob new_RegExp filePath patterns options = Ok false) /\
  (forall include exclude,
     createGlobFilter new_RegExp include exclude options filePath
     = Ok (negb (given_patterns include))).
Proof.
  intros Hdot Hfile.
  assert (Hm : forall patterns, matchGlob new_RegExp filePath patterns options = Ok false).
  { intros patterns. unfold matchGlob. by rewrite Hdot, Hfile. }
  split; [done|]. intros include exclude. unfold createGlobFilter.
  destruct exclude as [excluded|], include as [included|]; rewrite ?Hm; try done.
  all: repeat case_match; done.
Qed.

Lemma dotfiles_match_nothing_witness :
  let any : string -> Result JsError RegExp := fun _ => Ok (fun _ _ => true) in
  let options := mkGlobOptions false false false in
  dot options = false /\
  isDotfile (basename_of (normalize "src\.env")) = true /\
  createGlobFilter any None (Some (OnePattern patterns_dotfiles)) options "src\.env" = Ok true.
Proof.
  split_and!; [reflexivity..|].
  rewrite (proj2 (dotfiles_match_nothing (fun _ => Ok (fun _ _ => true)) "src\.env"
                    (mkGlobOptions false false false) eq_refl eq_refl)).
  reflexivity.
Defined.

(** X19: The patterns of an array are tried in order and the first that
    matches answers: the patterns after it are not compiled, so an
    invalid one among them does not throw.  A single string is an array
    of one, and the empty array matches nothing. *)
Theorem matchGlob_tries_patterns_in_order
    (new_RegExp : string -> Result JsError RegExp)
    (filePath : string) (options : GlobOptions) (ps qs : list string) (p : string) :
  matchGlob new_RegExp filePath (ManyPatterns (ps ++ qs)) options =
    match matchGlob new_RegExp filePath (ManyPatterns ps) options with
    | Ok false => matchGlob new_RegExp filePath (ManyPatterns qs) options
    | r => r
    end /\
  matchGlob new_RegExp filePath (OnePattern p) options
    = matchGlob new_RegExp filePath (ManyPatterns [p]) options /\
  matchGlob new_RegExp filePath (ManyPatterns []) options = Ok false.
Proof.
  unfold matchGlob. split_and!; [|done|by case_match].
  destruct (negb (dot options) && _); [done|]. cbn [patternArray].
  apply MatchFacts.loop_app.
Qed.

(** X20: A backslash counts as a slash, in the path and in the patterns. *)
Theorem matchGlob_reads_backslashes_as_slashes
    (new_RegExp : string -> Result JsError RegExp)
    (filePath : string) (patterns : Patterns) (options : GlobOptions) :
  matchGlob new_RegExp (normalize filePath) (normalize_patterns patterns) options
  = matchGlob new_RegExp filePath patterns options.
Proof.
  unfold matchGlob. rewrite MatchFacts.normalize_idempotent.
  destruct (negb (dot options) && _); [done|].
  destruct patterns as [p|ps]; cbn [patternArray normalize_patterns].
  - apply (MatchFacts.loop_normalize new_RegExp options _ _ [p]).
  - apply MatchFacts.loop_normalize.
Qed.

(** X21: With [matchBase] the answer depends on the last segment of the
    path only. *)
Theorem matchBase_looks_at_the_basename_only
    (new_RegExp : string -> Result JsError RegExp)
    (filePath filePath' : string) (patterns : Patterns) (options : GlobOptions) :
  matchBase options = true ->
  basename_of (normalize filePath) = basename_of (normalize filePath') ->
  matchGlob new_RegExp filePath patterns options
  = matchGlob new_RegExp filePath' patterns options.
Proof.
  intros Hbase Hsame. unfold matchGlob. rewrite Hsame.
  destruct (negb (dot options) && _); [done|].
  induction (patternArray patterns) as [|p ps IH]; [done|]. cbn [matchGlob_loop].
  unfold testPath. rewrite Hbase, IH. done.
Qed.

Lemma matchBase_looks_at_the_basename_only_witness :
  let options := mkGlobOptions false false true in
  let engine : string -> Result JsError RegExp :=
    fun source => Ok (fun _ s => String.eqb source ("^" +:+ s +:+ "$")) in
  matchBase options = true /\
  basename_of (normalize "a/b/x") = basename_of (normalize "c\x") /\
  matchGlob engine "a/b/x" (OnePattern "x") options = Ok true /\
  matchGlob engine "c\x" (OnePattern "x") options = Ok true.
Proof.
  split_and!; [reflexivity..|].
  rewrite <- (matchBase_looks_at_the_basename_only
                (fun source => Ok (fun _ s => String.eqb source ("^" +:+ s +:+ "$")))
                "a/b/x" "c\x" (OnePattern "x") (mkGlobOptions false false true)
                eq_refl eq_refl).
  reflexivity.
Defined.

(** X22: An empty array of include patterns is not "no include": the filter
    then lets no path through, whereas with [null] or the empty string
    it lets through every path that is not excluded. *)
Theorem empty_include_array_rejects_every_path
    (new_RegExp : string -> Result JsError RegExp)
    (exclude : option Patterns) (options : GlobOptions) (filePath : string) :
  createGlobFilter new_RegExp (Some (ManyPatterns [])) exclude options filePath <> Ok true /\
  createGlobFilter new_RegExp (Some (OnePattern "")) exclude options filePath
    = createGlobFilter new_RegExp None exclude options filePath /\
  createGlobFilter new_RegExp None None options filePath = Ok true.
Proof.
  split_and!; [|done..].
  unfold createGlobFilter. cbn [given_patterns].
  assert (H : matchGlob new_RegExp filePath (ManyPatterns []) options = Ok false).
  { unfold matchGlob. by case_match. }
  rewrite H. repeat case_match; done.
Qed.

Module HelperFacts.

Lemma each_collects (es : list Entry) : forall files,
  each (fun files entry => Ok (files ++ [path entry])) files es = Ok (files ++ (path <$> es)).
Proof.
  induction es as [|e es IH]; intros files; simpl; [by rewrite app_nil_r|].
  rewrite IH. by rewrite <- app_assoc.
Qed.

(** What [findFiles] returns is the paths of the entries yielded by a
    walk that ends normally. *)
Lemma findFiles_Normal host fuel dirPath options files :
  findFiles host fuel dirPath options = Normal files ->
  exists r, streamWalker host fuel dirPath options = Ok r /\
            completion r = Normal tt /\ files = path <$> yielded (trace r).
Proof.
  unfold findFiles, for_await. destruct (streamWalker _ _ _ _) as [r|e]; [|done].
  rewrite each_collects. destruct (completion r) as [[]| |] eqn:E; [|done..].
  intros [= <-]. by exists r.
Qed.

Section Filing.
Variable key_of : string -> string.

Local Abbreviation body :=
  (fun (obj : gmap string (list string)) (entry : Entry) =>
     push_under obj (key_of (path entry)) (path entry)).

(** No own property of the object has an inherited name. *)
Definition plain (obj : gmap string (list string)) : Prop :=
  forall key items, obj !! key = Some items -> inherited key = false /\ items <> [].

Lemma plain_empty : plain ∅.
Proof. intros key items H. by rewrite lookup_empty in H. Qed.

Lemma insert_plain obj key items :
  plain obj -> inherited key = false -> items <> [] -> plain (<[key := items]> obj).
Proof.
  intros Hplain Hkey Hitems key' its. destruct (decide (key' = key)) as [->|Hne].
  - rewrite lookup_insert_eq. by intros [= <-].
  - rewrite lookup_insert_ne by done. apply Hplain.
Qed.

Lemma each_files (es : list Entry) : forall obj,
  plain obj ->
  Forall (fun e => inherited (key_of (path e)) = false) es ->
  exists obj',
    each body obj es = Ok obj' /\ plain obj' /\
    forall key,
      obj' !! key =
      match obj !! key with
      | Some items => Some (items ++ filter (fun item => key_of item = key) (path <$> es))
      | None => filed key_of (path <$> es) key
      end.
Proof.
  induction es as [|e es IH]; intros obj Hplain Hall.
  - exists obj. split_and!; [done..|]. intros key. unfold filed. simpl.
    destruct (obj !! key); by rewrite ?app_nil_r.
  - apply Forall_cons in Hall as [He Hall]. cbn [each]. unfold push_under at 1.
    set (k := key_of (path e)) in *.
    destruct (obj !! k) as [items|] eqn:Hk.
    + destruct (IH (<[k := items ++ [path e]]> obj)) as (obj' & Heach & Hp & Hlook); [|done|].
      { apply insert_plain; [done..|]. by destruct items. }
      exists obj'. split_and!; [done..|]. intros key. rewrite Hlook.
      unfold filed. rewrite fmap_cons, filter_cons. fold k.
      destruct (decide (k = key)) as [<-|Hne].
      * rewrite lookup_insert_eq, Hk. by rewrite <- app_assoc.
      * by rewrite lookup_insert_ne.
    + rewrite He.
      destruct (IH (<[k := [path e]]> obj)) as (obj' & Heach & Hp & Hlook); [|done|].
      { by apply insert_plain. }
      exists obj'. split_and!; [done..|]. intros key. rewrite Hlook.
      unfold filed. rewrite fmap_cons, filter_cons. fold k.
      destruct (decide (k = key)) as [<-|Hne].
      * by rewrite lookup_insert_eq, Hk.
      * by rewrite lookup_insert_ne.
Qed.

Lemma each_hazard (es : list Entry) : forall obj,
  plain obj ->
  Exists (fun e => inherited (key_of (path e)) = true) es ->
  exists err, each body obj es = Err err /\ e_class err = ClsTypeError.
Proof.
  induction es as [|e es IH]; intros obj Hplain Hex; [by apply Exists_nil in Hex|].
  cbn [each]. unfold push_under at 1. set (k := key_of (path e)) in *.
  destruct (obj !! k) as [items|] eqn:Hk.
  - apply Exists_cons in Hex as [He|Hex].
    { destruct (Hplain _ _ Hk) as [Hi _]. fold k in He. congruence. }
    apply IH; [|done]. destruct (Hplain _ _ Hk). apply insert_plain; [done..|].
    by destruct items.
  - destruct (inherited k) eqn:Hi; [by eexists|].
    apply Exists_cons in Hex as [He|Hex]; [fold k in He; congruence|].
    apply IH; [|done]. by apply insert_plain.
Qed.

End Filing.
End HelperFacts.

(** X23: [groupByExtension] files every path that [findFiles] returns, in
    the same order, under the key of its extension ("[no extension]"
    when it has none), and creates no other key; provided no key is a
    name that objects inherit, which the extensions of node:path never
    are. *)
Theorem groupByExtension_files_every_path
    (host : Host) (node_path : NodePath) (fuel : nat)
    (dirPath : string) (options : WalkerOptionsInput) (files : list string) :
  findFiles host fuel dirPath options = Normal files ->
  Forall (fun p => inherited (extension_key node_path p) = false) files ->
  exists groups,
    groupByExtension host node_path fuel dirPath options = Normal groups /\
    forall key, groups !! key = filed (extension_key node_path) files key.
Proof.
  intros Hfiles Hplain.
  apply HelperFacts.findFiles_Normal in Hfiles as (r & Hr & Hc & ->).
  destruct (HelperFacts.each_files (extension_key node_path) (yielded (trace r)) ∅)
    as (groups & Heach & _ & Hlook).
  { apply HelperFacts.plain_empty. }
  { by apply Forall_fmap in Hplain. }
  exists groups. split.
  - unfold groupByExtension, for_await. by rewrite Hr, Heach, Hc.
  - intros key. by rewrite Hlook, lookup_empty.
Qed.

Lemma groupByExtension_files_every_path_witness :
  findFiles twins 4 "root" no_options = Normal ["root/a.txt"; "root/sub/a.txt"; "root/sub/b.md"] /\
  Forall (fun p => inherited (extension_key posix p) = false)
         ["root/a.txt"; "root/sub/a.txt"; "root/sub/b.md"] /\
  exists groups,
    groupByExtension twins posix 4 "root" no_options = Normal groups /\
    groups !! ".txt" = Some ["root/a.txt"; "root/sub/a.txt"] /\
    groups !! ".md" = Some ["root/sub/b.md"] /\
    groups !! "[no extension]" = None.
Proof.
  assert (Hplain : Forall (fun p => inherited (extension_key posix p) = false)
                     ["root/a.txt"; "root/sub/a.txt"; "root/sub/b.md"]).
  { repeat constructor. }
  split_and!; [reflexivity|done|].
  destruct (groupByExtension_files_every_path twins posix 4 "root" no_options _ eq_refl Hplain)
    as (groups & Hg & Hlook).
  exists groups. rewrite !Hlook. split_and!; [done|vm_compute; reflexivity..].
Defined.

(** X24: [findDuplicateNames] returns, for each base name that more than
    one of the paths of [findFiles] has, all the paths that have it, in
    order, and nothing for the other names; provided no base name is a
    name that objects inherit. *)
Theorem findDuplicateNames_keeps_the_repeated_names
    (host : Host) (node_path : NodePath) (fuel : nat)
    (dirPath : string) (options : WalkerOptionsInput) (files : list string) :
  findFiles host fuel dirPath options = Normal files ->
  Forall (fun p => inherited (basename node_path p) = false) files ->
  exists duplicates,
    findDuplicateNames host node_path fuel dirPath options = Normal duplicates /\
    forall name,
      duplicates !! name =
      match filed (basename node_path) files name with
      | Some paths => if bool_decide (1 < length paths) then Some paths else None
      | None => None
      end.
Proof.
  intros Hfiles Hplain.
  apply HelperFacts.findFiles_Normal in Hfiles as (r & Hr & Hc & ->).
  destruct (HelperFacts.each_files (basename node_path) (yielded (trace r)) ∅)
    as (filesByName & Heach & _ & Hlook).
  { apply HelperFacts.plain_empty. }
  { by apply Forall_fmap in Hplain. }
  eexists. split.
  - unfold findDuplicateNames, for_await. by rewrite Hr, Heach, Hc.
  - intros name. rewrite map_lookup_filter, Hlook, lookup_empty.
    destruct (filed _ _ _) as [paths|]; [|done]. simpl.
    case_bool_decide; [by rewrite option_guard_True|by rewrite option_guard_False].
Qed.

Lemma findDuplicateNames_keeps_the_repeated_names_witness :
  findFiles twins 4 "root" no_options = Normal ["root/a.txt"; "root/sub/a.txt"; "root/sub/b.md"] /\
  Forall (fun p => inherited (basename posix p) = false)
         ["root/a.txt"; "root/sub/a.txt"; "root/sub/b.md"] /\
  exists duplicates,
    findDuplicateNames twins posix 4 "root" no_options = Normal duplicates /\
    duplicates !! "a.txt" = Some ["root/a.txt"; "root/sub/a.txt"] /\
    duplicates !! "b.md" = None.
Proof.
  assert (Hplain : Forall (fun p => inherited (basename posix p) = false)
                     ["root/a.txt"; "root/sub/a.txt"; "root/sub/b.md"]).
  { repeat constructor. }
  split_and!; [reflexivity|done|].
  destruct (findDuplicateNames_keeps_the_repeated_names twins posix 4 "root" no_options _
              eq_refl Hplain) as (duplicates & Hd & Hlook).
  exists duplicates. rewrite !Hlook. split_and!; [done|vm_compute; reflexivity..].
Defined.

(** X25: An entry whose base name is a name that every object inherits
    (constructor, toString, ...) makes [findDuplicateNames] fail with a
    [TypeError]: the object that maps names to paths already answers
    under that name, with something that has no [push]. *)
Theorem inherited_name_breaks_findDuplicateNames
    (host : Host) (node_path : NodePath) (fuel : nat)
    (dirPath : string) (options : WalkerOptionsInput)
    (r : list Event * World * Completion unit) :
  streamWalker host fuel dirPath options = Ok r ->
  Exists (fun e => inherited (basename node_path (path e)) = true) (yielded (trace r)) ->
  exists err,
    findDuplicateNames host node_path fuel dirPath options = Throw err /\
    e_class err = ClsTypeError.
Proof.
  intros Hr Hex.
  destruct (HelperFacts.each_hazard (basename node_path) (yielded (trace r)) ∅)
    as (err & Heach & Hcls); [apply HelperFacts.plain_empty|done|].
  exists err. split; [|done].
  unfold findDuplicateNames, for_await. by rewrite Hr, Heach.
Qed.

Lemma inherited_name_breaks_findDuplicateNames_witness :
  exists r err,
    streamWalker awkward 3 "root" no_options = Ok r /\
    (path <$> yielded (trace r)) = ["root/notes.txt"; "root/constructor"] /\
    findDuplicateNames awkward posix 3 "root" no_options = Throw err /\
    e_class err = ClsTypeError.
Proof.
  eexists. 
  destruct (inherited_name_breaks_findDuplicateNames awkward posix 3 "root" no_options
              _ eq_refl) as (err & H & Hcls).
  { apply Exists_cons_tl, Exists_cons_hd. reflexivity. }
  exists err. split_and!; [reflexivity|reflexivity|done|done].
Defined.
